(** * T-Rex runner: the simulation core of [TRexGame]

    A shallow embedding of the game component (the React function component
    [TRexGame]): collision test, jump and reset commands, the per-frame
    [updateGame] step with its obstacle loop, the difficulty curve, and the
    effects that load and store the high score.  Line numbers refer to the
    source file holding the component.

    Number model.  JavaScript numbers are modelled exactly: coordinates,
    velocities and rates are rationals ([Q]), the score counters are integers
    ([Z]), and the one number that can fail to be a number (the high score
    read back from storage) is a [JsNumber].  Rounding of binary64 arithmetic
    is not modelled.  The states on which the code is evaluated to show a
    departure from a property hold integers and halves only, or compare
    values that are far apart, so that rounding plays no part there; for
    the arc of a jump, for the difficulty curve and for the collision test,
    [Binary64] repeats the computation in binary64 on the values that
    occur. *)

From Stdlib Require Import ZArith QArith Qminmax Lqa Lia Bool String Ascii.
From Stdlib Require Import DecimalString Floats.
From Stdlib Require Import Qround Decimal DecimalPos.
From stdpp Require Import base list.

Local Open Scope Z_scope.
Local Open Scope Q_scope.

(** ** Numbers *)

Module Num.

(** [a < b], [a > b] and [a >= b] on numbers, as booleans. *)
Definition ltb (a b : Q) : bool :=
  match a ?= b with Lt => true | _ => false end.
Definition gtb (a b : Q) : bool := ltb b a.
Definition geb (a b : Q) : bool := Qle_bool b a.

(** A number that may be [NaN]: the result of [parseInt]. *)
Inductive JsNumber : Set :=
| NaN
| Int (z : Z).

(** [Object.is] on such numbers, used to compare effect dependencies. *)
Definition same (a b : JsNumber) : bool :=
  match a, b with
  | NaN, NaN => true
  | Int x, Int y => (x =? y)%Z
  | _, _ => false
  end.

(** [score > highScore]: any comparison with [NaN] is false. *)
Definition int_gtb (score : Z) (highScore : JsNumber) : bool :=
  match highScore with
  | NaN => false
  | Int h => (h <? score)%Z
  end.

(** [n.toString()] for an integer: all its decimal digits, as the code
    writes every integer a Number holds exactly (up to 2^53 in absolute
    value; from 10^21 on the code writes an exponent). *)
Definition toString (n : Z) : string := NilZero.string_of_int (Z.to_int n).

(** *** [parseInt(s, 10)]

    Leading white space is skipped, one sign is accepted, then the longest
    prefix of decimal digits is read; with no digit the result is [NaN].
    Strings are sequences of code units below 256, so the white space
    recognised is tab, line feed, vertical tab, form feed, carriage return,
    space and the no-break space.  The integer read is kept exactly (the
    code rounds it to binary64 from 2^53 on). *)
Definition isWhiteSpace (c : ascii) : bool :=
  let n := nat_of_ascii c in
  ((9 <=? n) && (n <=? 13) || (n =? 32) || (n =? 160))%nat.

Fixpoint trimStart (s : string) : string :=
  match s with
  | String c s' => if isWhiteSpace c then trimStart s' else s
  | EmptyString => s
  end.

Definition digit (c : ascii) : option Z :=
  let n := nat_of_ascii c in
  if ((48 <=? n) && (n <=? 57))%nat then Some (Z.of_nat (n - 48)) else None.

(** The digits read so far are [acc]; [None] when none was read. *)
Fixpoint digits (acc : option Z) (s : string) : option Z :=
  match s with
  | String c s' =>
      match digit c with
      | Some d => digits (Some (10 * default 0%Z acc + d)%Z) s'
      | None => acc
      end
  | EmptyString => acc
  end.

Definition parseInt (s : string) : JsNumber :=
  let s := trimStart s in
  let '(sign, s) :=
    match s with
    | String "-" s' => ((-1)%Z, s')
    | String "+" s' => (1%Z, s')
    | _ => (1%Z, s)
    end in
  match digits None s with
  | Some n => Int (sign * n)
  | None => NaN
  end.

End Num.

Export Num (JsNumber, NaN, Int).

(** ** Entities *)

(** [interface GameObject]. *)
Record GameObject : Set := mkGameObject {
  x : Q;
  y : Q;
  width : Q;
  height : Q
}.

(** [interface PlayerObject extends GameObject]. *)
Record PlayerObject : Set := mkPlayer {
  player_rect :> GameObject;
  velocityY : Q;
  isJumping : bool
}.

(** [interface Obstacle extends GameObject]. *)
Record Obstacle : Set := mkObstacle {
  obstacle_rect :> GameObject;
  passed : bool
}.

Definition BASE_WIDTH : Q := 800.
Definition BASE_HEIGHT : Q := 250.
Definition GROUND_Y : Q := 200.
Definition MAX_SCORE : Z := 99999.
Definition PLAYER_X_POS : Q := BASE_WIDTH / 2 - 20.

(** ** Collision *)

(** [checkCollision] (lines 588-593).  The sums are exact here; the code
    adds in binary64, where it is [Binary64.checkCollision64].  The two
    agree wherever the four sums are exact in binary64, as for integers
    up to 2^52 in absolute value and for the rectangles of the game. *)
Definition checkCollision (rect1 rect2 : GameObject) : bool :=
  Num.ltb (x rect1) (x rect2 + width rect2) &&
  Num.gtb (x rect1 + width rect1) (x rect2) &&
  Num.ltb (y rect1) (y rect2 + height rect2) &&
  Num.gtb (y rect1 + height rect1) (y rect2).

(** ** Simulation state: the object held by the [gameState] ref
    (lines 67-87) *)

Record GameState : Set := mkGameState {
  player : PlayerObject;
  obstacles : list Obstacle;
  ground : GameObject;
  gameSpeed : Q;
  gravity : Q;
  jumpPower : Q;
  obstacleSpawnRate : Q;
  lastObstacleX : Q;
  scoreCounter : Z;
  animationFrame : Q;
  animationSpeed : Q;
  lastThemeChangeScore : Z
}.

(** The value the ref is created with, and that [resetGame] stores again. *)
Definition initialPlayer : PlayerObject :=
  mkPlayer (mkGameObject PLAYER_X_POS 150 40 40) 0 false.

Definition initialGameState : GameState :=
  {| player := initialPlayer;
     obstacles := [];
     ground := mkGameObject 0 200 800 20;
     gameSpeed := 1.5;
     gravity := 0.3;
     jumpPower := -10;
     obstacleSpawnRate := 0.006;
     lastObstacleX := 800;
     scoreCounter := 0;
     animationFrame := 0;
     animationSpeed := 0.25;
     lastThemeChangeScore := 0 |}.

(** Field assignments. *)
Definition set_player (p : PlayerObject) (g : GameState) : GameState :=
  mkGameState p (obstacles g) (ground g) (gameSpeed g) (gravity g)
    (jumpPower g) (obstacleSpawnRate g) (lastObstacleX g) (scoreCounter g)
    (animationFrame g) (animationSpeed g) (lastThemeChangeScore g).

Definition set_obstacles (os : list Obstacle) (g : GameState) : GameState :=
  mkGameState (player g) os (ground g) (gameSpeed g) (gravity g)
    (jumpPower g) (obstacleSpawnRate g) (lastObstacleX g) (scoreCounter g)
    (animationFrame g) (animationSpeed g) (lastThemeChangeScore g).

Definition set_ground (gr : GameObject) (g : GameState) : GameState :=
  mkGameState (player g) (obstacles g) gr (gameSpeed g) (gravity g)
    (jumpPower g) (obstacleSpawnRate g) (lastObstacleX g) (scoreCounter g)
    (animationFrame g) (animationSpeed g) (lastThemeChangeScore g).

Definition set_gameSpeed (v : Q) (g : GameState) : GameState :=
  mkGameState (player g) (obstacles g) (ground g) v (gravity g)
    (jumpPower g) (obstacleSpawnRate g) (lastObstacleX g) (scoreCounter g)
    (animationFrame g) (animationSpeed g) (lastThemeChangeScore g).

Definition set_obstacleSpawnRate (v : Q) (g : GameState) : GameState :=
  mkGameState (player g) (obstacles g) (ground g) (gameSpeed g) (gravity g)
    (jumpPower g) v (lastObstacleX g) (scoreCounter g)
    (animationFrame g) (animationSpeed g) (lastThemeChangeScore g).

Definition set_lastObstacleX (v : Q) (g : GameState) : GameState :=
  mkGameState (player g) (obstacles g) (ground g) (gameSpeed g) (gravity g)
    (jumpPower g) (obstacleSpawnRate g) v (scoreCounter g)
    (animationFrame g) (animationSpeed g) (lastThemeChangeScore g).

Definition set_animationFrame (v : Q) (g : GameState) : GameState :=
  mkGameState (player g) (obstacles g) (ground g) (gameSpeed g) (gravity g)
    (jumpPower g) (obstacleSpawnRate g) (lastObstacleX g) (scoreCounter g)
    v (animationSpeed g) (lastThemeChangeScore g).

Definition set_lastThemeChangeScore (v : Z) (g : GameState) : GameState :=
  mkGameState (player g) (obstacles g) (ground g) (gameSpeed g) (gravity g)
    (jumpPower g) (obstacleSpawnRate g) (lastObstacleX g) (scoreCounter g)
    (animationFrame g) (animationSpeed g) v.

(** The two refs of the component, [gameState] and [currentScoreRef]
    (line 90): they are mutated in place, at once. *)
Record Refs : Set := mkRefs {
  gameState : GameState;
  currentScoreRef : Z
}.

(** ** Component state (lines 40-45) and the calls that change it

    The [useState] values are fixed during a render: the functions of the
    component read the values of the render that created them, and a setter
    call only takes effect in the next render; the calls made in one frame
    or one input handler are applied together, before that render.  Code that calls setters is
    therefore modelled as returning the list of its calls, in order, next to
    the refs it mutated.  [localStorage.setItem] calls are in the same list. *)

Record React : Set := mkReact {
  score : Z;
  highScore : JsNumber;
  gameOver : bool;
  gameStarted : bool;
  gameWon : bool;
  darkTheme : bool
}.

Definition initialReact : React :=
  {| score := 0; highScore := Int 0; gameOver := false;
     gameStarted := false; gameWon := false; darkTheme := false |}.

Inductive Call : Set :=
| SetScore (n : Z)
| SetHighScore (n : JsNumber)
| SetGameOver (b : bool)
| SetGameStarted (b : bool)
| SetGameWon (b : bool)
| SetDarkTheme (b : bool)
| ToggleDarkTheme                (* [setDarkTheme(prev => !prev)] *)
| SetItem (value : string).      (* [localStorage.setItem('trex-high-score', value)] *)

Definition applyCall (c : Call) (r : React) : React :=
  match c with
  | SetScore n =>
      mkReact n (highScore r) (gameOver r) (gameStarted r) (gameWon r) (darkTheme r)
  | SetHighScore n =>
      mkReact (score r) n (gameOver r) (gameStarted r) (gameWon r) (darkTheme r)
  | SetGameOver b =>
      mkReact (score r) (highScore r) b (gameStarted r) (gameWon r) (darkTheme r)
  | SetGameStarted b =>
      mkReact (score r) (highScore r) (gameOver r) b (gameWon r) (darkTheme r)
  | SetGameWon b =>
      mkReact (score r) (highScore r) (gameOver r) (gameStarted r) b (darkTheme r)
  | SetDarkTheme b =>
      mkReact (score r) (highScore r) (gameOver r) (gameStarted r) (gameWon r) b
  | ToggleDarkTheme =>
      mkReact (score r) (highScore r) (gameOver r) (gameStarted r) (gameWon r)
        (negb (darkTheme r))
  | SetItem _ => r
  end.

(** The state of the next render: the queued calls applied in order. *)
Definition applyCalls (cs : list Call) (r : React) : React :=
  fold_left (fun r c => applyCall c r) cs r.

(** The stored item after the calls: the last value written, if any. *)
Definition storeCalls (cs : list Call) (item : option string) : option string :=
  fold_left (fun it c => match c with SetItem v => Some v | _ => it end) cs item.

(** ** Commands *)

(** [resetGame] (lines 612-640). *)
Definition resetGame (m : Refs) : Refs * list Call :=
  (mkRefs initialGameState 0,
   [SetScore 0; SetGameOver false; SetGameWon false; SetGameStarted true;
    SetDarkTheme false]).

(** [jump] (lines 595-610); [props] are the state values of the render that
    created the callback. *)
Definition jump (props : React) (m : Refs) : Refs * list Call :=
  if negb (gameStarted props) then (m, [SetGameStarted true])
  else if gameOver props || gameWon props then resetGame m
  else if negb (isJumping (player (gameState m))) then
    let g := gameState m in
    let p := player g in
    (mkRefs (set_player (mkPlayer p (jumpPower g) true) g) (currentScoreRef m), [])
  else (m, []).

(** ** Theme change *)

(** [checkThemeChange] (lines 651-660).  The score is an integer, so
    [Math.floor(score / 120)] is the quotient of the floored division. *)
Definition checkThemeChange (newScore : Z) (g : GameState) : GameState * list Call :=
  let scoreThreshold := 120%Z in
  if (lastThemeChangeScore g / scoreThreshold <? newScore / scoreThreshold)%Z
  then (set_lastThemeChangeScore newScore g, [ToggleDarkTheme])
  else (g, []).

(** ** The update step: [updateGame] (lines 662-742) *)

(** Player physics: the first block of [updateGame] (lines 667-678). *)
Definition updatePlayer (g : Q) (p : PlayerObject) : PlayerObject :=
  if isJumping p then
    let v := velocityY p + g in
    let y' := y p + v in
    if Num.geb y' 150
    then mkPlayer (mkGameObject (x p) 150 (width p) (height p)) 0 false
    else mkPlayer (mkGameObject (x p) y' (width p) (height p)) v true
  else p.

(** The physics step and the difficulty curve once more, in binary64
    arithmetic, the arithmetic the code runs in; they serve to check on the
    values that occur that rounding does not change the arc of a jump or the
    shape of the curve.  A decimal literal denotes the binary64 number
    nearest to it, as in the code. *)
Module Binary64.

Local Set Warnings "-inexact-float".

Record Player64 : Set := mkPlayer64 {
  y64 : float;
  velocityY64 : float;
  isJumping64 : bool
}.

Definition updatePlayer64 (g : float) (p : Player64) : Player64 :=
  if isJumping64 p then
    let v := (velocityY64 p + g)%float in
    let y' := (y64 p + v)%float in
    if (150 <=? y')%float
    then mkPlayer64 150%float 0%float false
    else mkPlayer64 y' v true
  else p.

Definition gravity64 : float := 0.3%float.

(** [Math.min] on two numbers neither of which is NaN. *)
Definition min64 (a b : float) : float := if (a <? b)%float then a else b.

Definition newSpeed64 (currentScore : float) : float :=
  min64 (1.5 + currentScore * 0.0008)%float 6.0%float.

Definition baseSpawnRate64 : float := 0.006%float.

Definition newSpawnRate64 (currentScore : float) : float :=
  min64 (baseSpawnRate64 + currentScore * 0.000008)%float 0.015%float.

(** The curve does not decrease from [s] to [s + 10] and is below its caps
    at [s], for [n] scores from [s] on in steps of 10. *)
Fixpoint curveRises (n : nat) (s : float) : bool :=
  match n with
  | O => true
  | S n' =>
      let s' := (s + 10)%float in
      (newSpeed64 s <=? newSpeed64 s')%float &&
      (newSpawnRate64 s <=? newSpawnRate64 s')%float &&
      (newSpeed64 s <=? 6.0)%float && (newSpawnRate64 s <=? 0.015)%float &&
      curveRises n' s'
  end.

(** [checkCollision] (lines 588-593) on binary64 numbers. *)
Record Rect64 : Set := mkRect64 {
  rx : float;
  ry : float;
  rw : float;
  rh : float
}.

Definition checkCollision64 (rect1 rect2 : Rect64) : bool :=
  (rx rect1 <? rx rect2 + rw rect2)%float &&
  (rx rect2 <? rx rect1 + rw rect1)%float &&
  (ry rect1 <? ry rect2 + rh rect2)%float &&
  (ry rect2 <? ry rect1 + rh rect1)%float.

End Binary64.

(** [ground.x -= gameSpeed]. *)
Definition moveGround (g : GameState) : GameState :=
  let gr := ground g in
  set_ground (mkGameObject (x gr - gameSpeed g) (y gr) (width gr) (height gr)) g.

(** Obstacle generation (lines 683-694); [random] is the value of
    [Math.random()]. *)
Definition newObstacle : Obstacle :=
  mkObstacle (mkGameObject BASE_WIDTH 175 18 25) false.

Definition spawnObstacle (random : Q) (g : GameState) : GameState :=
  if Num.ltb random (obstacleSpawnRate g) &&
     Num.gtb (BASE_WIDTH - lastObstacleX g) 400
  then set_lastObstacleX BASE_WIDTH (set_obstacles (obstacles g ++ [newObstacle]) g)
  else g.

(** [obstacle.x -= gameSpeed]. *)
Definition moveObstacle (speed : Q) (o : Obstacle) : Obstacle :=
  mkObstacle (mkGameObject (x o - speed) (y o) (width o) (height o)) (passed o).

Definition markPassed (o : Obstacle) : Obstacle :=
  mkObstacle (obstacle_rect o) true.

(** The test that the moved obstacle [o] is passed now. *)
Definition passesNow (p : PlayerObject) (o : Obstacle) : bool :=
  negb (passed o) && Num.ltb (x o + width o) (x p + width p / 2).

(** The test that the moved obstacle [o] is off screen. *)
Definition offScreen (o : Obstacle) : bool :=
  Num.ltb (x o + width o) 0.

(** The pass/score block of the loop body (lines 700-715), on the moved
    obstacle. *)
Definition scoreObstacle (o : Obstacle) (m : Refs) : Obstacle * Refs * list Call :=
  if passesNow (player (gameState m)) o then
    let cur := (currentScoreRef m + 10)%Z in
    let '(g, themeCalls) := checkThemeChange cur (gameState m) in
    (markPassed o, mkRefs g cur,
     [SetScore cur] ++ themeCalls ++
     (if (MAX_SCORE <=? cur)%Z then [SetGameWon true] else []))
  else (o, m, []).

(** The callback of [obstacles.forEach] (lines 697-726), called for the
    element [obstacle] at [index].  The element is an object of the array: its changes are written
    back at [index]; [splice(index, 1)] is [delete index]. *)
Definition visitObstacle (obstacle : Obstacle) (index : nat) (m : Refs)
  : Refs * list Call :=
  let o1 := moveObstacle (gameSpeed (gameState m)) obstacle in
  let '(o2, m2, scoreCalls) := scoreObstacle o1 m in
  let g := gameState m2 in
  let hitCalls := if checkCollision (player g) o2 then [SetGameOver true] else [] in
  let arr := <[index := o2]> (obstacles g) in
  let arr := if offScreen o2 then delete index arr else arr in
  (mkRefs (set_obstacles arr g) (currentScoreRef m2), scoreCalls ++ hitCalls).

(** [Array.prototype.forEach]: the length is read once, then the indices
    [k], [k+1], ... below it are visited in order; an index that is no longer
    in the array when its turn comes is skipped. *)
Fixpoint forEachFrom (n k : nat) (m : Refs) : Refs * list Call :=
  match n with
  | O => (m, [])
  | S n' =>
      match obstacles (gameState m) !! k with
      | Some o =>
          let '(m1, calls1) := visitObstacle o k m in
          let '(m2, calls2) := forEachFrom n' (S k) m1 in
          (m2, calls1 ++ calls2)
      | None => forEachFrom n' (S k) m
      end
  end.

Definition forEachObstacle (m : Refs) : Refs * list Call :=
  forEachFrom (length (obstacles (gameState m))) 0 m.

(** The difficulty curve, recomputed from the score after the loop
    (lines 728-741). *)
Definition newSpeed (currentScore : Z) : Q :=
  let baseSpeed := 1.5 in
  let maxSpeed := 6.0 in
  let speedIncreaseRate := inject_Z currentScore * 0.0008 in
  Qmin (baseSpeed + speedIncreaseRate) maxSpeed.

Definition newSpawnRate (currentScore : Z) : Q :=
  let baseSpawnRate := 0.006 in
  let maxSpawnRate := 0.015 in
  let spawnRateIncrease := inject_Z currentScore * 0.000008 in
  Qmin (baseSpawnRate + spawnRateIncrease) maxSpawnRate.

Definition updateDifficulty (m : Refs) : Refs :=
  let g := set_gameSpeed (newSpeed (currentScoreRef m)) (gameState m) in
  let g := set_obstacleSpawnRate (newSpawnRate (currentScoreRef m)) g in
  let g := set_lastObstacleX (lastObstacleX g - gameSpeed g) g in
  mkRefs g (currentScoreRef m).

(** The part of [updateGame] before the loop. *)
Definition beforeLoop (random : Q) (g : GameState) : GameState :=
  let g := set_player (updatePlayer (gravity g) (player g)) g in
  let g := moveGround g in
  spawnObstacle random g.

(** The lifecycle gate: the function returns at once unless this holds. *)
Definition running (props : React) : bool :=
  negb (negb (gameStarted props) || gameOver props || gameWon props).

Definition updateGame (props : React) (random : Q) (m : Refs) : Refs * list Call :=
  if negb (gameStarted props) || gameOver props || gameWon props then (m, [])
  else
    let m := mkRefs (beforeLoop random (gameState m)) (currentScoreRef m) in
    let '(m, calls) := forEachObstacle m in
    (updateDifficulty m, calls).

(** The one mutation [render] makes: the leg animation of [drawPlayer]
    (lines 134-135), which [render] calls once the game has started. *)
Definition render (props : React) (m : Refs) : Refs :=
  if gameStarted props then
    let g := gameState m in
    let dynamicAnimationSpeed := animationSpeed g * (gameSpeed g / 1.5) in
    mkRefs (set_animationFrame (animationFrame g + dynamicAnimationSpeed) g)
      (currentScoreRef m)
  else m.

(** ** Effects *)

(** Mount effect (lines 58-64): load the high score.  [item] is what
    [localStorage.getItem('trex-high-score')] returns; [null] and the empty
    string are falsy. *)
Definition loadHighScore (item : option string) : list Call :=
  match item with
  | Some (String c s) => [SetHighScore (Num.parseInt (String c s))]
  | Some EmptyString => []
  | None => []
  end.

(** Effect with dependencies [gameOver, highScore] (lines 642-648), under
    the comment "Update high score when game ends". *)
Definition highScoreEffect (props : React) (m : Refs) : list Call :=
  if gameOver props && Num.int_gtb (currentScoreRef m) (highScore props)
  then [SetHighScore (Int (currentScoreRef m));
        SetItem (Num.toString (currentScoreRef m))]
  else [].

(** Effect with dependency [score] (lines 847-850): sync the ref with the
    state. *)
Definition syncScore (props : React) (m : Refs) : Refs :=
  mkRefs (gameState m) (score props).

(** ** The component over time

    The animation loop (lines 837-845) and the input listeners (lines
    803-835, through [jump], line 610) are set up again whenever one of
    [gameStarted], [gameOver], [gameWon] changes, so [updateGame] and [jump]
    read these three values as of the last render. *)

Record World : Set := mkWorld {
  react : React;               (* the state of the last render *)
  refs : Refs;
  storedItem : option string   (* the item 'trex-high-score' of localStorage *)
}.

(** The effects that run after the render with state [new], when the render
    before had state [old]: those with a changed dependency, in source order. *)
Definition runEffects (old new : React) (m : Refs) : Refs * list Call :=
  let calls :=
    if negb (Bool.eqb (gameOver old) (gameOver new)) ||
       negb (Num.same (highScore old) (highScore new))
    then highScoreEffect new m else [] in
  let m := if negb (score old =? score new)%Z then syncScore new m else m in
  (m, calls).

(** The calls [calls] take effect: next render state, and the store. *)
Definition enqueue (calls : list Call) (m : Refs) (w : World) : World :=
  mkWorld (applyCalls calls (react w)) m (storeCalls calls (storedItem w)).

(** Renders follow each other while effects keep calling setters; [old] is
    the state of the render before the one of [w]. *)
Fixpoint settle (fuel : nat) (old : React) (w : World) : World * list Call :=
  match fuel with
  | O => (w, [])
  | S fuel' =>
      let '(m, calls) := runEffects old (react w) (refs w) in
      match calls with
      | [] => (mkWorld (react w) m (storedItem w), [])
      | _ =>
          let '(w', calls') := settle fuel' (react w) (enqueue calls m w) in
          (w', calls ++ calls')
      end
  end.

(** Three renders are enough for the effects to come to rest (see
    [settle_rests]). *)
Definition commit (calls : list Call) (m : Refs) (w : World) : World * list Call :=
  let '(w', calls') := settle 3 (react w) (enqueue calls m w) in
  (w', calls ++ calls').

(** First render and the effects of the mount, which all run. *)
Definition mount (item : option string) : World * list Call :=
  let m := mkRefs initialGameState 0 in
  let calls := loadHighScore item ++ highScoreEffect initialReact m in
  let m := syncScore initialReact m in
  commit calls m (mkWorld initialReact m item).

(** One animation frame, [gameLoop] (lines 797-801):
    [updateGame(); render();]. *)
Definition gameLoop (random : Q) (w : World) : World * list Call :=
  let '(m, calls) := updateGame (react w) random (refs w) in
  commit calls (render (react w) m) w.

(** One key press, click or touch: [jump()]. *)
Definition press (w : World) : World * list Call :=
  let '(m, calls) := jump (react w) (refs w) in
  commit calls m w.

Inductive Event : Set :=
| Frame (random : Q)
| Press.

Definition step (e : Event) (w : World) : World :=
  match e with
  | Frame random => fst (gameLoop random w)
  | Press => fst (press w)
  end.

Definition run (es : list Event) (w : World) : World :=
  fold_left (fun w e => step e w) es w.

(** The states the component can be in. *)
Inductive reachable : World -> Prop :=
| reach_mount (item : option string) : reachable (fst (mount item))
| reach_step (e : Event) (w : World) : reachable w -> reachable (step e w).

(** ** Canvas size *)

(** [handleResize] (lines 93-113) for a container of client width
    [containerWidth] (an integer, as [clientWidth] is): the argument of
    [setCanvasSize] and the argument of [setScaleFactor]. *)
Record CanvasSize : Set := mkCanvasSize {
  canvasWidth : Z;
  canvasHeight : Z
}.

Definition handleResize (containerWidth : Z) : CanvasSize * Q :=
  let aspectRatio := BASE_HEIGHT / BASE_WIDTH in
  let containerHeight := Qfloor (inject_Z containerWidth * aspectRatio) in
  let newScaleFactor := inject_Z containerWidth / BASE_WIDTH in
  (mkCanvasSize containerWidth containerHeight, newScaleFactor).

(** ** Score text *)

(** [s.padStart(targetLength, pad)] for a pad string of one code unit. *)
Definition padStart (targetLength : nat) (pad : ascii) (s : string) : string :=
  (string_of_list_ascii (repeat pad (targetLength - String.length s)) ++ s)%string.

(** The digits [drawScore] (lines 405-420) shows for the score:
    [currentScoreRef.current.toString().padStart(5, '0')]. *)
Definition scoreDigits (m : Refs) : string :=
  padStart 5 "0" (Num.toString (currentScoreRef m)).

(** The text it draws at the right. *)
Definition scoreText (m : Refs) : string :=
  ("Score: " ++ scoreDigits m)%string.

(** ** Ground pattern *)

(** [a % b] on numbers: the remainder has the sign of the dividend,
    [a - b * trunc(a / b)]. *)
Definition truncate (q : Q) : Z :=
  if Qle_bool 0 q then Qfloor q else Qceiling q.

Definition remainder (a b : Q) : Q := a - b * inject_Z (truncate (a / b)).

(** [drawGround] (lines 366-403): the offset of the ground pattern,
    [ground.x % 40], and the x of the first pebble the foreground layer
    draws for [i], [i - groundOffset]; [i] is 0, 40, 80, ... below
    [BASE_WIDTH]. *)
Definition groundOffset (g : GameState) : Q := remainder (x (ground g)) 40.

Definition pebbleX (i : Q) (g : GameState) : Q := i - groundOffset g.

(** * Vocabulary of the properties

    Predicates in which the properties are stated, measures on the list of
    calls of a frame, and the concrete states on which the code is
    evaluated. *)

(** ** Rectangles *)




Definition positive (a : GameObject) : Prop := 0 < width a /\ 0 < height a.

(** An integer of absolute value at most 2^52: binary64 holds such numbers
    and adds two of them exactly. *)
Definition wholeNumber (q : Q) : Prop :=
  exists n : Z, q == inject_Z n /\ (Z.abs n <= 2 ^ 52)%Z.

(** A rectangle whose four numbers are such integers: the sums of
    [checkCollision] are exact on it. *)
Definition exactRect (a : GameObject) : Prop :=
  wholeNumber (x a) /\ wholeNumber (y a) /\
  wholeNumber (width a) /\ wholeNumber (height a).


(** A rectangle of width and height zero. *)
Definition emptyRect : GameObject := mkGameObject 0 0 0 0.

(** ** Physics *)

(** Constants of the physics, and the rest position of a grounded player. *)
Definition physicsInv (g : GameState) : Prop :=
  gravity g = 0.3 /\ jumpPower g = -10 /\
  (isJumping (player g) = false ->
   y (player g) = 150 /\ velocityY (player g) = 0).

(** The game is running at the start of each of the frames [randoms]. *)
Fixpoint alive (randoms : list Q) (w : World) : Prop :=
  match randoms with
  | [] => True
  | random :: rest => running (react w) = true /\ alive rest (step (Frame random) w)
  end.

(** The arc of a jump from the ground takes 66 frames. *)
Definition jumpFrames : nat := 66.

(** ** The obstacle loop *)

(** The refs when the loop starts. *)
Definition loopStart (random : Q) (m : Refs) : Refs :=
  mkRefs (beforeLoop random (gameState m)) (currentScoreRef m).

(** The loop touches the obstacle array and the theme-change score of the
    simulation state, nothing else. *)
Definition outsideLoop (g : GameState) :=
  (player g, ground g, gameSpeed g, gravity g, jumpPower g,
   obstacleSpawnRate g, lastObstacleX g, animationFrame g, animationSpeed g).

(** The obstacle object after the callback ran on it (it may no longer be
    in the array). *)
Definition visited (o : Obstacle) (m : Refs) : Obstacle :=
  fst (fst (scoreObstacle (moveObstacle (gameSpeed (gameState m)) o) m)).

(** Its passed flag went from false to true in the call. *)
Definition newlyPassed (o : Obstacle) (m : Refs) : bool :=
  negb (passed o) && passed (visited o m).

(** The calls of the callback in a loop: the obstacle passed to it, with the
    refs as they are at that moment. *)
Fixpoint visitsFrom (n k : nat) (m : Refs) : list (Obstacle * Refs) :=
  match n with
  | O => []
  | S n' =>
      match obstacles (gameState m) !! k with
      | Some o => (o, m) :: visitsFrom n' (S k) (fst (visitObstacle o k m))
      | None => visitsFrom n' (S k) m
      end
  end.

(** The calls of the callback in the frame of [w] with random value
    [random]. *)
Definition frameVisits (random : Q) (w : World) : list (Obstacle * Refs) :=
  if running (react w) then
    let m0 := loopStart random (refs w) in
    visitsFrom (length (obstacles (gameState m0))) 0 m0
  else [].

(** How many of these calls set the passed flag of their obstacle. *)
Definition newlyPassedIn (visits : list (Obstacle * Refs)) : nat :=
  length (List.filter (fun v => newlyPassed (fst v) (snd v)) visits).

(** The collision test of the callback calls [setGameOver(true)] or nothing. *)
Definition hitCalls (p : PlayerObject) (o : Obstacle) : list Call :=
  if checkCollision p o then [SetGameOver true] else [].

(** ** The calls of a frame *)

(** The values given to [setScore], in order. *)
Definition scoresSet (calls : list Call) : list Z :=
  omap (fun c => match c with SetScore n => Some n | _ => None end) calls.

(** The score goes from [c] to [c'] through the values [l], by tens. *)
Inductive climbs : Z -> list Z -> Z -> Prop :=
| climbs_nil (c : Z) : climbs c [] c
| climbs_cons (c : Z) (l : list Z) (c' : Z) :
    climbs (c + 10) l c' -> climbs c ((c + 10)%Z :: l) c'.

(** The number of theme toggles. *)
Definition isToggle (c : Call) : bool :=
  match c with ToggleDarkTheme => true | _ => false end.

Definition toggles (calls : list Call) : nat :=
  length (List.filter isToggle calls).

(** The calls an update makes: no other setter, no other argument. *)
Definition frameCall (c : Call) : Prop :=
  match c with
  | SetScore _ | ToggleDarkTheme | SetGameWon true | SetGameOver true => True
  | _ => False
  end.

(** Neither the high score nor the store is written. *)
Definition noHighScoreCall (c : Call) : Prop :=
  match c with
  | SetHighScore _ | SetItem _ => False
  | _ => True
  end.

(** In the calls of an update of a reachable state, nothing that raises the
    score or ends the game comes after the call that makes the game won. *)
Definition won_stops_frame : Prop :=
  forall (w : World) (random : Q) (before after : list Call),
    reachable w ->
    snd (updateGame (react w) random (refs w)) = before ++ SetGameWon true :: after ->
    Forall (fun c => match c with
                     | SetScore _ | SetGameOver _ => False
                     | _ => True
                     end) after.

(** ** Invariants *)

(** The last theme change and the score are in the same block of 120. *)
Definition themeInv (m : Refs) : Prop :=
  (lastThemeChangeScore (gameState m) / 120 = currentScoreRef m / 120)%Z.

(** The score state and the score ref agree, the score is a non-negative
    multiple of 10, and the last theme change is in the score's block. *)
Definition scoreInv (w : World) : Prop :=
  score (react w) = currentScoreRef (refs w) /\
  (0 <= currentScoreRef (refs w))%Z /\
  (10 | currentScoreRef (refs w))%Z /\
  themeInv (refs w).

(** The fields of the component state that no effect sets. *)
Definition lifecycle (r : React) :=
  (score r, gameOver r, gameStarted r, gameWon r, darkTheme r).

(** Everything in the simulation state but the leg animation of the
    renderer. *)
Definition simulation (g : GameState) :=
  (player g, obstacles g, ground g, gameSpeed g, gravity g, jumpPower g,
   obstacleSpawnRate g, lastObstacleX g, scoreCounter g, lastThemeChangeScore g).

(** The score state did not change in the last render and the high score
    is the number [h]. *)
Definition syncedAt (h : Z) (old : React) (w : World) : Prop :=
  score old = score (react w) /\ highScore (react w) = Int h.

(** The press restarts the game: a new run begins. *)
Definition resets (e : Event) (w : World) : bool :=
  match e with
  | Press => gameStarted (react w) && (gameOver (react w) || gameWon (react w))
  | Frame _ => false
  end.

(** ** Games and states *)

(** [n] frames with the same random value. *)
Definition frames (n : nat) (random : Q) : list Event := repeat (Frame random) n.

(** A started game whose player is two frames into a jump. *)
Definition airborneWorld : World :=
  run [Press; Press; Frame 1; Frame 1] (fst (mount None)).

(** A game played from the mount: it is started; the first obstacle can be
    spawned after 267 frames and is; the player jumps 245 frames later and
    lands behind it. *)
Definition playEvents : list Event :=
  Press :: frames 267 1 ++ [Frame 0] ++ frames 245 1 ++ [Press] ++ frames 66 1.

Definition playedWorld : World := run playEvents (fst (mount None)).

(** A running game with score 115 whose two obstacles are both passed in
    the next frame: the score goes to 135. *)
Definition startedReact : React :=
  mkReact 115 (Int 0) false true false false.

Definition twoPassing : Refs :=
  mkRefs
    (set_lastThemeChangeScore 0
       (set_obstacles
          [mkObstacle (mkGameObject 300 175 18 25) false;
           mkObstacle (mkGameObject 340 175 18 25) false]
          initialGameState))
    115.

(** A running game at 99990 points, stored high score 500, the player in
    the air above the obstacle that is passed in the next frame. *)
Definition overTheLast : World :=
  mkWorld
    (mkReact 99990 (Int 500) false true false false)
    (mkRefs
       (set_player (mkPlayer (mkGameObject PLAYER_X_POS 100 40 40) (-2) true)
          (set_lastThemeChangeScore 99960
             (set_gameSpeed 6
                (set_obstacles [mkObstacle (mkGameObject 385 175 18 25) false]
                   initialGameState))))
       99990)
    (Some "500"%string).

(** High score 500 from an earlier game, and a game with [points] points
    that ends in the next frame: the obstacle reaches the player. *)
Definition endsAt (points : Z) : World :=
  mkWorld
    (mkReact points (Int 500) false true false false)
    (mkRefs
       (set_lastThemeChangeScore points
          (set_obstacles [mkObstacle (mkGameObject 420 175 18 25) false]
             initialGameState))
       points)
    (Some "500"%string).

(** A game with 10 points that ends in the next frame while the high
    score is NaN. *)
Definition crashAtTen : World :=
  mkWorld
    (mkReact 10 NaN false true false false)
    (mkRefs
       (set_obstacles [mkObstacle (mkGameObject 420 175 18 25) false]
          initialGameState)
       10)
    (Some "abc"%string).

(** Two obstacles with right edges -12 and -7, both left of the screen
    already. *)
Definition twoOffScreen : Refs :=
  mkRefs
    (set_obstacles
       [mkObstacle (mkGameObject (-30) 175 18 25) true;
        mkObstacle (mkGameObject (-25) 175 18 25) true]
       initialGameState)
    20.

(** ** Further vocabulary *)

(** The number a string of decimal digits denotes, read after the digits
    of [acc]. *)
Fixpoint uvalue (acc : Z) (u : Decimal.uint) : Z :=
  match u with
  | Decimal.Nil => acc
  | Decimal.D0 u' => uvalue (10 * acc + 0) u'
  | Decimal.D1 u' => uvalue (10 * acc + 1) u'
  | Decimal.D2 u' => uvalue (10 * acc + 2) u'
  | Decimal.D3 u' => uvalue (10 * acc + 3) u'
  | Decimal.D4 u' => uvalue (10 * acc + 4) u'
  | Decimal.D5 u' => uvalue (10 * acc + 5) u'
  | Decimal.D6 u' => uvalue (10 * acc + 6) u'
  | Decimal.D7 u' => uvalue (10 * acc + 7) u'
  | Decimal.D8 u' => uvalue (10 * acc + 8) u'
  | Decimal.D9 u' => uvalue (10 * acc + 9) u'
  end%Z.

(** The high score a new session starts with when the stored item is
    [item]. *)
Definition loaded (item : option string) : JsNumber :=
  highScore (react (fst (mount item))).

(** The high score [b] is not below the high score [a]. *)
Definition notBelow (a b : JsNumber) : Prop :=
  match a, b with
  | Int h, Int h' => (h <= h')%Z
  | NaN, NaN => True
  | _, _ => False
  end.

(** What an event runs before the next render: the frame's update and
    drawing, or the input handler; the refs it leaves and the calls it
    makes. *)
Definition handle (e : Event) (w : World) : Refs * list Call :=
  match e with
  | Frame random =>
      let '(m, calls) := updateGame (react w) random (refs w) in
      (render (react w) m, calls)
  | Press => jump (react w) (refs w)
  end.

(** The obstacle of a call of the callback overlaps the player once it is
    moved. *)
Definition hits (v : Obstacle * Refs) : bool :=
  checkCollision (player (gameState (snd v))) (visited (fst v) (snd v)).

(** An obstacle moved left by [speed] and marked as passed once its right
    edge is left of the centre of the player [p]. *)
Definition advance (p : PlayerObject) (speed : Q) (o : Obstacle) : Obstacle :=
  let o1 := moveObstacle speed o in
  if passesNow p o1 then markPassed o1 else o1.

(** The difficulty is the one the curve gives for the score. *)
Definition difficultyInv (m : Refs) : Prop :=
  gameSpeed (gameState m) == newSpeed (currentScoreRef m) /\
  obstacleSpawnRate (gameState m) == newSpawnRate (currentScoreRef m).

(** The number of animation frames among the events [es]. *)
Definition frameCount (es : list Event) : nat :=
  length (List.filter (fun e => match e with Frame _ => true | Press => false end) es).

(** The frame of [w] with random value [random] generates an obstacle. *)
Definition spawns (random : Q) (w : World) : bool :=
  running (react w) &&
  (length (obstacles (gameState (refs w))) <?
   length (obstacles (beforeLoop random (gameState (refs w)))))%nat.

(** The velocity and the height of a player [k] frames into a jump from
    the ground: [-10 + 0.3 k] and [150 - 10 k + 0.15 k (k + 1)]. *)
Definition arcAt (k : Z) (p : PlayerObject) : Prop :=
  velocityY p == inject_Z (3 * k - 100) / 10 /\
  y p == inject_Z (3000 - 197 * k + 3 * k * k) / 20.

(** The player is where and as large as it was created, not below the
    ground, and on the arc of a jump while it jumps. *)
Definition playerInv (p : PlayerObject) : Prop :=
  x p = PLAYER_X_POS /\ width p = 40 /\ height p = 40 /\
  y p <= 150 /\
  (isJumping p = true -> exists k : Z, (0 <= k)%Z /\ arcAt k p).

(** An obstacle as it is generated, moved to the left. *)
Definition obstacleShape (o : Obstacle) : Prop :=
  y o = 175 /\ width o = 18 /\ height o = 25 /\ x o <= BASE_WIDTH.

(** The high score after a game that ended with [final] points. *)
Definition better (h : JsNumber) (final : Z) : JsNumber :=
  match h with
  | Int h' => Int (Z.max h' final)
  | NaN => NaN
  end.

(** The left edge of the obstacle of a call of the callback, once moved, is
    where it overlaps the player horizontally. *)
Definition inHitZone (v : Obstacle * Refs) : Prop :=
  362 < x (fst v) - gameSpeed (gameState (snd v)) < 420.

(** The high score is a number that is at least [n], or it is not a
    number. *)
Definition covers (h : JsNumber) (n : Z) : Prop :=
  match h with
  | Int h' => (n <= h')%Z
  | NaN => True
  end.

(** What the leg animation advances by in one drawn frame. *)
Definition legStep (g : GameState) : Q :=
  animationSpeed g * (gameSpeed g / 1.5).

(** An obstacle is marked as passed exactly if its right edge is left of
    x = 400, the centre of the player. *)
Definition passedInv (o : Obstacle) : Prop :=
  passed o = Num.ltb (x o + width o) 400.

(** ** The obstacle array in reachable states *)

(** The right edge of the obstacle is at the left boundary or beyond. *)
Definition onScreen (o : Obstacle) : Prop := 0 <= x o + width o.

(** Every obstacle of the list is at least [d] to the left of the ones
    after it. *)
Fixpoint gapped (d : Q) (l : list Obstacle) : Prop :=
  match l with
  | [] => True
  | a :: l' => Forall (fun b : Obstacle => x a + d <= x b) l' /\ gapped d l'
  end.

(** The first obstacle satisfies [P0], the others [P1]. *)
Definition tiered (P0 P1 : Obstacle -> Prop) (l : list Obstacle) : Prop :=
  match l with
  | [] => True
  | a :: l' => P0 a /\ Forall P1 l'
  end.

(** The obstacles are in the order of their x, at least 383 apart; the
    first one, which was not moved in the frame that removed the obstacle
    before it, may be 6 nearer to the others. *)
Definition spaced (l : list Obstacle) : Prop :=
  match l with
  | [] => True
  | a :: l' => Forall (fun b : Obstacle => x a + 377 <= x b) l' /\ gapped 383 l'
  end.

(** No obstacle is far to the right of [lastObstacleX]. *)
Definition trailing (g : GameState) : Prop :=
  tiered (fun o : Obstacle => x o <= lastObstacleX g + gameSpeed g + 4.5)
         (fun o : Obstacle => x o <= lastObstacleX g + gameSpeed g - 1.5)
         (obstacles g).

(** What holds of the obstacle array in every reachable state: the shapes,
    no obstacle left of the screen, the order and the gaps, the bound by
    [lastObstacleX], and the range of the speed. *)
Definition arrayInv (m : Refs) : Prop :=
  let g := gameState m in
  Forall obstacleShape (obstacles g) /\ Forall onScreen (obstacles g) /\
  spaced (obstacles g) /\ trailing g /\ 1.5 <= gameSpeed g <= 6.

(** The array the obstacle loop leaves when only its first obstacle can go
    off screen: without a removal every obstacle is advanced; with the
    first one removed the second one is not visited and the others are
    advanced. *)
Definition afterLoop (p : PlayerObject) (s : Q) (arr : list Obstacle)
  : list Obstacle :=
  match arr with
  | [] => []
  | o0 :: rest =>
      if offScreen (moveObstacle s o0)
      then match rest with
           | [] => []
           | o1 :: rest' => o1 :: map (advance p s) rest'
           end
      else map (advance p s) arr
  end.

(** The calls made in the call [v] of the callback (they do not depend on
    the index). *)
Definition callbackCalls (v : Obstacle * Refs) : list Call :=
  snd (visitObstacle (fst v) 0 (snd v)).

(** An obstacle that is, once moved by [s], right of the player or left of
    it, with its flag as its position has it. *)
Definition aside (p : PlayerObject) (s : Q) (o : Obstacle) : Prop :=
  obstacleShape o /\ passedInv o /\ (420 <= x o - s \/ x o - s <= 362).

(** ** A game played up to the last obstacle *)

(** A running game with [10 n] points, no obstacle and the player on the
    ground. *)
Definition idle (n : Z) (w : World) : Prop :=
  reachable w /\ running (react w) = true /\
  currentScoreRef (refs w) = (10 * n)%Z /\
  obstacles (gameState (refs w)) = [] /\
  isJumping (player (gameState (refs w))) = false.

(** A running game whose only obstacle is [o], the [n+1]-th of the game:
    the score is [10 n] before it is passed and [10 n + 10] after. *)
Definition facing (n : Z) (o : Obstacle) (w : World) : Prop :=
  reachable w /\ running (react w) = true /\
  obstacles (gameState (refs w)) = [o] /\
  currentScoreRef (refs w) = (10 * n + (if passed o then 10 else 0))%Z.

(** * Properties *)

(** ** Comparisons *)

Module NumFacts.

Lemma ltb_lt (a b : Q) : Num.ltb a b = true <-> a < b.
Proof.
  unfold Num.ltb. rewrite Qlt_alt. destruct (a ?= b); intuition congruence.
Qed.

Lemma ltb_ge (a b : Q) : Num.ltb a b = false <-> b <= a.
Proof.
  unfold Num.ltb. rewrite Qge_alt. destruct (a ?= b); intuition congruence.
Qed.

Lemma geb_ge (a b : Q) : Num.geb a b = true <-> b <= a.
Proof. apply Qle_bool_iff. Qed.

End NumFacts.


(** ** Collision test *)

Section Collision.

Variables a b : GameObject.






End Collision.

Lemma wholeNumber_Z (n : Z) (q : Q) :
  q == inject_Z n -> (Z.abs n <= 2 ^ 52)%Z -> wholeNumber q.
Proof. intros H1 H2. exists n. split; assumption. Qed.


Lemma exactRect_newObstacle : exactRect newObstacle.
Proof.
  repeat split;
    [apply (wholeNumber_Z 800) | apply (wholeNumber_Z 175)
    |apply (wholeNumber_Z 18) | apply (wholeNumber_Z 25)];
    vm_compute; first [reflexivity | discriminate].
Qed.




(** In binary64 arithmetic: the test agrees with the exact one on these
    rectangles; beyond 2^52 a sum can round back to its first term, and a
    rectangle at x = 2^53 of width 1 does not intersect itself. *)
Example checkCollision_binary64 :
  let player64 := Binary64.mkRect64 380 150 40 40 in
  let obstacle64 := Binary64.mkRect64 800 175 18 25 in
  let empty64 := Binary64.mkRect64 0 0 0 0 in
  let far64 := Binary64.mkRect64 9007199254740992 0 1 1 in
  Binary64.checkCollision64 player64 obstacle64 = checkCollision initialPlayer newObstacle /\
  Binary64.checkCollision64 player64 player64 = checkCollision initialPlayer initialPlayer /\
  Binary64.checkCollision64 empty64 empty64 = checkCollision emptyRect emptyRect /\
  Binary64.checkCollision64 far64 far64 = false.
Proof. vm_compute. repeat split. Qed.

(** ** Renders and effects: basic facts *)

Lemma applyCalls_app (c1 c2 : list Call) (r : React) :
  applyCalls (c1 ++ c2) r = applyCalls c2 (applyCalls c1 r).
Proof. apply fold_left_app. Qed.

Lemma storeCalls_app (c1 c2 : list Call) (it : option string) :
  storeCalls (c1 ++ c2) it = storeCalls c2 (storeCalls c1 it).
Proof. apply fold_left_app. Qed.

Lemma same_refl (n : JsNumber) : Num.same n n = true.
Proof. destruct n; simpl; [reflexivity | apply Z.eqb_refl]. Qed.

(** With no dependency changed, no effect runs. *)
Lemma runEffects_same (r : React) (m : Refs) : runEffects r r m = (m, []).
Proof.
  unfold runEffects.
  rewrite Bool.eqb_reflx, same_refl, Z.eqb_refl. reflexivity.
Qed.

(** A handler that calls no setter causes no render. *)
Lemma commit_nil (w : World) : commit [] (refs w) w = (w, []).
Proof.
  destruct w as [r m it]. unfold commit, enqueue, applyCalls, storeCalls.
  cbn [fold_left settle react refs storedItem].
  rewrite runEffects_same. reflexivity.
Qed.

(** Effects leave the simulation state alone: only the score ref is synced. *)
Lemma runEffects_gameState (old new : React) (m : Refs) :
  gameState (fst (runEffects old new m)) = gameState m.
Proof. unfold runEffects. simpl. destruct (negb (score old =? _)%Z); reflexivity. Qed.

Lemma settle_gameState (fuel : nat) (old : React) (w : World) :
  gameState (refs (fst (settle fuel old w))) = gameState (refs w).
Proof.
  revert old w. induction fuel as [|fuel IH]; intros old w; [reflexivity|].
  cbn [settle].
  pose proof (runEffects_gameState old (react w) (refs w)) as Hm.
  destruct (runEffects old (react w) (refs w)) as [m calls]. simpl in Hm.
  destruct calls as [|c calls']; [exact Hm|].
  specialize (IH (react w) (enqueue (c :: calls') m w)).
  destruct (settle fuel _ _) as [w' calls'']. simpl in *.
  rewrite IH. exact Hm.
Qed.

Lemma commit_gameState (calls : list Call) (m : Refs) (w : World) :
  gameState (refs (fst (commit calls m w))) = gameState m.
Proof.
  unfold commit.
  pose proof (settle_gameState 3 (react w) (enqueue calls m w)) as H.
  destruct (settle 3 _ _) as [w' calls']. exact H.
Qed.

(** ** Jump *)

Section Jump.

(** C10: while the game is running and the player is in the air, a jump
    command changes nothing at all: the refs, the component state and the
    store are the same afterwards, and no setter is called. *)
Theorem jump_airborne_unchanged (w : World) :
  gameStarted (react w) = true ->
  gameOver (react w) = false ->
  gameWon (react w) = false ->
  isJumping (player (gameState (refs w))) = true ->
  jump (react w) (refs w) = (refs w, []) /\ press w = (w, []).
Proof.
  intros Hs Ho Hw Hj.
  assert (E : jump (react w) (refs w) = (refs w, [])).
  { unfold jump. rewrite Hs, Ho, Hw, Hj. reflexivity. }
  split; [exact E|].
  unfold press. rewrite E. apply commit_nil.
Qed.

(** A press in the third frame of a jump. *)
Lemma jump_airborne_unchanged_witness :
  press airborneWorld = (airborneWorld, []).
Proof.
  apply (jump_airborne_unchanged airborneWorld); reflexivity.
Defined.

End Jump.

(** ** What the obstacle loop leaves alone *)

Lemma checkThemeChange_outside (n : Z) (g : GameState) :
  outsideLoop (fst (checkThemeChange n g)) = outsideLoop g /\
  obstacles (fst (checkThemeChange n g)) = obstacles g.
Proof. unfold checkThemeChange. destruct (_ <? _)%Z; split; reflexivity. Qed.

Lemma scoreObstacle_outside (o : Obstacle) (m : Refs) :
  outsideLoop (gameState (snd (fst (scoreObstacle o m)))) = outsideLoop (gameState m) /\
  obstacles (gameState (snd (fst (scoreObstacle o m)))) = obstacles (gameState m).
Proof.
  unfold scoreObstacle. destruct (passesNow _ _); [|split; reflexivity].
  pose proof (checkThemeChange_outside (currentScoreRef m + 10) (gameState m)) as H.
  destruct (checkThemeChange _ _) as [g calls]. exact H.
Qed.

Lemma visitObstacle_outside (o : Obstacle) (k : nat) (m : Refs) :
  outsideLoop (gameState (fst (visitObstacle o k m))) = outsideLoop (gameState m).
Proof.
  unfold visitObstacle.
  pose proof (scoreObstacle_outside (moveObstacle (gameSpeed (gameState m)) o) m) as [H _].
  destruct (scoreObstacle _ m) as [[o2 m2] calls]. exact H.
Qed.

Lemma forEachFrom_outside (n k : nat) (m : Refs) :
  outsideLoop (gameState (fst (forEachFrom n k m))) = outsideLoop (gameState m).
Proof.
  revert k m. induction n as [|n IH]; intros k m; [reflexivity|].
  cbn [forEachFrom].
  destruct (obstacles (gameState m) !! k) as [o|]; [|apply IH].
  pose proof (visitObstacle_outside o k m) as Hv.
  destruct (visitObstacle o k m) as [m1 calls1].
  specialize (IH (S k) m1).
  destruct (forEachFrom n (S k) m1) as [m2 calls2].
  simpl in *. congruence.
Qed.

(** The player after a frame: one physics step when the game runs, untouched
    otherwise; gravity and jump power never change. *)
Lemma gameLoop_player (random : Q) (w : World) :
  let g := gameState (refs w) in
  let g' := gameState (refs (step (Frame random) w)) in
  player g' = (if running (react w) then updatePlayer (gravity g) (player g)
               else player g) /\
  gravity g' = gravity g /\ jumpPower g' = jumpPower g.
Proof.
  cbn zeta. unfold step, gameLoop.
  destruct (updateGame (react w) random (refs w)) as [m calls] eqn:E.
  rewrite commit_gameState.
  assert (H : player (gameState m) =
              (if running (react w)
               then updatePlayer (gravity (gameState (refs w))) (player (gameState (refs w)))
               else player (gameState (refs w))) /\
              gravity (gameState m) = gravity (gameState (refs w)) /\
              jumpPower (gameState m) = jumpPower (gameState (refs w))).
  { unfold updateGame, running in *.
    destruct (negb (gameStarted (react w)) || gameOver (react w) || gameWon (react w)).
    - inversion E; subst. auto.
    - unfold forEachObstacle in E.
      set (m0 := mkRefs _ _) in E.
      pose proof (forEachFrom_outside (length (obstacles (gameState m0))) 0 m0) as Ho.
      destruct (forEachFrom _ 0 m0) as [m1 calls1]. inversion E; subst m calls.
      unfold outsideLoop in Ho. simpl in Ho. inversion Ho as [[Hp Hgr Hsp Hg Hj Hr Hl Ha Hb]].
      unfold updateDifficulty. simpl. rewrite Hp, Hg, Hj.
      subst m0. unfold beforeLoop, spawnObstacle, moveGround. simpl.
      destruct (_ && _); simpl; auto. }
  unfold render. destruct (gameStarted (react w)); simpl; exact H.
Qed.

(** ** Jump and landing *)

Section JumpArc.

Lemma updatePlayer_grounded (gr : Q) (p : PlayerObject) :
  (isJumping p = false -> y p = 150 /\ velocityY p = 0) ->
  isJumping (updatePlayer gr p) = false ->
  y (updatePlayer gr p) = 150 /\ velocityY (updatePlayer gr p) = 0.
Proof.
  unfold updatePlayer. destruct (isJumping p) eqn:Hj; [|auto].
  destruct (Num.geb _ 150); simpl; [auto | discriminate].
Qed.

Lemma physicsInv_reachable (w : World) :
  reachable w -> physicsInv (gameState (refs w)).
Proof.
  induction 1 as [item | e w Hr IH].
  - unfold mount. rewrite commit_gameState. repeat split.
  - destruct IH as (Hg & Hj & Hy). destruct e as [random|].
    + pose proof (gameLoop_player random w) as (Hp & Hg' & Hj').
      cbn zeta in *. unfold physicsInv. rewrite Hp, Hg', Hj'.
      split; [exact Hg|]. split; [exact Hj|].
      destruct (running (react w)); [|exact Hy].
      apply updatePlayer_grounded, Hy.
    + unfold step, press.
      destruct (jump (react w) (refs w)) as [m calls] eqn:E.
      rewrite commit_gameState. unfold jump, resetGame in E.
      destruct (negb (gameStarted (react w))).
      { inversion E; subst. split; [exact Hg|]. split; [exact Hj|exact Hy]. }
      destruct (gameOver (react w) || gameWon (react w)).
      { inversion E; subst. repeat split. }
      destruct (negb (isJumping (player (gameState (refs w))))).
      { inversion E; subst. simpl.
        split; [exact Hg|]. split; [exact Hj|]. simpl. discriminate. }
      inversion E; subst. split; [exact Hg|]. split; [exact Hj|exact Hy].
Qed.

Lemma frames_player (randoms : list Q) (w : World) :
  alive randoms w ->
  let g := gameState (refs w) in
  player (gameState (refs (run (map Frame randoms) w))) =
  Nat.iter (length randoms) (updatePlayer (gravity g)) (player g).
Proof.
  cbn zeta. revert w. induction randoms as [|random rest IH]; intros w Ha.
  - reflexivity.
  - destruct Ha as [Hrun Ha]. cbn [map run fold_left length].
    change (fold_left _ (map Frame rest) ?w') with (run (map Frame rest) w').
    rewrite (IH _ Ha).
    destruct (gameLoop_player random w) as (Hp & Hg & _). cbn zeta in *.
    rewrite Hp, Hg, Hrun. symmetry. apply Nat.iter_succ_r.
Qed.

Lemma arc (px pw ph : Q) :
  Nat.iter jumpFrames (updatePlayer 0.3) (mkPlayer (mkGameObject px 150 pw ph) (-10) true)
  = mkPlayer (mkGameObject px 150 pw ph) 0 false.
Proof. vm_compute. reflexivity. Qed.

(** One frame earlier the player is still in the air. *)
Lemma arc_not_before (px pw ph : Q) :
  isJumping (Nat.iter (jumpFrames - 1) (updatePlayer 0.3)
               (mkPlayer (mkGameObject px 150 pw ph) (-10) true)) = true.
Proof. vm_compute. reflexivity. Qed.

(** In binary64 arithmetic the arc is the same: in the air after 65 frames,
    on the ground after 66. *)
Example arc_binary64 :
  let start := Binary64.mkPlayer64 150%float (-10)%float true in
  Binary64.isJumping64
    (Nat.iter (jumpFrames - 1) (Binary64.updatePlayer64 Binary64.gravity64) start)
  = true /\
  Nat.iter jumpFrames (Binary64.updatePlayer64 Binary64.gravity64) start
  = Binary64.mkPlayer64 150%float 0%float false.
Proof. vm_compute. split; reflexivity. Qed.

End JumpArc.

(** ** Difficulty curve *)

Section Difficulty.

Lemma newSpeed_mono (s s' : Z) : (s <= s')%Z -> newSpeed s <= newSpeed s'.
Proof.
  intros H. unfold newSpeed. cbn zeta. apply Q.min_le_compat_r.
  rewrite Zle_Qle in H. lra.
Qed.

Lemma newSpawnRate_mono (s s' : Z) : (s <= s')%Z -> newSpawnRate s <= newSpawnRate s'.
Proof.
  intros H. unfold newSpawnRate. cbn zeta. apply Q.min_le_compat_r.
  rewrite Zle_Qle in H. lra.
Qed.

(** What a running update stores: the curve at the score after the loop. *)
Lemma updateGame_difficulty (props : React) (random : Q) (m : Refs) :
  running props = true ->
  let m' := fst (updateGame props random m) in
  gameSpeed (gameState m') = newSpeed (currentScoreRef m') /\
  obstacleSpawnRate (gameState m') = newSpawnRate (currentScoreRef m').
Proof.
  unfold running, updateGame. intros H. apply negb_true_iff in H. rewrite H.
  destruct (forEachObstacle _) as [m1 calls]. split; reflexivity.
Qed.

(** C7: in every running update the stored game speed is
    min(1.5 + S * 0.0008, 6.0) and the stored spawn rate is
    min(0.006 + S * 0.000008, 0.015), S the score after the obstacle loop;
    for scores 0 <= S <= S' both functions are non-decreasing, they are
    bounded by 6.0 and 0.015, and at S = 0 they are 1.5 and 0.006. *)
Theorem difficulty_curve (s s' : Z) :
  (0 <= s)%Z -> (s <= s')%Z ->
  (forall props random m, running props = true ->
     let m' := fst (updateGame props random m) in
     currentScoreRef m' = s ->
     gameSpeed (gameState m') == Qmin (1.5 + inject_Z s * 0.0008) 6.0 /\
     obstacleSpawnRate (gameState m') == Qmin (0.006 + inject_Z s * 0.000008) 0.015) /\
  newSpeed s == Qmin (1.5 + inject_Z s * 0.0008) 6.0 /\
  newSpawnRate s == Qmin (0.006 + inject_Z s * 0.000008) 0.015 /\
  newSpeed s <= newSpeed s' /\ newSpawnRate s <= newSpawnRate s' /\
  newSpeed s <= 6.0 /\ newSpawnRate s <= 0.015 /\
  newSpeed 0 == 1.5 /\ newSpawnRate 0 == 0.006.
Proof.
  intros _ Hle. split.
  { intros props random m Hrun. cbn zeta. intros Hs.
    destruct (updateGame_difficulty props random m Hrun) as [H1 H2].
    cbn zeta in *. rewrite H1, H2, Hs. split; reflexivity. }
  split; [reflexivity|]. split; [reflexivity|].
  split; [apply newSpeed_mono, Hle|]. split; [apply newSpawnRate_mono, Hle|].
  split; [apply Q.le_min_r|]. split; [apply Q.le_min_r|].
  split; reflexivity.
Qed.

(** In binary64 arithmetic, on the scores that occur (the multiples of 10
    up to 100000): the curve starts at the base values, does not decrease
    and stays below its caps. *)
Example difficulty_binary64 :
  Binary64.newSpeed64 0%float = 1.5%float /\
  Binary64.newSpawnRate64 0%float = Binary64.baseSpawnRate64 /\
  Binary64.curveRises (100 * 100 + 1) 0%float = true.
Proof. vm_compute. repeat split. Qed.

(** Scores 120 and 5630 (past the point where the speed saturates), and the
    first frame of a started game. *)
Lemma difficulty_curve_witness :
  newSpeed 120 <= newSpeed 5630 /\ newSpeed 120 <= 6.0 /\
  let w := step Press (fst (mount None)) in
  gameSpeed (gameState (fst (updateGame (react w) 1 (refs w))))
  == Qmin (1.5 + inject_Z 0 * 0.0008) 6.0.
Proof.
  destruct (difficulty_curve 120 5630) as (_ & _ & _ & Hm & _ & Hb & _);
    [lia | lia |].
  destruct (difficulty_curve 0 0) as (Hu & _); [lia | lia |].
  split; [exact Hm|]. split; [exact Hb|].
  cbn zeta. apply Hu; reflexivity.
Defined.

End Difficulty.

(** ** The obstacle loop *)

Section Loop.

(** Induction over the calls of the callback, in the order [forEach] makes
    them. *)
Lemma forEachFrom_ind (P : Refs -> list Call -> Refs -> Prop) :
  (forall m, P m [] m) ->
  (forall o k m m2 calls2,
      obstacles (gameState m) !! k = Some o ->
      P (fst (visitObstacle o k m)) calls2 m2 ->
      P m (snd (visitObstacle o k m) ++ calls2) m2) ->
  forall n k m, P m (snd (forEachFrom n k m)) (fst (forEachFrom n k m)).
Proof.
  intros Hnil Hcons. induction n as [|n IH]; intros k m; [apply Hnil|].
  cbn [forEachFrom].
  destruct (obstacles (gameState m) !! k) as [o|] eqn:Hk; [|apply IH].
  specialize (Hcons o k m). specialize (IH (S k)).
  destruct (visitObstacle o k m) as [m1 calls1].
  specialize (IH m1). destruct (forEachFrom n (S k) m1) as [m2 calls2].
  simpl in *. apply Hcons; assumption.
Qed.

Lemma scoresSet_app (c1 c2 : list Call) :
  scoresSet (c1 ++ c2) = scoresSet c1 ++ scoresSet c2.
Proof. apply omap_app. Qed.

Lemma toggles_app (c1 c2 : list Call) :
  toggles (c1 ++ c2) = (toggles c1 + toggles c2)%nat.
Proof. unfold toggles. rewrite List.filter_app. apply length_app. Qed.

(** The pass/score block, on the moved obstacle [o1]. *)
Lemma scoreObstacle_facts (o1 : Obstacle) (m : Refs) :
  let o2 := fst (fst (scoreObstacle o1 m)) in
  let m2 := snd (fst (scoreObstacle o1 m)) in
  let calls := snd (scoreObstacle o1 m) in
  let cur := currentScoreRef m in
  let gained := negb (passed o1) && passed o2 in
  (currentScoreRef m2 = if gained then cur + 10 else cur)%Z /\
  scoresSet calls = (if gained then [cur + 10] else [])%Z /\
  (passed o1 = true -> passed o2 = true) /\
  (themeInv m ->
     themeInv m2 /\
     Z.of_nat (toggles calls) = (currentScoreRef m2 / 120 - cur / 120)%Z) /\
  Forall frameCall calls /\
  (gained = true -> (MAX_SCORE <= currentScoreRef m2)%Z ->
     In (SetGameWon true) calls).
Proof.
  cbn zeta. unfold scoreObstacle, passesNow, themeInv.
  destruct (passed o1) eqn:Hp; cbn [negb andb].
  { cbn [fst snd]. rewrite Hp. cbn.
    repeat split; try tauto; try discriminate; try lia. constructor. }
  destruct (Num.ltb _ _).
  2:{ cbn [fst snd]. rewrite Hp. cbn.
      repeat split; try tauto; try discriminate; try lia. constructor. }
  unfold checkThemeChange. cbn zeta.
  destruct (_ <? _)%Z eqn:Hq;
    [apply Z.ltb_lt in Hq | apply Z.ltb_ge in Hq];
    (destruct (MAX_SCORE <=? _)%Z eqn:Hmax;
     [apply Z.leb_le in Hmax | apply Z.leb_gt in Hmax]);
    cbn [fst snd gameState currentScoreRef markPassed passed app negb andb
         set_lastThemeChangeScore lastThemeChangeScore];
    (split; [reflexivity|]); (split; [reflexivity|]);
    (split; [reflexivity|]);
    (split; [intros Hinv; split; [try reflexivity|];
             cbn; Z.div_mod_to_equations; lia|]);
    (split; [repeat constructor|]);
    intros _ Hm; try lia; cbn; tauto.
Qed.

Lemma hitCalls_facts (p : PlayerObject) (o : Obstacle) :
  scoresSet (hitCalls p o) = [] /\ toggles (hitCalls p o) = 0%nat /\
  Forall frameCall (hitCalls p o).
Proof.
  unfold hitCalls. destruct (checkCollision p o); cbn; repeat split;
    repeat constructor.
Qed.

(** One call of the callback. *)
Lemma visitObstacle_facts (o : Obstacle) (k : nat) (m : Refs) :
  let m' := fst (visitObstacle o k m) in
  let calls := snd (visitObstacle o k m) in
  let cur := currentScoreRef m in
  (currentScoreRef m' = if newlyPassed o m then cur + 10 else cur)%Z /\
  scoresSet calls = (if newlyPassed o m then [cur + 10] else [])%Z /\
  (passed o = true -> passed (visited o m) = true) /\
  (themeInv m ->
     themeInv m' /\
     Z.of_nat (toggles calls) = (currentScoreRef m' / 120 - cur / 120)%Z) /\
  Forall frameCall calls /\
  (newlyPassed o m = true -> (MAX_SCORE <= currentScoreRef m')%Z ->
     In (SetGameWon true) calls).
Proof.
  cbn zeta. unfold newlyPassed, visited, visitObstacle.
  pose proof (scoreObstacle_facts (moveObstacle (gameSpeed (gameState m)) o) m)
    as (Hc & Hs & Hp & Ht & Hf & Hw).
  cbn zeta in *.
  change (passed (moveObstacle (gameSpeed (gameState m)) o)) with (passed o) in *.
  destruct (scoreObstacle _ m) as [[o2 m2] sc].
  cbn [fst snd gameState currentScoreRef] in *.
  fold (hitCalls (player (gameState m2)) o2).
  destruct (hitCalls_facts (player (gameState m2)) o2) as (Hhs & Hht & Hhf).
  rewrite scoresSet_app, toggles_app, Hhs, Hht, app_nil_r, Nat.add_0_r.
  split; [exact Hc|]. split; [exact Hs|]. split; [exact Hp|].
  split; [exact Ht|].
  split; [apply Forall_app; split; assumption|].
  intros Hg Hm. apply in_or_app. left. auto.
Qed.

(** *** The whole loop *)

Lemma climbs_length (c c' : Z) (l : list Z) :
  climbs c l c' -> (c' = c + 10 * Z.of_nat (length l))%Z.
Proof. induction 1; cbn [length]; lia. Qed.

Lemma forEachFrom_climbs (n k : nat) (m : Refs) :
  climbs (currentScoreRef m) (scoresSet (snd (forEachFrom n k m)))
    (currentScoreRef (fst (forEachFrom n k m))).
Proof.
  apply (forEachFrom_ind (fun m calls m' =>
    climbs (currentScoreRef m) (scoresSet calls) (currentScoreRef m'))).
  - intros m0. constructor.
  - intros o k0 m0 m2 calls2 _ IH.
    destruct (visitObstacle_facts o k0 m0) as (Hc & Hs & _). cbn zeta in *.
    rewrite scoresSet_app, Hs. rewrite Hc in IH.
    destruct (newlyPassed o m0); [constructor|]; exact IH.
Qed.

Lemma forEachFrom_theme (n k : nat) (m : Refs) :
  themeInv m ->
  themeInv (fst (forEachFrom n k m)) /\
  Z.of_nat (toggles (snd (forEachFrom n k m))) =
    (currentScoreRef (fst (forEachFrom n k m)) / 120 - currentScoreRef m / 120)%Z.
Proof.
  apply (forEachFrom_ind (fun m calls m' =>
    themeInv m -> themeInv m' /\
    Z.of_nat (toggles calls) = (currentScoreRef m' / 120 - currentScoreRef m / 120)%Z)).
  - intros m0 H. split; [exact H|]. cbn. lia.
  - intros o k0 m0 m2 calls2 _ IH Hinv.
    destruct (visitObstacle_facts o k0 m0) as (_ & _ & _ & Ht & _).
    cbn zeta in *. destruct (Ht Hinv) as [Hinv1 Hn1].
    destruct (IH Hinv1) as [Hinv2 Hn2]. split; [exact Hinv2|].
    rewrite toggles_app. lia.
Qed.

Lemma forEachFrom_calls (n k : nat) (m : Refs) :
  Forall frameCall (snd (forEachFrom n k m)).
Proof.
  apply (forEachFrom_ind (fun _ calls _ => Forall frameCall calls)).
  - constructor.
  - intros o k0 m0 m2 calls2 _ IH. apply Forall_app. split; [|exact IH].
    apply (visitObstacle_facts o k0 m0).
Qed.

(** A score that moved in the loop and ended at [MAX_SCORE] or above:
    [setGameWon(true)] was called. *)
Lemma forEachFrom_won (n k : nat) (m : Refs) :
  currentScoreRef (fst (forEachFrom n k m)) <> currentScoreRef m ->
  (MAX_SCORE <= currentScoreRef (fst (forEachFrom n k m)))%Z ->
  In (SetGameWon true) (snd (forEachFrom n k m)).
Proof.
  apply (forEachFrom_ind (fun m calls m' =>
    currentScoreRef m' <> currentScoreRef m ->
    (MAX_SCORE <= currentScoreRef m')%Z -> In (SetGameWon true) calls)).
  - intros m0 H. congruence.
  - intros o k0 m0 m2 calls2 _ IH Hne Hmax. apply in_or_app.
    destruct (Z.eq_dec (currentScoreRef m2)
                (currentScoreRef (fst (visitObstacle o k0 m0)))) as [E|E].
    + left. destruct (visitObstacle_facts o k0 m0) as (Hc & _ & _ & _ & _ & Hw).
      cbn zeta in *. rewrite E in Hne, Hmax.
      destruct (newlyPassed o m0); [auto | congruence].
    + right. auto.
Qed.

(** *** Which obstacles the loop calls the callback on *)

(** One [setScore] call for each obstacle whose flag went from false to
    true. *)
Lemma forEachFrom_increments (n k : nat) (m : Refs) :
  length (scoresSet (snd (forEachFrom n k m))) = newlyPassedIn (visitsFrom n k m).
Proof.
  revert k m. induction n as [|n IH]; intros k m; [reflexivity|].
  cbn [forEachFrom visitsFrom].
  destruct (obstacles (gameState m) !! k) as [o|]; [|apply IH].
  destruct (visitObstacle_facts o k m) as (_ & Hs & _). cbn zeta in Hs.
  specialize (IH (S k) (fst (visitObstacle o k m))).
  destruct (visitObstacle o k m) as [m1 calls1]. cbn [fst snd] in *.
  destruct (forEachFrom n (S k) m1) as [m2 calls2].
  cbn [fst snd] in *. rewrite scoresSet_app, length_app, Hs, IH.
  unfold newlyPassedIn. cbn [List.filter fst snd].
  destruct (newlyPassed o m); reflexivity.
Qed.

(** The array after one call, past the index of the call. *)
Lemma drop_after_visit (o : Obstacle) (k : nat) (m : Refs) :
  obstacles (gameState m) !! k = Some o ->
  drop (S k) (obstacles (gameState (fst (visitObstacle o k m))))
    `sublist_of` drop (S k) (obstacles (gameState m)).
Proof.
  intros Hk. unfold visitObstacle.
  pose proof (scoreObstacle_outside (moveObstacle (gameSpeed (gameState m)) o) m)
    as [_ Ho].
  destruct (scoreObstacle _ m) as [[o2 m2] sc]. cbn [fst snd] in *.
  cbn [gameState obstacles set_obstacles]. rewrite Ho.
  set (arr := obstacles (gameState m)) in *.
  assert (Hlen : (k < length arr)%nat) by (eapply lookup_lt_Some; eassumption).
  destruct (offScreen o2).
  - rewrite delete_take_drop, drop_app_ge;
      rewrite length_take, length_insert; [|lia].
    replace (S k - k `min` length arr)%nat with 1%nat by lia.
    rewrite drop_drop, drop_insert_lt by lia.
    replace (S k + 1)%nat with (S (S k)) by lia.
    destruct (drop (S k) arr) as [|b rest] eqn:E.
    + rewrite <- (Nat.add_1_r (S k)), <- drop_drop, E. constructor.
    + rewrite <- (Nat.add_1_r (S k)), <- drop_drop, E. cbn.
      rewrite drop_0. apply sublist_cons. reflexivity.
  - rewrite drop_insert_lt by lia. reflexivity.
Qed.

(** The callback runs at most once on each obstacle of the array: the
    obstacles it is called on are, in order, among those from index [k]. *)
Lemma visitsFrom_sublist (n k : nat) (m : Refs) :
  (visitsFrom n k m).*1 `sublist_of` drop k (obstacles (gameState m)).
Proof.
  revert k m. induction n as [|n IH]; intros k m; [apply sublist_nil_l|].
  cbn [visitsFrom].
  destruct (obstacles (gameState m) !! k) as [o|] eqn:Hk.
  - rewrite (drop_S _ _ _ Hk). cbn [fmap list_fmap fst]. apply sublist_skip.
    etrans; [apply IH | apply drop_after_visit, Hk].
  - etrans; [apply IH|].
    rewrite (drop_ge _ (S k)), (drop_ge _ k); [reflexivity| |];
      apply lookup_ge_None in Hk; lia.
Qed.

(** *** The update as a whole *)

Lemma updateGame_running (props : React) (random : Q) (m : Refs) :
  running props = true ->
  updateGame props random m =
  (updateDifficulty (fst (forEachObstacle (loopStart random m))),
   snd (forEachObstacle (loopStart random m))).
Proof.
  unfold running, updateGame. intros H. apply negb_true_iff in H. rewrite H.
  fold (loopStart random m). destruct (forEachObstacle _); reflexivity.
Qed.

Lemma updateGame_stopped (props : React) (random : Q) (m : Refs) :
  running props = false -> updateGame props random m = (m, []).
Proof.
  unfold running, updateGame. intros H. apply negb_false_iff in H.
  rewrite H. reflexivity.
Qed.

Lemma beforeLoop_theme (random : Q) (g : GameState) :
  lastThemeChangeScore (beforeLoop random g) = lastThemeChangeScore g.
Proof.
  unfold beforeLoop, spawnObstacle, moveGround. cbn zeta.
  destruct (_ && _); reflexivity.
Qed.

Lemma updateGame_facts (props : React) (random : Q) (m : Refs) :
  let m' := fst (updateGame props random m) in
  let calls := snd (updateGame props random m) in
  climbs (currentScoreRef m) (scoresSet calls) (currentScoreRef m') /\
  Forall frameCall calls /\
  (themeInv m ->
     themeInv m' /\
     Z.of_nat (toggles calls) =
       (currentScoreRef m' / 120 - currentScoreRef m / 120)%Z) /\
  (currentScoreRef m' <> currentScoreRef m ->
     (MAX_SCORE <= currentScoreRef m')%Z -> In (SetGameWon true) calls).
Proof.
  cbn zeta. destruct (running props) eqn:Hrun.
  - rewrite (updateGame_running _ _ _ Hrun). cbn [fst snd].
    unfold forEachObstacle.
    set (n := length _). set (m0 := loopStart random m).
    change (currentScoreRef (updateDifficulty ?a)) with (currentScoreRef a).
    change (currentScoreRef m) with (currentScoreRef m0).
    split; [apply forEachFrom_climbs|].
    split; [apply forEachFrom_calls|].
    split; [|apply forEachFrom_won].
    intros Hinv.
    assert (Hinv0 : themeInv m0).
    { unfold themeInv, m0, loopStart. cbn [gameState currentScoreRef].
      rewrite beforeLoop_theme. exact Hinv. }
    apply (forEachFrom_theme n 0 m0 Hinv0).
  - rewrite (updateGame_stopped _ _ _ Hrun). cbn [fst snd].
    split; [constructor|]. split; [constructor|].
    split; [|congruence]. intros H. split; [exact H|]. cbn. lia.
Qed.

End Loop.

(** ** From the calls of a frame to the next render *)

Section Renders.

Lemma applyCalls_cons (c : Call) (calls : list Call) (r : React) :
  applyCalls (c :: calls) r = applyCalls calls (applyCall c r).
Proof. reflexivity. Qed.

(** The state after the calls of an update. *)
Lemma applyCalls_frame (calls : list Call) :
  Forall frameCall calls -> forall (r : React) (item : option string),
  let r' := applyCalls calls r in
  highScore r' = highScore r /\ gameStarted r' = gameStarted r /\
  (gameWon r = true \/ In (SetGameWon true) calls -> gameWon r' = true) /\
  (gameOver r = true \/ In (SetGameOver true) calls -> gameOver r' = true) /\
  (~ In (SetGameWon true) calls -> gameWon r' = gameWon r) /\
  (~ In (SetGameOver true) calls -> gameOver r' = gameOver r) /\
  darkTheme r' = Nat.iter (toggles calls) negb (darkTheme r) /\
  storeCalls calls item = item.
Proof.
  induction 1 as [|c calls Hc _ IH]; intros r item; cbn zeta.
  { cbn. tauto. }
  rewrite applyCalls_cons.
  destruct (IH (applyCall c r) item) as (Hh & Hs & Hw & Ho & Hw' & Ho' & Hd & Hst).
  cbn zeta in *.
  destruct c as [n|n|[]|b|[]|b| |v]; try contradiction; cbn [applyCall] in *;
    cbn [highScore gameStarted gameWon gameOver darkTheme] in *.
  - (* setScore *)
    repeat split; auto.
    + intros [?|[?|?]]; [auto | discriminate | auto].
    + intros [?|[?|?]]; [auto | discriminate | auto].
    + intros Hn. apply Hw'. intros ?. apply Hn. right. assumption.
    + intros Hn. apply Ho'. intros ?. apply Hn. right. assumption.
  - (* setGameOver(true) *)
    repeat split; auto.
    + intros [?|[?|?]]; [auto | discriminate | auto].
    + intros Hn. apply Hw'. intros ?. apply Hn. right. assumption.
    + intros Hn. exfalso. apply Hn. left. reflexivity.
  - (* setGameWon(true) *)
    repeat split; auto.
    + intros [?|[?|?]]; [auto | discriminate | auto].
    + intros Hn. exfalso. apply Hn. left. reflexivity.
    + intros Hn. apply Ho'. intros ?. apply Hn. right. assumption.
  - (* toggle *)
    repeat split; auto.
    + intros [?|[?|?]]; [auto | discriminate | auto].
    + intros [?|[?|?]]; [auto | discriminate | auto].
    + intros Hn. apply Hw'. intros ?. apply Hn. right. assumption.
    + intros Hn. apply Ho'. intros ?. apply Hn. right. assumption.
    + rewrite Hd. unfold toggles. cbn [List.filter isToggle length].
      rewrite Nat.iter_succ_r. reflexivity.
Qed.

Lemma applyCalls_score (calls : list Call) (c c' : Z) (r : React) :
  climbs c (scoresSet calls) c' -> score r = c -> score (applyCalls calls r) = c'.
Proof.
  revert c r. induction calls as [|call calls IH]; intros c r Hcl Hr.
  - inversion Hcl; subst. reflexivity.
  - rewrite applyCalls_cons.
    destruct call; cbn [scoresSet omap] in Hcl;
      try (apply (IH c); [exact Hcl | exact Hr]).
    inversion Hcl; subst. apply (IH (score r + 10)%Z); [assumption | reflexivity].
Qed.

Lemma highScoreEffect_lifecycle (props r : React) (m : Refs) :
  lifecycle (applyCalls (highScoreEffect props m) r) = lifecycle r.
Proof. unfold highScoreEffect. destruct (_ && _); reflexivity. Qed.

Lemma runEffects_lifecycle (old new r : React) (m : Refs) :
  lifecycle (applyCalls (snd (runEffects old new m)) r) = lifecycle r.
Proof.
  unfold runEffects. cbn [snd].
  destruct (_ || _); [apply highScoreEffect_lifecycle | reflexivity].
Qed.

Lemma runEffects_score (old new : React) (m : Refs) :
  score new = currentScoreRef m ->
  currentScoreRef (fst (runEffects old new m)) = currentScoreRef m.
Proof.
  intros H. unfold runEffects. cbn [fst].
  destruct (negb _); [exact H | reflexivity].
Qed.

Lemma settle_lifecycle (fuel : nat) (old : React) (w : World) :
  let w' := fst (settle fuel old w) in
  lifecycle (react w') = lifecycle (react w) /\
  (score (react w) = currentScoreRef (refs w) ->
   currentScoreRef (refs w') = currentScoreRef (refs w)).
Proof.
  revert old w. induction fuel as [|fuel IH]; intros old w; cbn zeta.
  { split; reflexivity. }
  cbn [settle].
  pose proof (runEffects_lifecycle old (react w) (react w) (refs w)) as Hl.
  pose proof (runEffects_score old (react w) (refs w)) as Hs.
  destruct (runEffects old (react w) (refs w)) as [m calls].
  cbn [fst snd] in *.
  destruct calls as [|c calls']; [split; [reflexivity | exact Hs]|].
  specialize (IH (react w) (enqueue (c :: calls') m w)). cbn zeta in IH.
  destruct (settle fuel _ _) as [w' calls'']. cbn [fst] in *.
  destruct IH as [IH1 IH2]. cbn [enqueue react refs] in *.
  split; [congruence|].
  intros E. rewrite IH2; [auto|].
  rewrite (Hs E), <- E. unfold lifecycle in Hl. congruence.
Qed.

(** The render after a handler or frame that made the calls [calls] and
    left the refs as [m]. *)
Lemma commit_facts (calls : list Call) (m : Refs) (w : World) :
  let r1 := applyCalls calls (react w) in
  let w' := fst (commit calls m w) in
  lifecycle (react w') = lifecycle r1 /\
  gameState (refs w') = gameState m /\
  (score r1 = currentScoreRef m -> currentScoreRef (refs w') = currentScoreRef m).
Proof.
  cbn zeta.
  pose proof (commit_gameState calls m w) as Hg. unfold commit in *.
  pose proof (settle_lifecycle 3 (react w) (enqueue calls m w)) as [Hl Hs].
  destruct (settle 3 _ _) as [w' calls']. cbn [fst enqueue react refs] in *.
  auto.
Qed.

End Renders.

(** ** Invariants of the reachable states *)

Section Reachable.

(** One frame, from the update to the next render. *)
Lemma frame_step (random : Q) (w : World) :
  score (react w) = currentScoreRef (refs w) ->
  let m' := fst (updateGame (react w) random (refs w)) in
  let calls := snd (updateGame (react w) random (refs w)) in
  let w' := step (Frame random) w in
  currentScoreRef (refs w') = currentScoreRef m' /\
  score (react w') = currentScoreRef m' /\
  lifecycle (react w') = lifecycle (applyCalls calls (react w)) /\
  gameState (refs w') = gameState (render (react w) m').
Proof.
  intros Hs. cbn zeta. unfold step, gameLoop.
  destruct (updateGame_facts (react w) random (refs w)) as (Hcl & _).
  cbn zeta in Hcl.
  destruct (updateGame (react w) random (refs w)) as [m' calls].
  cbn [fst snd] in *.
  destruct (commit_facts calls (render (react w) m') w) as (Hl & Hg & Hc).
  cbn zeta in *.
  assert (Hr : currentScoreRef (render (react w) m') = currentScoreRef m').
  { unfold render. destruct (gameStarted (react w)); reflexivity. }
  pose proof (applyCalls_score calls _ _ (react w) Hcl Hs) as Hsc.
  rewrite Hr in Hc. specialize (Hc Hsc).
  split; [exact Hc|]. split; [|split; [exact Hl | exact Hg]].
  unfold lifecycle in Hl. congruence.
Qed.

(** One press: the game starts, restarts, or the player jumps. *)
Lemma press_step (w : World) :
  let w' := step Press w in
  if negb (gameStarted (react w)) then
    refs w' = refs w /\ score (react w') = score (react w)
  else if gameOver (react w) || gameWon (react w) then
    refs w' = mkRefs initialGameState 0 /\ score (react w') = 0%Z
  else
    currentScoreRef (refs w') = currentScoreRef (refs w) /\
    lastThemeChangeScore (gameState (refs w')) =
      lastThemeChangeScore (gameState (refs w)) /\
    score (react w') = score (react w).
Proof.
  cbn zeta. unfold step, press, jump, resetGame.
  destruct (negb (gameStarted (react w))) eqn:Hst.
  { unfold commit, enqueue. destruct w as [r m it].
    cbn [react refs storedItem applyCalls fold_left applyCall storeCalls settle].
    apply negb_true_iff in Hst. cbn [react] in Hst.
    unfold runEffects. cbn [gameOver highScore score].
    rewrite Bool.eqb_reflx, same_refl, Z.eqb_refl. split; reflexivity. }
  destruct (gameOver (react w) || gameWon (react w)).
  { match goal with |- context [commit ?c ?m w] =>
      destruct (commit_facts c m w) as (Hl & Hg & Hc) end.
    cbn zeta in *. specialize (Hc eq_refl). split.
    - destruct (refs (fst (commit _ _ w))) as [g c]. cbn in Hg, Hc. congruence.
    - unfold lifecycle in Hl. injection Hl as Hl _ _ _ _. exact Hl. }
  destruct (negb (isJumping (player (gameState (refs w))))).
  - match goal with |- context [commit ?c ?m w] =>
      pose proof (commit_nil (mkWorld (react w) m (storedItem w))) as E end.
    unfold commit, enqueue in *. cbn [react refs storedItem] in *.
    rewrite E. cbn. auto.
  - rewrite commit_nil. cbn. auto.
Qed.

Lemma updateGame_theme_frame (props : React) (random : Q) (m : Refs) :
  lastThemeChangeScore (gameState (render props (fst (updateGame props random m)))) =
  lastThemeChangeScore (gameState (fst (updateGame props random m))).
Proof. unfold render. destruct (gameStarted props); reflexivity. Qed.

Lemma scoreInv_reachable (w : World) : reachable w -> scoreInv w.
Proof.
  induction 1 as [item | e w Hr IH].
  - unfold mount.
    match goal with |- context [commit ?c ?m ?w0] =>
      destruct (commit_facts c m w0) as (Hl & Hg & Hc) end.
    cbn zeta in *. unfold scoreInv, themeInv. rewrite Hg.
    assert (Hs : score (applyCalls (loadHighScore item ++
                    highScoreEffect initialReact (mkRefs initialGameState 0))
                    initialReact) = 0%Z).
    { rewrite app_nil_r. destruct item as [[|c s]|]; reflexivity. }
    cbn [react] in *. rewrite (Hc Hs).
    unfold lifecycle in Hl. injection Hl as Hl _ _ _ _.
    rewrite Hl, Hs. cbn. repeat split; try lia. exists 0%Z. reflexivity.
  - destruct IH as (Hs & H0 & H10 & Ht). destruct e as [random|].
    + destruct (frame_step random w Hs) as (Hc & Hsc & _ & Hg).
      destruct (updateGame_facts (react w) random (refs w)) as (Hcl & _ & Hth & _).
      cbn zeta in *. apply climbs_length in Hcl.
      destruct (Hth Ht) as [Ht' _].
      unfold scoreInv, themeInv in *. rewrite Hc, Hsc, Hg, updateGame_theme_frame.
      split; [reflexivity|]. split; [lia|]. split; [|exact Ht'].
      rewrite Hcl. apply Z.divide_add_r; [exact H10|].
      apply Z.divide_factor_l.
    + pose proof (press_step w) as Hp. cbn zeta in Hp.
      unfold scoreInv, themeInv in *.
      destruct (negb (gameStarted (react w))).
      { destruct Hp as [-> ->]. auto. }
      destruct (gameOver (react w) || gameWon (react w)).
      { destruct Hp as [-> ->]. cbn. repeat split; try lia.
        exists 0%Z. reflexivity. }
      destruct Hp as (-> & -> & ->). auto.
Qed.

End Reachable.

Lemma run_reachable (es : list Event) (w : World) :
  reachable w -> reachable (run es w).
Proof.
  revert w. induction es as [|e es IH]; intros w Hw; [exact Hw|].
  apply IH. apply reach_step. exact Hw.
Qed.

(** ** A game played on the model *)

Lemma playedWorld_reachable : reachable playedWorld.
Proof. apply run_reachable, reach_mount. Qed.

(** The game reaches 10 points: the obstacle is passed, the game goes on. *)
Example playedWorld_score :
  score (react playedWorld) = 10%Z /\
  (gameOver (react playedWorld) || gameWon (react playedWorld)) = false /\
  map passed (obstacles (gameState (refs playedWorld))) = [true].
Proof. vm_compute. auto. Qed.

(** ** Score *)

Section Score.

Lemma updateGame_increments (random : Q) (w : World) :
  length (scoresSet (snd (updateGame (react w) random (refs w)))) =
  newlyPassedIn (frameVisits random w).
Proof.
  unfold frameVisits. destruct (running (react w)) eqn:Hrun.
  - rewrite (updateGame_running _ _ _ Hrun). cbn [snd].
    apply forEachFrom_increments.
  - rewrite (updateGame_stopped _ _ _ Hrun). reflexivity.
Qed.

(** C8: in every reachable state the score is a non-negative multiple of
    10.  In a frame the values given to [setScore] go up from the score by
    tens, one for each obstacle whose passed flag goes from false to true
    in the frame, and the callback runs at most once on each obstacle of
    the array.  A passed obstacle keeps its flag and adds nothing.  The
    score does not decrease by any event except the press that starts a
    new run. *)
Theorem score_by_tens (w : World) :
  reachable w ->
  let cur := currentScoreRef (refs w) in
  (score (react w) = cur /\ (0 <= cur)%Z /\ (10 | cur)%Z) /\
  (forall random : Q,
     let calls := snd (updateGame (react w) random (refs w)) in
     let cur' := currentScoreRef (refs (step (Frame random) w)) in
     let visits := frameVisits random w in
     climbs cur (scoresSet calls) cur' /\
     length (scoresSet calls) = newlyPassedIn visits /\
     cur' = (cur + 10 * Z.of_nat (newlyPassedIn visits))%Z /\
     visits.*1 `sublist_of` obstacles (gameState (loopStart random (refs w)))) /\
  (forall (o : Obstacle) (k : nat) (m : Refs),
     passed o = true ->
     newlyPassed o m = false /\ passed (visited o m) = true /\
     currentScoreRef (fst (visitObstacle o k m)) = currentScoreRef m /\
     scoresSet (snd (visitObstacle o k m)) = []) /\
  (forall e : Event,
     resets e w = false -> (cur <= currentScoreRef (refs (step e w)))%Z).
Proof.
  intros Hr. cbn zeta.
  destruct (scoreInv_reachable w Hr) as (Hs & H0 & H10 & _).
  assert (Hframe : forall random,
    climbs (currentScoreRef (refs w))
      (scoresSet (snd (updateGame (react w) random (refs w))))
      (currentScoreRef (refs (step (Frame random) w)))).
  { intros random. destruct (frame_step random w Hs) as (-> & _).
    apply updateGame_facts. }
  split; [auto|]. split; [|split].
  - intros random. specialize (Hframe random).
    split; [exact Hframe|]. split; [apply updateGame_increments|].
    split.
    + rewrite <- updateGame_increments. apply climbs_length, Hframe.
    + unfold frameVisits. destruct (running (react w)); [|apply sublist_nil_l].
      apply (visitsFrom_sublist _ 0).
  - intros o k m Hp.
    destruct (visitObstacle_facts o k m) as (Hc & Hsc & Hpp & _).
    cbn zeta in *.
    assert (Hn : newlyPassed o m = false).
    { unfold newlyPassed. rewrite Hp. reflexivity. }
    rewrite Hn in Hc, Hsc. auto.
  - intros [random|] Hres.
    + rewrite (climbs_length _ _ _ (Hframe random)). lia.
    + pose proof (press_step w) as Hp. cbn zeta in Hp. cbn [resets] in Hres.
      destruct (gameStarted (react w)); cbn [negb andb] in *.
      * rewrite Hres in Hp. destruct Hp as (-> & _). lia.
      * destruct Hp as (-> & _). lia.
Qed.

(** The played game: its score, and the frame after it. *)
Lemma score_by_tens_witness :
  (10 | currentScoreRef (refs playedWorld))%Z /\
  (currentScoreRef (refs playedWorld)
   <= currentScoreRef (refs (step (Frame 0) playedWorld)))%Z.
Proof.
  destruct (score_by_tens playedWorld playedWorld_reachable)
    as ((_ & _ & H10) & _ & _ & Hmono).
  split; [exact H10|]. apply (Hmono (Frame 0)). reflexivity.
Defined.

End Score.

(** ** Theme *)

Section Theme.

(** C6: take an update of a running game that starts with the last theme
    change in the same block of 120 as the score (as it is in every
    reachable state).  Every call of [checkThemeChange] made for a pass
    toggles the theme iff the quotient of the new score by 120 differs
    from that of the last theme-change score, and then records the new
    score as last theme-change score.  Over the frame the number of
    toggles is the number of multiples of 120 the score crossed, however
    many obstacles were passed, and the theme of the next render is the
    old one toggled that many times. *)
Theorem theme_toggles_per_multiple (props : React) (random : Q) (m : Refs) :
  running props = true ->
  themeInv m ->
  let m' := fst (updateGame props random m) in
  let calls := snd (updateGame props random m) in
  (forall m1 : Refs, themeInv m1 ->
     let newScore := (currentScoreRef m1 + 10)%Z in
     let g := gameState m1 in
     checkThemeChange newScore g =
       (if (newScore / 120 =? lastThemeChangeScore g / 120)%Z then (g, [])
        else (set_lastThemeChangeScore newScore g, [ToggleDarkTheme])) /\
     themeInv (mkRefs (fst (checkThemeChange newScore g)) newScore)) /\
  Z.of_nat (toggles calls) =
    (currentScoreRef m' / 120 - currentScoreRef m / 120)%Z /\
  themeInv m' /\
  (forall r : React,
     darkTheme (applyCalls calls r) = Nat.iter (toggles calls) negb (darkTheme r)) /\
  (forall w : World, reachable w -> themeInv (refs w)).
Proof.
  intros _ Hinv. cbn zeta.
  destruct (updateGame_facts props random m) as (_ & Hcalls & Hth & _).
  cbn zeta in *. destruct (Hth Hinv) as [Hinv' Hn].
  split; [|split; [exact Hn|split; [exact Hinv'|split]]].
  - intros m1 H1. unfold checkThemeChange, themeInv in *. cbn zeta.
    destruct (_ <? _)%Z eqn:Hlt;
      [apply Z.ltb_lt in Hlt | apply Z.ltb_ge in Hlt];
      destruct (_ =? _)%Z eqn:Heq;
      [apply Z.eqb_eq in Heq | apply Z.eqb_neq in Heq
      |apply Z.eqb_eq in Heq | apply Z.eqb_neq in Heq];
      cbn [fst gameState currentScoreRef set_lastThemeChangeScore
           lastThemeChangeScore];
      try (split; [reflexivity | congruence]); exfalso;
      revert Hlt Heq H1; Z.div_mod_to_equations; lia.
  - intros r. apply (applyCalls_frame _ Hcalls r None).
  - intros w Hw. apply (scoreInv_reachable w Hw).
Qed.

(** Score 115 to 135 in one frame: two passes, one toggle. *)
Lemma theme_toggles_per_multiple_witness :
  let m' := fst (updateGame startedReact 1 twoPassing) in
  let calls := snd (updateGame startedReact 1 twoPassing) in
  currentScoreRef twoPassing = 115%Z /\ currentScoreRef m' = 135%Z /\
  scoresSet calls = [125; 135]%Z /\ toggles calls = 1%nat /\
  darkTheme (applyCalls calls startedReact) = true.
Proof.
  cbn zeta.
  destruct (theme_toggles_per_multiple startedReact 1 twoPassing)
    as (_ & Hn & _ & Hd & _); [reflexivity | reflexivity |].
  cbn zeta in *.
  assert (E : currentScoreRef (fst (updateGame startedReact 1 twoPassing)) = 135%Z)
    by (vm_compute; reflexivity).
  rewrite E in Hn. change (currentScoreRef twoPassing) with 115%Z in Hn.
  assert (Ht : toggles (snd (updateGame startedReact 1 twoPassing)) = 1%nat).
  { apply Nat2Z.inj. rewrite Hn. reflexivity. }
  split; [reflexivity|]. split; [exact E|].
  split; [vm_compute; reflexivity|]. split; [exact Ht|].
  rewrite Hd, Ht. reflexivity.
Defined.

End Theme.

(** ** Winning *)

Section Won.

(** A frame of a game that is not running: the gate of [updateGame] is
    closed, only the renderer runs. *)
Lemma frame_stopped (random : Q) (w : World) :
  running (react w) = false ->
  gameLoop random w = (mkWorld (react w) (render (react w) (refs w)) (storedItem w), []).
Proof.
  intros H. unfold gameLoop. rewrite (updateGame_stopped _ _ _ H).
  unfold commit, enqueue, applyCalls, storeCalls.
  cbn [fold_left settle react refs storedItem].
  rewrite runEffects_same. reflexivity.
Qed.

Lemma frames_stopped (randoms : list Q) (w : World) :
  running (react w) = false ->
  let w' := run (map Frame randoms) w in
  react w' = react w /\ storedItem w' = storedItem w /\
  currentScoreRef (refs w') = currentScoreRef (refs w) /\
  simulation (gameState (refs w')) = simulation (gameState (refs w)).
Proof.
  cbn zeta. revert w. induction randoms as [|random rest IH]; intros w H.
  { repeat split. }
  cbn [map run fold_left].
  change (fold_left _ (map Frame rest) ?w') with (run (map Frame rest) w').
  assert (E : step (Frame random) w =
              mkWorld (react w) (render (react w) (refs w)) (storedItem w)).
  { unfold step. rewrite (frame_stopped random w H). reflexivity. }
  rewrite E.
  destruct (IH (mkWorld (react w) (render (react w) (refs w)) (storedItem w)) H)
    as (Hr & Hs & Hc & Hg).
  cbn [react refs storedItem] in *. rewrite Hr, Hs, Hc, Hg.
  unfold render. destruct (gameStarted (react w)); repeat split.
Qed.

End Won.

(** ** High score *)

Section HighScore.

(** One render of [settle]: the effects call no setter and the renders
    stop, or they call some and another render follows. *)
Lemma settle_rest (fuel : nat) (old : React) (w : World) :
  snd (runEffects old (react w) (refs w)) = [] ->
  settle (S fuel) old w =
  (mkWorld (react w) (fst (runEffects old (react w) (refs w))) (storedItem w), []).
Proof.
  cbn [settle]. destruct (runEffects old (react w) (refs w)) as [m calls].
  cbn [fst snd]. intros ->. reflexivity.
Qed.

Lemma settle_more (fuel : nat) (old : React) (w : World) (c : Call) (cs : list Call) :
  snd (runEffects old (react w) (refs w)) = c :: cs ->
  settle (S fuel) old w =
  (fst (settle fuel (react w)
          (enqueue (c :: cs) (fst (runEffects old (react w) (refs w))) w)),
   (c :: cs) ++
   snd (settle fuel (react w)
          (enqueue (c :: cs) (fst (runEffects old (react w) (refs w))) w))).
Proof.
  cbn [settle]. destruct (runEffects old (react w) (refs w)) as [m calls].
  cbn [fst snd]. intros ->. destruct (settle fuel _ _). reflexivity.
Qed.

(** When the high-score effect has nothing to do in the state of the new
    render, that render is the last one. *)
Lemma commit_quiet (calls : list Call) (m : Refs) (w : World) :
  (forall m', highScoreEffect (applyCalls calls (react w)) m' = []) ->
  commit calls m w =
  (mkWorld (applyCalls calls (react w))
     (fst (runEffects (react w) (applyCalls calls (react w)) m))
     (storeCalls calls (storedItem w)),
   calls ++ []).
Proof.
  intros H. unfold commit, enqueue. cbn [settle react refs storedItem].
  unfold runEffects. rewrite H. destruct (_ || _); reflexivity.
Qed.

Lemma highScoreEffect_not_over (props : React) (m : Refs) :
  gameOver props = false -> highScoreEffect props m = [].
Proof. intros H. unfold highScoreEffect. rewrite H. reflexivity. Qed.

Lemma highScoreEffect_NaN (props : React) (m : Refs) :
  highScore props = NaN -> highScoreEffect props m = [].
Proof.
  intros H. unfold highScoreEffect. rewrite H. cbn [Num.int_gtb].
  rewrite andb_false_r. reflexivity.
Qed.

Lemma frameCall_noHighScoreCall (calls : list Call) :
  Forall frameCall calls -> Forall noHighScoreCall calls.
Proof.
  intros H. eapply Forall_impl; [exact H|].
  intros [n|n|b|b|b|b| |v]; cbn; tauto.
Qed.

(** C1, the code at the failing case: a frame after which the game is not
    over leaves the high score and the stored item as they were and makes
    no call of setHighScore or setItem, also when that frame made the game
    won with a score above the high score: the effect tests [gameOver]
    only. *)
Theorem won_keeps_high_score (w : World) (random : Q) :
  let w' := step (Frame random) w in
  gameOver (react w') = false ->
  highScore (react w') = highScore (react w) /\
  storedItem w' = storedItem w /\
  Forall noHighScoreCall (snd (gameLoop random w)).
Proof.
  cbn zeta. unfold step, gameLoop.
  destruct (updateGame_facts (react w) random (refs w)) as (_ & Hcalls & _).
  cbn zeta in Hcalls.
  destruct (updateGame (react w) random (refs w)) as [m' calls].
  cbn [fst snd] in *. intros Hover.
  assert (Ho : gameOver (applyCalls calls (react w)) = false).
  { destruct (commit_facts calls (render (react w) m') w) as (Hl & _).
    cbn zeta in Hl. unfold lifecycle in Hl. congruence. }
  rewrite commit_quiet in * by (intros; apply highScoreEffect_not_over, Ho).
  cbn [fst snd react storedItem].
  destruct (applyCalls_frame _ Hcalls (react w) (storedItem w))
    as (Hh & _ & _ & _ & _ & _ & _ & Hst).
  cbn zeta in *. rewrite app_nil_r.
  split; [exact Hh|]. split; [exact Hst|].
  apply frameCall_noHighScoreCall, Hcalls.
Qed.

(** The game is won with 100000 points over a high score of 500: the high
    score and the stored item stay. *)
Lemma won_keeps_high_score_witness :
  let w' := step (Frame 1) overTheLast in
  gameWon (react w') = true /\ score (react w') = 100000%Z /\
  highScore (react w') = Int 500 /\ storedItem w' = Some "500"%string.
Proof.
  cbn zeta.
  destruct (won_keeps_high_score overTheLast 1) as (Hh & Hs & _).
  - vm_compute. reflexivity.
  - split; [vm_compute; reflexivity|]. split; [vm_compute; reflexivity|].
    split; [exact Hh | exact Hs].
Defined.

(** The path that does it: the frame in which the game becomes over.  If
    the score is above the high score, the high score becomes the score
    and exactly the calls setHighScore(score) and
    setItem(score.toString()) are added; otherwise nothing is added. *)
Lemma game_over_high_score (w : World) (random : Q) :
  score (react w) = currentScoreRef (refs w) ->
  gameOver (react w) = false ->
  let w' := step (Frame random) w in
  let cur := currentScoreRef (refs w') in
  gameOver (react w') = true ->
  if Num.int_gtb cur (highScore (react w)) then
    highScore (react w') = Int cur /\
    storedItem w' = Some (Num.toString cur) /\
    snd (gameLoop random w) =
      snd (updateGame (react w) random (refs w)) ++
      [SetHighScore (Int cur); SetItem (Num.toString cur)]
  else
    highScore (react w') = highScore (react w) /\
    storedItem w' = storedItem w /\
    snd (gameLoop random w) = snd (updateGame (react w) random (refs w)) ++ [].
Proof.
  intros Hsc Hno. cbn zeta.
  destruct (frame_step random w Hsc) as (Hc & _ & Hl & _). cbn zeta in *.
  rewrite Hc. clear Hc. revert Hl. unfold step, gameLoop.
  destruct (updateGame_facts (react w) random (refs w)) as (Hcl & Hcalls & _).
  cbn zeta in *.
  destruct (updateGame (react w) random (refs w)) as [m' calls].
  cbn [fst snd] in *. intros Hl Hover.
  destruct (applyCalls_frame _ Hcalls (react w) (storedItem w))
    as (Hh & _ & _ & _ & _ & _ & _ & Hst).
  pose proof (applyCalls_score calls _ _ (react w) Hcl Hsc) as Hs.
  cbn zeta in *.
  assert (Ho : gameOver (applyCalls calls (react w)) = true).
  { unfold lifecycle in Hl. congruence. }
  clear Hl Hover.
  set (m := render (react w) m').
  assert (Hm : currentScoreRef m = currentScoreRef m').
  { unfold m, render. destruct (gameStarted (react w)); reflexivity. }
  rewrite <- Hm in *. clearbody m. clear Hm Hcl.
  unfold commit.
  set (r1 := applyCalls calls (react w)) in *.
  set (w1 := enqueue calls m w).
  change (react w1) with r1 in *.
  destruct (Num.int_gtb (currentScoreRef m) (highScore (react w))) eqn:Hgt.
  - (* the effect calls the setters; in the render after it finds nothing *)
    set (cur := currentScoreRef m) in *.
    assert (E1 : snd (runEffects (react w) (react w1) (refs w1)) =
                 [SetHighScore (Int cur); SetItem (Num.toString cur)]).
    { unfold runEffects. cbn [snd react refs w1 enqueue]. fold r1.
      rewrite Hno, Ho. cbn [Bool.eqb negb orb]. unfold highScoreEffect.
      rewrite Ho, Hh. fold cur. rewrite Hgt. reflexivity. }
    assert (Em : currentScoreRef (fst (runEffects (react w) (react w1) (refs w1))) = cur).
    { apply runEffects_score. exact Hs. }
    rewrite (settle_more _ _ _ _ _ E1).
    set (m1 := fst (runEffects (react w) (react w1) (refs w1))) in *.
    set (w2 := enqueue _ m1 w1).
    assert (E2 : snd (runEffects (react w1) (react w2) (refs w2)) = []).
    { unfold runEffects. cbn [snd]. destruct (_ || _); [|reflexivity].
      unfold highScoreEffect.
      cbn [w2 enqueue react refs applyCalls fold_left applyCall highScore].
      rewrite Em. cbn [Num.int_gtb]. rewrite Z.ltb_irrefl, andb_false_r.
      reflexivity. }
    rewrite (settle_rest _ _ _ E2). cbn [fst snd react storedItem].
    rewrite app_nil_r. repeat split.
  - assert (E1 : snd (runEffects (react w) (react w1) (refs w1)) = []).
    { unfold runEffects. cbn [snd react refs w1 enqueue]. fold r1.
      rewrite Hno, Ho. cbn [Bool.eqb negb orb]. unfold highScoreEffect.
      rewrite Ho, Hh, Hgt. reflexivity. }
    rewrite (settle_rest _ _ _ E1). cbn [fst snd react refs storedItem].
    cbn [w1 enqueue react storedItem]. fold r1. rewrite Hh, Hst. repeat split.
Qed.

(** A game that ends with 400 points leaves the high score 500 and the
    store alone; one that ends with 600 sets the high score and writes the
    store once. *)
Example ends_below_high_score :
  snd (gameLoop 1 (endsAt 400)) = [SetGameOver true] /\
  highScore (react (step (Frame 1) (endsAt 400))) = Int 500 /\
  storedItem (step (Frame 1) (endsAt 400)) = Some "500"%string.
Proof. vm_compute. auto. Qed.

Example ends_above_high_score :
  snd (gameLoop 1 (endsAt 600)) =
    [SetGameOver true; SetHighScore (Int 600); SetItem "600"] /\
  highScore (react (step (Frame 1) (endsAt 600))) = Int 600 /\
  storedItem (step (Frame 1) (endsAt 600)) = Some "600"%string.
Proof. vm_compute. auto. Qed.

(** *** The renders come to rest

    The high-score effect can run at most twice with an effect: once for the
    game that ended, and once more only if the score state and the score
    ref differed when it did.  More fuel than 3 changes nothing. *)

Lemma runEffects_calls (old new : React) (m : Refs) :
  snd (runEffects old new m) = [] \/
  (snd (runEffects old new m) =
     [SetHighScore (Int (currentScoreRef m)); SetItem (Num.toString (currentScoreRef m))] /\
   gameOver new = true /\ Num.int_gtb (currentScoreRef m) (highScore new) = true).
Proof.
  unfold runEffects. cbn [snd]. destruct (_ || _); [|left; reflexivity].
  unfold highScoreEffect. destruct (gameOver new); [|left; reflexivity].
  destruct (Num.int_gtb _ _); [right | left]; auto.
Qed.

Lemma runEffects_synced (h : Z) (old : React) (w : World) :
  syncedAt h old w -> fst (runEffects old (react w) (refs w)) = refs w.
Proof.
  intros [Hs _]. unfold runEffects. cbn [fst]. rewrite Hs, Z.eqb_refl. reflexivity.
Qed.

Lemma settle_synced_rest (fuel : nat) (old : React) (w : World) :
  syncedAt (currentScoreRef (refs w)) old w ->
  settle (S fuel) old w = settle 1 old w.
Proof.
  intros H. pose proof (runEffects_synced _ _ _ H) as Hm.
  destruct (runEffects_calls old (react w) (refs w)) as [E | (_ & _ & Hgt)].
  - rewrite !(settle_rest _ _ _ E). reflexivity.
  - destruct H as [_ Hh]. rewrite Hh in Hgt. cbn in Hgt.
    apply Z.ltb_lt in Hgt. lia.
Qed.

Lemma settle_synced (fuel : nat) (h : Z) (old : React) (w : World) :
  syncedAt h old w ->
  settle (S (S fuel)) old w = settle 2 old w.
Proof.
  intros H. pose proof (runEffects_synced _ _ _ H) as Hm.
  destruct (runEffects_calls old (react w) (refs w)) as [E | (E & _ & _)].
  - rewrite !(settle_rest _ _ _ E). reflexivity.
  - rewrite !(settle_more _ _ _ _ _ E), Hm.
    rewrite (settle_synced_rest fuel); [reflexivity|].
    split; reflexivity.
Qed.

Lemma settle_rests (fuel : nat) (old : React) (w : World) :
  settle (3 + fuel) old w = settle 3 old w.
Proof.
  cbn [Nat.add].
  destruct (runEffects_calls old (react w) (refs w)) as [E | (E & _ & _)].
  - rewrite !(settle_rest _ _ _ E). reflexivity.
  - rewrite !(settle_more _ _ _ _ _ E).
    rewrite (settle_synced fuel (currentScoreRef (refs w))); [reflexivity|].
    split; reflexivity.
Qed.

End HighScore.

(** ** Loading the stored high score *)

Section Load.

(** A missing item and an empty one leave the high score at 0; a stored
    decimal number is read back. *)
Example mount_missing :
  highScore (react (fst (mount None))) = Int 0 /\
  highScore (react (fst (mount (Some EmptyString)))) = Int 0 /\
  highScore (react (fst (mount (Some "500"%string)))) = Int 500.
Proof. repeat split. Qed.

Lemma mount_stored (c : ascii) (s : string) :
  let item := String c s in
  highScore (react (fst (mount (Some item)))) = Num.parseInt item /\
  storedItem (fst (mount (Some item))) = Some item /\
  snd (mount (Some item)) = [SetHighScore (Num.parseInt item)].
Proof.
  cbn zeta. unfold mount. cbn [loadHighScore].
  rewrite (highScoreEffect_not_over initialReact) by reflexivity.
  rewrite commit_quiet by (intros; apply highScoreEffect_not_over; reflexivity).
  repeat split.
Qed.

(** A high score that is not a number stays: no event sets it, and the
    effect that would store a better score never finds one. *)
Lemma step_NaN (e : Event) (w : World) :
  highScore (react w) = NaN ->
  highScore (react (step e w)) = NaN /\ storedItem (step e w) = storedItem w.
Proof.
  intros Hn. destruct e as [random|]; unfold step.
  - unfold gameLoop.
    destruct (updateGame_facts (react w) random (refs w)) as (_ & Hcalls & _).
    cbn zeta in Hcalls.
    destruct (updateGame (react w) random (refs w)) as [m' calls].
    cbn [fst snd] in *.
    destruct (applyCalls_frame _ Hcalls (react w) (storedItem w))
      as (Hh & _ & _ & _ & _ & _ & _ & Hst).
    cbn zeta in *.
    rewrite commit_quiet by (intros; apply highScoreEffect_NaN; congruence).
    cbn [fst react storedItem]. split; congruence.
  - unfold press, jump, resetGame.
    destruct (negb (gameStarted (react w)));
      [|destruct (gameOver (react w) || gameWon (react w));
        [|destruct (negb (isJumping (player (gameState (refs w)))))]];
      (rewrite commit_quiet by (intros; apply highScoreEffect_NaN; exact Hn));
      cbn [fst react storedItem]; split; first [exact Hn | reflexivity].
Qed.

(** C5, the code at the failing case: a stored item that is not empty and
    in which [parseInt] finds no number makes the high score NaN at the
    mount, not 0; and whatever happens afterwards, the high score is still
    NaN and the stored item is still the one found. *)
Theorem stored_text_gives_NaN (item : string) (es : list Event) :
  item <> EmptyString ->
  Num.parseInt item = NaN ->
  highScore (react (fst (mount (Some item)))) = NaN /\
  highScore (react (run es (fst (mount (Some item))))) = NaN /\
  storedItem (run es (fst (mount (Some item)))) = Some item.
Proof.
  intros Hne Hp. destruct item as [|c s]; [congruence|].
  destruct (mount_stored c s) as (Hh & Hs & _). cbn zeta in *.
  rewrite Hp in Hh. split; [exact Hh|].
  revert Hh Hs. generalize (fst (mount (Some (String c s)))).
  induction es as [|e es IH]; intros w Hh Hs; [auto|].
  cbn [run fold_left]. destruct (step_NaN e w Hh) as [Hh' Hs'].
  apply IH; congruence.
Qed.

(** The item "abc", and the game played on the model from there. *)
Lemma stored_text_gives_NaN_witness :
  highScore (react (fst (mount (Some "abc"%string)))) = NaN /\
  highScore (react (run playEvents (fst (mount (Some "abc"%string))))) = NaN /\
  storedItem (run playEvents (fst (mount (Some "abc"%string)))) = Some "abc"%string.
Proof.
  cbn zeta. apply stored_text_gives_NaN; [discriminate | reflexivity].
Defined.

(** With a high score that is NaN, a game ending with 10 points stores
    nothing. *)
Example crashAtTen_frame :
  gameLoop 1 crashAtTen =
  (mkWorld (mkReact 10 NaN true true false false)
     (refs (step (Frame 1) crashAtTen)) (Some "abc"%string),
   [SetGameOver true]).
Proof. vm_compute. reflexivity. Qed.

End Load.

(** ** Removal of obstacles *)

Section Removal.

Lemma visited_rect (o : Obstacle) (m : Refs) :
  obstacle_rect (visited o m) =
  obstacle_rect (moveObstacle (gameSpeed (gameState m)) o).
Proof.
  unfold visited, scoreObstacle. destruct (passesNow _ _); [|reflexivity].
  destruct (checkThemeChange _ _). reflexivity.
Qed.

(** The array after one call of the callback: the object is written back,
    and spliced out if it is off screen. *)
Lemma visitObstacle_obstacles (o : Obstacle) (k : nat) (m : Refs) :
  obstacles (gameState (fst (visitObstacle o k m))) =
  if offScreen (visited o m)
  then delete k (<[k := visited o m]> (obstacles (gameState m)))
  else <[k := visited o m]> (obstacles (gameState m)).
Proof.
  unfold visitObstacle, visited.
  pose proof (scoreObstacle_outside (moveObstacle (gameSpeed (gameState m)) o) m)
    as [_ Ho].
  destruct (scoreObstacle _ m) as [[o2 m2] sc]. cbn [fst snd] in *.
  cbn [gameState obstacles set_obstacles]. rewrite Ho.
  destruct (offScreen o2); reflexivity.
Qed.

(** The callback keeps the obstacle it is called on when its right edge is
    at 0 or beyond after the move, and removes it (and no other) when that
    edge is below 0. *)
Lemma visitObstacle_keeps_or_removes (o : Obstacle) (k : nat) (m : Refs) :
  obstacles (gameState m) !! k = Some o ->
  let arr := obstacles (gameState m) in
  let arr' := obstacles (gameState (fst (visitObstacle o k m))) in
  let edge := x o - gameSpeed (gameState m) + width o in
  (0 <= edge -> arr' = <[k := visited o m]> arr /\ arr' !! k = Some (visited o m)) /\
  (edge < 0 -> arr' = delete k arr).
Proof.
  intros Hk. cbn zeta. rewrite visitObstacle_obstacles.
  assert (Hoff : offScreen (visited o m) =
                 Num.ltb (x o - gameSpeed (gameState m) + width o) 0).
  { unfold offScreen. rewrite visited_rect. reflexivity. }
  rewrite Hoff. apply lookup_lt_Some in Hk. split; intros H.
  - apply NumFacts.ltb_ge in H. rewrite H. split; [reflexivity|].
    apply list_lookup_insert_eq. exact Hk.
  - apply NumFacts.ltb_lt in H. rewrite H.
    rewrite !delete_take_drop, take_insert_ge, drop_insert_lt by lia.
    reflexivity.
Qed.

(** The calls from index [k] on leave the array before [k] alone. *)
Lemma visitObstacle_take (o : Obstacle) (k : nat) (m : Refs) :
  obstacles (gameState m) !! k = Some o ->
  take k (obstacles (gameState (fst (visitObstacle o k m)))) =
  take k (obstacles (gameState m)).
Proof.
  intros Hk. apply lookup_lt_Some in Hk.
  rewrite visitObstacle_obstacles.
  destruct (offScreen _); [|apply take_insert_ge; lia].
  rewrite delete_take_drop, take_app_length'.
  - apply take_insert_ge. lia.
  - rewrite length_take, length_insert. lia.
Qed.

Lemma forEachFrom_take (n k : nat) (m : Refs) :
  take k (obstacles (gameState (fst (forEachFrom n k m)))) =
  take k (obstacles (gameState m)).
Proof.
  revert k m. induction n as [|n IH]; intros k m; [reflexivity|].
  cbn [forEachFrom].
  assert (Hless : forall l l' : list Obstacle,
            take (S k) l = take (S k) l' -> take k l = take k l').
  { intros l l' H. rewrite <- (Nat.min_l k (S k)), <- !take_take by lia.
    rewrite H. reflexivity. }
  destruct (obstacles (gameState m) !! k) as [o|] eqn:Hk.
  - pose proof (visitObstacle_take o k m Hk) as Hv.
    destruct (visitObstacle o k m) as [m1 calls1]. cbn [fst] in Hv.
    specialize (IH (S k) m1).
    destruct (forEachFrom n (S k) m1) as [m2 calls2]. cbn [fst] in *.
    rewrite <- Hv. apply Hless, IH.
  - apply Hless, IH.
Qed.

Lemma forEachFrom_S (n k : nat) (m : Refs) (o : Obstacle) :
  obstacles (gameState m) !! k = Some o ->
  fst (forEachFrom (S n) k m) = fst (forEachFrom n (S k) (fst (visitObstacle o k m))).
Proof.
  intros H. cbn [forEachFrom]. rewrite H.
  destruct (visitObstacle o k m) as [m1 calls1]. cbn [fst].
  destruct (forEachFrom n (S k) m1). reflexivity.
Qed.

(** When the first obstacle of the array is off screen after its move, it
    is spliced out and the loop goes on at index 1, which now holds the third
    obstacle: the second obstacle is first in the array afterwards exactly as
    it was, not visited in this update. *)
Lemma removal_skips_next
  (props : React) (random : Q) (m : Refs) (a b : Obstacle) (rest : list Obstacle) :
  running props = true ->
  obstacles (gameState m) = a :: b :: rest ->
  offScreen (moveObstacle (gameSpeed (gameState m)) a) = true ->
  obstacles (gameState (fst (updateGame props random m))) !! 0%nat = Some b.
Proof.
  intros Hrun Harr Hoff. rewrite (updateGame_running _ _ _ Hrun). cbn [fst].
  change (obstacles (gameState (updateDifficulty ?r))) with (obstacles (gameState r)).
  unfold forEachObstacle. set (m0 := loopStart random m).
  assert (Hspeed : gameSpeed (gameState m0) = gameSpeed (gameState m)).
  { unfold m0, loopStart, beforeLoop, spawnObstacle, moveGround. cbn zeta.
    cbn [gameState]. destruct (_ && _); reflexivity. }
  assert (H0 : exists rest', obstacles (gameState m0) = a :: b :: rest').
  { unfold m0, loopStart, beforeLoop, spawnObstacle, moveGround. cbn zeta.
    cbn [gameState]. destruct (_ && _); cbn; rewrite Harr; eauto. }
  destruct H0 as [rest' H0]. rewrite H0. cbn [length].
  rewrite (forEachFrom_S _ 0 m0 a) by (rewrite H0; reflexivity).
  pose proof (visitObstacle_obstacles a 0 m0) as Hv.
  assert (Hoff' : offScreen (visited a m0) = true).
  { unfold offScreen in *. rewrite visited_rect, Hspeed. exact Hoff. }
  rewrite Hoff', H0 in Hv. cbn in Hv.
  destruct (visitObstacle a 0 m0) as [m1 calls1]. cbn [fst] in Hv |- *.
  pose proof (forEachFrom_take (S (length rest')) 1 m1) as Ht.
  destruct (forEachFrom (S (length rest')) 1 m1) as [m2 calls2].
  cbn [fst] in *. rewrite Hv in Ht. cbn in Ht.
  destruct (obstacles (gameState m2)) as [|c l]; [discriminate|].
  cbn in Ht. inversion Ht. reflexivity.
Qed.

End Removal.

(** * Further properties of the code *)

(** ** The stored high score read back *)

Section RoundTrip.

Lemma digits_string_of_uint (u : Decimal.uint) (acc : Z) :
  Num.digits (Some acc) (NilEmpty.string_of_uint u) = Some (uvalue acc u).
Proof.
  revert acc. induction u; intros acc; cbn [NilEmpty.string_of_uint uvalue];
    [reflexivity | ..]; cbn [Num.digits]; apply IHu.
Qed.

Lemma uvalue_acc (u : Decimal.uint) (p : BinNums.positive) :
  uvalue (Z.pos p) u = Z.pos (Pos.of_uint_acc u p).
Proof.
  revert p. induction u; intros p; cbn [uvalue Pos.of_uint_acc];
    [reflexivity | ..]; rewrite <- IHu; f_equal; lia.
Qed.

Lemma uvalue_of_uint (u : Decimal.uint) : uvalue 0 u = Z.of_N (Pos.of_uint u).
Proof.
  induction u; cbn [uvalue Pos.of_uint]; [reflexivity | exact IHu | ..];
    apply (uvalue_acc u).
Qed.

Lemma uvalue_to_uint (p : BinNums.positive) : uvalue 0 (Pos.to_uint p) = Z.pos p.
Proof. rewrite uvalue_of_uint, DecimalPos.Unsigned.of_to. reflexivity. Qed.

(** The digits of a positive number, as [parseInt] reads them. *)
Lemma parse_digits_pos (p : BinNums.positive) :
  NilEmpty.string_of_uint (Pos.to_uint p) <> EmptyString /\
  Num.trimStart (NilEmpty.string_of_uint (Pos.to_uint p)) =
    NilEmpty.string_of_uint (Pos.to_uint p) /\
  Num.digits None (NilEmpty.string_of_uint (Pos.to_uint p)) = Some (Z.pos p).
Proof.
  pose proof (DecimalPos.Unsigned.to_uint_nonnil p) as Hn.
  pose proof (uvalue_to_uint p) as Hv.
  destruct (Pos.to_uint p) as [|u|u|u|u|u|u|u|u|u|u]; [congruence | ..];
    cbn [NilEmpty.string_of_uint uvalue] in *;
    (split; [discriminate|]); (split; [reflexivity|]);
    cbn [Num.digits]; rewrite <- Hv; apply digits_string_of_uint.
Qed.

Lemma parseInt_digits_pos (p : BinNums.positive) :
  Num.parseInt (NilEmpty.string_of_uint (Pos.to_uint p)) = Int (Z.pos p) /\
  Num.parseInt (String "-" (NilEmpty.string_of_uint (Pos.to_uint p))) = Int (Z.neg p).
Proof.
  destruct (parse_digits_pos p) as (_ & Ht & Hd).
  destruct (NilEmpty.string_of_uint (Pos.to_uint p)) as [|c rest] eqn:E;
    [discriminate|].
  assert (Hc : Num.isWhiteSpace c = false).
  { cbn [Num.trimStart] in Ht. destruct (Num.isWhiteSpace c); [|reflexivity].
    exfalso. clear -Ht. revert c Ht. induction rest as [|c' rest IH]; intros c Ht.
    - discriminate.
    - cbn [Num.trimStart] in Ht. destruct (Num.isWhiteSpace c').
      + apply (f_equal String.length) in Ht. cbn [String.length] in Ht.
        assert (Hlen : forall s, (String.length (Num.trimStart s) <= String.length s)%nat).
        { clear. induction s as [|a s IHs]; cbn [Num.trimStart String.length]; [lia|].
          destruct (Num.isWhiteSpace a); cbn [String.length]; lia. }
        specialize (Hlen rest). lia.
      + apply (f_equal String.length) in Ht. cbn [String.length] in Ht. lia. }
  assert (Hsign : c <> "-"%char /\ c <> "+"%char).
  { split; intros ->; cbn in Hd; discriminate. }
  split.
  - unfold Num.parseInt. rewrite Ht.
    destruct c as [[] [] [] [] [] [] [] []]; cbn in Hsign;
      try (destruct Hsign as [H1 H2]; congruence);
      rewrite Hd; reflexivity.
  - unfold Num.parseInt. cbn [Num.trimStart].
    change (Num.isWhiteSpace "-") with false. cbn iota.
    rewrite Hd. reflexivity.
Qed.

Lemma parseInt_toString (n : Z) : Num.parseInt (Num.toString n) = Int n.
Proof.
  unfold Num.toString. destruct n as [|p|p]; [reflexivity | |];
    cbn [Z.to_int NilZero.string_of_int NilZero.string_of_uint];
    pose proof (DecimalPos.Unsigned.to_uint_nonnil p) as Hn;
    destruct (parseInt_digits_pos p) as [H1 H2];
    unfold NilZero.string_of_uint;
    (destruct (Pos.to_uint p); [congruence | ..]); first [exact H1 | exact H2].
Qed.

Lemma toString_nonempty (n : Z) : Num.toString n <> EmptyString.
Proof.
  intros H. pose proof (parseInt_toString n) as Hp. rewrite H in Hp. discriminate.
Qed.

End RoundTrip.

(** ** Events, calls and renders *)

Lemma step_handle (e : Event) (w : World) :
  step e w = fst (commit (snd (handle e w)) (fst (handle e w)) w).
Proof.
  destruct e as [random|]; unfold step, handle, gameLoop, press.
  - destruct (updateGame (react w) random (refs w)) as [m calls]. reflexivity.
  - destruct (jump (react w) (refs w)) as [m calls]. reflexivity.
Qed.

(** No event handler and no frame sets the high score or writes the store:
    only the effect does. *)
Lemma handle_noHighScoreCall (e : Event) (w : World) :
  Forall noHighScoreCall (snd (handle e w)).
Proof.
  destruct e as [random|]; unfold handle.
  - destruct (updateGame_facts (react w) random (refs w)) as (_ & Hc & _).
    cbn zeta in Hc. destruct (updateGame (react w) random (refs w)) as [m calls].
    apply frameCall_noHighScoreCall, Hc.
  - unfold jump, resetGame.
    destruct (negb (gameStarted (react w)));
      [|destruct (gameOver (react w) || gameWon (react w));
        [|destruct (negb (isJumping (player (gameState (refs w)))))]];
      cbn [snd]; repeat constructor.
Qed.

Lemma applyCalls_noHighScoreCall (calls : list Call) :
  Forall noHighScoreCall calls -> forall (r : React) (item : option string),
  highScore (applyCalls calls r) = highScore r /\ storeCalls calls item = item.
Proof.
  induction 1 as [|c calls Hc _ IH]; intros r item; [split; reflexivity|].
  rewrite applyCalls_cons.
  assert (Hs : storeCalls (c :: calls) item = storeCalls calls item)
    by (destruct c; try contradiction; reflexivity).
  assert (Hh : highScore (applyCall c r) = highScore r)
    by (destruct c; try contradiction; reflexivity).
  destruct (IH (applyCall c r) item) as [H1 H2]. rewrite Hs, H1, Hh. auto.
Qed.

(** *** Invariants of the high score and the store

    A property of the component state and the store that does not depend
    on the refs, that the calls of handlers and frames keep, and that the
    high-score effect keeps when it fires, holds after every event. *)

Section HighScoreInvariant.

Variable I : World -> Prop.

Hypothesis I_calls : forall (w : World) (calls : list Call) (m : Refs),
  Forall noHighScoreCall calls -> I w -> I (enqueue calls m w).

Hypothesis I_fires : forall (w : World) (m : Refs) (c : Z),
  Num.int_gtb c (highScore (react w)) = true -> I w ->
  I (enqueue [SetHighScore (Int c); SetItem (Num.toString c)] m w).

Lemma I_refs (w : World) (m : Refs) :
  I w -> I (mkWorld (react w) m (storedItem w)).
Proof. intros H. apply (I_calls w [] m); [constructor | exact H]. Qed.

Lemma settle_invariant (fuel : nat) (old : React) (w : World) :
  I w -> I (fst (settle fuel old w)).
Proof.
  revert old w. induction fuel as [|fuel IH]; intros old w Hw; [exact Hw|].
  destruct (runEffects_calls old (react w) (refs w)) as [E | (E & _ & Hgt)].
  - rewrite (settle_rest _ _ _ E). apply I_refs, Hw.
  - rewrite (settle_more _ _ _ _ _ E). cbn [fst]. apply IH, I_fires; assumption.
Qed.

Lemma step_invariant (e : Event) (w : World) : I w -> I (step e w).
Proof.
  intros Hw. rewrite step_handle. unfold commit.
  pose proof (settle_invariant 3 (react w)
                (enqueue (snd (handle e w)) (fst (handle e w)) w)) as H.
  destruct (settle 3 _ _) as [w' calls']. apply H, I_calls; [|exact Hw].
  apply handle_noHighScoreCall.
Qed.

Lemma run_invariant (es : list Event) (w : World) : I w -> I (run es w).
Proof.
  revert w. induction es as [|e es IH]; intros w Hw; [exact Hw|].
  apply IH, step_invariant, Hw.
Qed.

End HighScoreInvariant.

Section Persistence.

Lemma mount_store (item : option string) : storedItem (fst (mount item)) = item.
Proof.
  destruct item as [[|c s]|]; [reflexivity | apply mount_stored | reflexivity].
Qed.

Lemma loaded_toString (n : Z) : loaded (Some (Num.toString n)) = Int n.
Proof.
  unfold loaded. pose proof (toString_nonempty n) as He.
  pose proof (parseInt_toString n) as Hp.
  destruct (Num.toString n) as [|c s]; [congruence|].
  destruct (mount_stored c s) as (-> & _). exact Hp.
Qed.

(** X1: for a score [n] that a Number holds exactly and writes with all
    its digits (at most 2^53 in absolute value), the string the game-over
    effect stores, [n.toString()], is not empty, and a session mounted on it
    reads it back: the load effect calls [setHighScore(n)] and nothing else,
    the session starts with the high score [n], and the item stays. *)
Theorem stored_number_read_back (n : Z) :
  (Z.abs n <= 2 ^ 53)%Z ->
  Num.toString n <> EmptyString /\
  loadHighScore (Some (Num.toString n)) = [SetHighScore (Int n)] /\
  snd (mount (Some (Num.toString n))) = [SetHighScore (Int n)] /\
  highScore (react (fst (mount (Some (Num.toString n))))) = Int n /\
  storedItem (fst (mount (Some (Num.toString n)))) = Some (Num.toString n).
Proof.
  intros _. pose proof (parseInt_toString n) as Hp.
  pose proof (toString_nonempty n) as He. split; [exact He|].
  destruct (Num.toString n) as [|c s] eqn:E; [congruence|].
  destruct (mount_stored c s) as (Hh & Hst & Hcalls). cbn zeta in *.
  rewrite Hh, Hst, Hcalls, Hp. cbn [loadHighScore]. rewrite Hp. auto.
Qed.

(** The score 600. *)
Lemma stored_number_read_back_witness :
  highScore (react (fst (mount (Some (Num.toString 600))))) = Int 600.
Proof.
  refine (proj1 (proj2 (proj2 (proj2 (stored_number_read_back 600 _))))).
  vm_compute. discriminate.
Defined.

(** X2: in every reachable state, a session mounted anew on the stored item
    starts with the high score the running session has: the store and the
    high score never drift apart, whatever item the session began with. *)
Theorem store_agrees_with_high_score (w : World) :
  reachable w ->
  highScore (react (fst (mount (storedItem w)))) = highScore (react w).
Proof.
  change (reachable w -> loaded (storedItem w) = highScore (react w)).
  induction 1 as [item | e w Hr IH].
  - rewrite mount_store. reflexivity.
  - revert IH. apply (step_invariant
      (fun w => loaded (storedItem w) = highScore (react w))).
    + intros w0 calls m Hc H0. unfold enqueue. cbn [react storedItem].
      destruct (applyCalls_noHighScoreCall calls Hc (react w0) (storedItem w0))
        as [-> ->]. exact H0.
    + intros w0 m c _ _. cbn [enqueue react storedItem applyCalls storeCalls
                               fold_left applyCall highScore].
      apply loaded_toString.
Qed.

(** A session that began with the item "500" and in which a game was played. *)
Lemma store_agrees_with_high_score_witness :
  let w := run playEvents (fst (mount (Some "500"%string))) in
  highScore (react (fst (mount (storedItem w)))) = highScore (react w).
Proof.
  cbn zeta. apply store_agrees_with_high_score, run_reachable, reach_mount.
Defined.

Lemma notBelow_refl (a : JsNumber) : notBelow a a.
Proof. destruct a; cbn; [exact Logic.I | lia]. Qed.

Lemma notBelow_trans (a b c : JsNumber) : notBelow a b -> notBelow b c -> notBelow a c.
Proof. destruct a, b, c; cbn; try tauto; lia. Qed.

Lemma step_notBelow (e : Event) (w : World) :
  notBelow (highScore (react w)) (highScore (react (step e w))).
Proof.
  apply (step_invariant (fun w' => notBelow (highScore (react w)) (highScore (react w')))).
  - intros w0 calls m Hc H0. unfold enqueue. cbn [react].
    destruct (applyCalls_noHighScoreCall calls Hc (react w0) None) as [-> _].
    exact H0.
  - intros w0 m c Hgt H0.
    cbn [enqueue react applyCalls fold_left applyCall highScore].
    apply (notBelow_trans _ _ _ H0).
    destruct (highScore (react w0)) as [|h]; [discriminate|].
    cbn in *. apply Z.ltb_lt in Hgt. lia.
  - apply notBelow_refl.
Qed.

(** X3: over any sequence of events, from any state, the high score never
    decreases: a number stays a number and does not get smaller, and NaN
    stays NaN. *)
Theorem high_score_never_decreases (es : list Event) (w : World) :
  notBelow (highScore (react w)) (highScore (react (run es w))).
Proof.
  revert w. induction es as [|e es IH]; intros w; [apply notBelow_refl|].
  cbn [run fold_left]. fold (run es (step e w)).
  exact (notBelow_trans _ _ _ (step_notBelow e w) (IH (step e w))).
Qed.

End Persistence.


(** ** Start and restart *)

Section Lifecycle.

Lemma commit_started (calls : list Call) (m : Refs) (w : World) :
  gameStarted (react (fst (commit calls m w))) =
  gameStarted (applyCalls calls (react w)).
Proof.
  destruct (commit_facts calls m w) as (Hl & _). cbn zeta in Hl.
  unfold lifecycle in Hl. injection Hl as _ _ Hl _ _. exact Hl.
Qed.

Lemma mount_not_started (item : option string) :
  gameStarted (react (fst (mount item))) = false.
Proof.
  unfold mount. rewrite commit_started.
  rewrite (highScoreEffect_not_over initialReact) by reflexivity.
  destruct item as [[|c s]|]; reflexivity.
Qed.

(** A game that has started stays started. *)
Lemma step_started (e : Event) (w : World) :
  gameStarted (react w) = true -> gameStarted (react (step e w)) = true.
Proof.
  intros Hs. destruct e as [random|]; unfold step.
  - unfold gameLoop.
    destruct (updateGame_facts (react w) random (refs w)) as (_ & Hcalls & _).
    cbn zeta in Hcalls.
    destruct (updateGame (react w) random (refs w)) as [m' calls].
    cbn [fst snd] in *. rewrite commit_started.
    destruct (applyCalls_frame _ Hcalls (react w) None) as (_ & -> & _).
    exact Hs.
  - unfold press, jump, resetGame. rewrite Hs. cbn [negb].
    destruct (gameOver (react w) || gameWon (react w));
      [|destruct (negb _)]; rewrite commit_started; try exact Hs.
    reflexivity.
Qed.

Lemma frame_idle (random : Q) (w : World) :
  gameStarted (react w) = false -> step (Frame random) w = w.
Proof.
  intros Hs. unfold step, gameLoop, updateGame, render. rewrite Hs.
  cbn [negb orb]. rewrite commit_nil. reflexivity.
Qed.

(** X4: a press while the game is over or won starts a new game: the
    score is 0, the game is started and neither over nor won, the theme is
    light, the simulation state and the score ref are the initial ones; the
    high score and the stored item are kept. *)
Theorem press_restarts (w : World) :
  gameStarted (react w) = true ->
  gameOver (react w) || gameWon (react w) = true ->
  step Press w =
  mkWorld (mkReact 0 (highScore (react w)) false true false false)
    (mkRefs initialGameState 0) (storedItem w).
Proof.
  intros Hs Ho. unfold step, press, jump, resetGame. rewrite Hs, Ho.
  cbn [negb]. rewrite commit_quiet
    by (intros; apply highScoreEffect_not_over; reflexivity).
  cbn [fst applyCalls fold_left applyCall storeCalls score highScore gameOver
       gameStarted gameWon darkTheme].
  f_equal. unfold runEffects, syncScore. cbn [fst score gameState].
  destruct (negb _); reflexivity.
Qed.

(** A game that ended at 30 points in the dark theme, high score 500. *)
Lemma press_restarts_witness :
  step Press (mkWorld (mkReact 30 (Int 500) true true false true)
                twoOffScreen (Some "500"%string)) =
  mkWorld (mkReact 0 (Int 500) false true false false)
    (mkRefs initialGameState 0) (Some "500"%string).
Proof.
  exact (press_restarts
           (mkWorld (mkReact 30 (Int 500) true true false true)
              twoOffScreen (Some "500"%string)) eq_refl eq_refl).
Defined.

(** X5: until the first press nothing happens: a reachable state in which
    the game has not started is the state after the mount, animation frames
    leave it as it is, and the first press sets [gameStarted] and nothing
    else. *)
Theorem idle_until_first_press (w : World) :
  reachable w ->
  gameStarted (react w) = false ->
  w = fst (mount (storedItem w)) /\
  (forall randoms : list Q, run (map Frame randoms) w = w) /\
  step Press w =
    mkWorld (applyCall (SetGameStarted true) (react w)) (refs w) (storedItem w).
Proof.
  intros Hr Hs. split; [|split].
  - induction Hr as [item | e w Hr IH]; [rewrite mount_store; reflexivity|].
    destruct (gameStarted (react w)) eqn:Hw.
    + rewrite (step_started e w Hw) in Hs. discriminate.
    + destruct e as [random|].
      * rewrite (frame_idle _ _ Hw). apply IH. reflexivity.
      * exfalso. revert Hs. unfold step, press, jump. rewrite Hw. cbn [negb].
        rewrite commit_started. discriminate.
  - intros randoms. induction randoms as [|random rest IH]; [reflexivity|].
    cbn [map run fold_left]. rewrite (frame_idle _ _ Hs). exact IH.
  - unfold step, press, jump. rewrite Hs. cbn [negb].
    unfold commit, enqueue. destruct w as [r m it].
    cbn [react refs storedItem applyCalls fold_left applyCall storeCalls settle].
    unfold runEffects. cbn [gameOver highScore score].
    rewrite Bool.eqb_reflx, same_refl, Z.eqb_refl. reflexivity.
Qed.

Lemma idle_until_first_press_witness :
  let w := fst (mount (Some "500"%string)) in
  run (map Frame [0; 1; 0]) w = w /\
  gameStarted (react (step Press w)) = true.
Proof.
  cbn zeta.
  destruct (idle_until_first_press (fst (mount (Some "500"%string))))
    as (_ & Hf & Hp); [apply reach_mount | apply mount_not_started |].
  split; [apply Hf | rewrite Hp; reflexivity].
Defined.

End Lifecycle.

(** ** Collisions and moves of a frame *)

Section Frame.

Lemma visitObstacle_hit (o : Obstacle) (k : nat) (m : Refs) :
  In (SetGameOver true) (snd (visitObstacle o k m)) <-> hits (o, m) = true.
Proof.
  unfold hits, visited, visitObstacle, scoreObstacle, checkThemeChange.
  cbn [fst snd].
  destruct (passesNow _ _);
    [destruct (_ <? _)%Z; destruct (MAX_SCORE <=? _)%Z|];
    cbn [fst snd gameState set_lastThemeChangeScore player app];
    destruct (checkCollision _ _); cbn [In app]; intuition congruence.
Qed.

Lemma forEachFrom_hit (n k : nat) (m : Refs) :
  In (SetGameOver true) (snd (forEachFrom n k m)) <->
  Exists (fun v => hits v = true) (visitsFrom n k m).
Proof.
  revert k m. induction n as [|n IH]; intros k m; cbn [forEachFrom visitsFrom].
  - cbn. rewrite Exists_nil. tauto.
  - destruct (obstacles (gameState m) !! k) as [o|]; [|apply IH].
    pose proof (visitObstacle_hit o k m) as Hv. specialize (IH (S k)).
    destruct (visitObstacle o k m) as [m1 calls1]. cbn [fst snd] in *.
    specialize (IH m1). destruct (forEachFrom n (S k) m1) as [m2 calls2].
    cbn [fst snd] in *. rewrite in_app_iff, Exists_cons. tauto.
Qed.

Lemma visitsFrom_outside (n k : nat) (m : Refs) :
  Forall (fun v => outsideLoop (gameState (snd v)) = outsideLoop (gameState m))
    (visitsFrom n k m).
Proof.
  revert k m. induction n as [|n IH]; intros k m; cbn [visitsFrom];
    [constructor|].
  destruct (obstacles (gameState m) !! k) as [o|]; [|apply IH].
  constructor; [reflexivity|].
  eapply Forall_impl; [apply IH|]. cbn beta. intros v ->.
  apply visitObstacle_outside.
Qed.

Lemma loopStart_player (random : Q) (m : Refs) :
  player (gameState (loopStart random m)) =
  updatePlayer (gravity (gameState m)) (player (gameState m)).
Proof.
  unfold loopStart, beforeLoop, spawnObstacle. cbn [gameState].
  destruct (_ && _); reflexivity.
Qed.

Lemma loopStart_gameSpeed (random : Q) (m : Refs) :
  gameSpeed (gameState (loopStart random m)) = gameSpeed (gameState m).
Proof.
  unfold loopStart, beforeLoop, spawnObstacle. cbn [gameState].
  destruct (_ && _); reflexivity.
Qed.

(** The state of the next render is over exactly if the update called
    [setGameOver(true)]. *)
Lemma frame_over_calls (w : World) (random : Q) :
  gameOver (react (step (Frame random) w)) =
  gameOver (applyCalls (snd (updateGame (react w) random (refs w))) (react w)).
Proof.
  unfold step, gameLoop.
  destruct (updateGame (react w) random (refs w)) as [m' calls].
  destruct (commit_facts calls (render (react w) m') w) as (Hl & _).
  cbn zeta in Hl. unfold lifecycle in Hl. injection Hl as _ Hl _ _ _.
  exact Hl.
Qed.

Lemma frameVisits_player (w : World) (random : Q) :
  let g := gameState (refs w) in
  Forall (fun v => player (gameState (snd v)) = updatePlayer (gravity g) (player g) /\
                   gameSpeed (gameState (snd v)) = gameSpeed g)
    (frameVisits random w).
Proof.
  cbn zeta. unfold frameVisits. destruct (running (react w)); [|constructor].
  eapply Forall_impl; [apply visitsFrom_outside|]. cbn beta. intros v Hv.
  rewrite <- (loopStart_player random (refs w)).
  rewrite <- (loopStart_gameSpeed random (refs w)).
  unfold outsideLoop in Hv. split; congruence.
Qed.

Lemma frame_over_hits (w : World) (random : Q) :
  gameOver (react w) = false ->
  gameOver (react (step (Frame random) w)) = true <->
  Exists (fun v => hits v = true) (frameVisits random w).
Proof.
  intros Ho. rewrite frame_over_calls. unfold frameVisits.
  destruct (updateGame_facts (react w) random (refs w)) as (_ & Hcalls & _).
  cbn zeta in Hcalls.
  destruct (applyCalls_frame _ Hcalls (react w) None)
    as (_ & _ & _ & Hin & _ & Hout & _). cbn zeta in Hin, Hout.
  destruct (running (react w)) eqn:Hrun.
  - rewrite (updateGame_running _ _ _ Hrun) in *. cbn [snd] in *.
    unfold forEachObstacle in *. rewrite <- forEachFrom_hit.
    split; [|intros Hi; apply Hin; right; exact Hi].
    intros Ht.
    destruct (decide (Exists (fun v => hits v = true)
                        (visitsFrom (length (obstacles (gameState (loopStart random (refs w)))))
                           0 (loopStart random (refs w))))) as [He|He].
    + apply forEachFrom_hit, He.
    + rewrite <- forEachFrom_hit in He. rewrite (Hout He) in Ht. congruence.
  - rewrite (updateGame_stopped _ _ _ Hrun). cbn [snd applyCalls fold_left].
    rewrite Ho, Exists_nil. split; [discriminate | tauto].
Qed.

(** X6: a frame ends a game that is not over exactly when one of the
    obstacles the loop calls its callback on overlaps the player once it is
    moved; the player of every such test is the player after the physics
    step of the frame. *)
Theorem game_over_iff_hit (w : World) (random : Q) :
  gameOver (react w) = false ->
  let g := gameState (refs w) in
  (gameOver (react (step (Frame random) w)) = true <->
   Exists (fun v => hits v = true) (frameVisits random w)) /\
  Forall (fun v => player (gameState (snd v)) = updatePlayer (gravity g) (player g))
    (frameVisits random w).
Proof.
  intros Ho g. split; [apply frame_over_hits, Ho|].
  eapply Forall_impl; [apply frameVisits_player|]. cbn beta. intros v Hv.
  apply Hv.
Qed.

Lemma visited_advance (o : Obstacle) (m : Refs) :
  visited o m = advance (player (gameState m)) (gameSpeed (gameState m)) o.
Proof.
  unfold visited, advance, scoreObstacle, checkThemeChange.
  destruct (passesNow _ _); [destruct (_ <? _)%Z|]; reflexivity.
Qed.

Lemma offScreen_visited (o : Obstacle) (m : Refs) :
  offScreen (visited o m) = offScreen (moveObstacle (gameSpeed (gameState m)) o).
Proof. unfold offScreen. rewrite visited_rect. reflexivity. Qed.

(** While no obstacle is removed, the loop reaches every obstacle. *)
Lemma forEachFrom_map (p : PlayerObject) (speed : Q) (rest pre : list Obstacle) :
  forall m : Refs,
  player (gameState m) = p -> gameSpeed (gameState m) = speed ->
  obstacles (gameState m) = pre ++ rest ->
  Forall (fun o => offScreen (moveObstacle speed o) = false) rest ->
  obstacles (gameState (fst (forEachFrom (length rest) (length pre) m))) =
  pre ++ map (advance p speed) rest.
Proof.
  revert pre. induction rest as [|o rest IH]; intros pre m Hp Hs Harr Hoff.
  - cbn. exact Harr.
  - assert (Hk : obstacles (gameState m) !! length pre = Some o)
      by (rewrite Harr; apply list_lookup_middle; reflexivity).
    cbn [length]. rewrite (forEachFrom_S _ _ _ _ Hk).
    pose proof (visitObstacle_outside o (length pre) m) as Hout.
    pose proof (visitObstacle_obstacles o (length pre) m) as Harr1.
    rewrite offScreen_visited, Hs, (Forall_inv Hoff), Harr in Harr1.
    rewrite insert_app_r_alt, Nat.sub_diag in Harr1 by lia.
    cbn [insert list_insert] in Harr1.
    replace (S (length pre)) with (length (pre ++ [visited o m]))
      by (rewrite length_app; cbn; lia).
    rewrite (IH (pre ++ [visited o m])).
    + rewrite visited_advance, Hp, Hs, <- app_assoc. reflexivity.
    + unfold outsideLoop in Hout. congruence.
    + unfold outsideLoop in Hout. congruence.
    + rewrite Harr1, <- app_assoc. reflexivity.
    + exact (Forall_inv_tail Hoff).
Qed.

(** X7: in a frame in which no obstacle leaves the screen, the loop
    reaches every obstacle of the array: each one is moved left by the game
    speed, keeps its y, width and height, and its passed flag is set once
    its right edge is left of the player's centre and never cleared. *)
Theorem frame_moves_every_obstacle (props : React) (random : Q) (m : Refs) :
  running props = true ->
  let m0 := loopStart random m in
  let speed := gameSpeed (gameState m) in
  let p := updatePlayer (gravity (gameState m)) (player (gameState m)) in
  Forall (fun o => offScreen (moveObstacle speed o) = false)
    (obstacles (gameState m0)) ->
  obstacles (gameState (fst (updateGame props random m))) =
    map (advance p speed) (obstacles (gameState m0)) /\
  forall o : Obstacle,
    obstacle_rect (advance p speed o) =
      mkGameObject (x o - speed) (y o) (width o) (height o) /\
    passed (advance p speed o) =
      passed o || Num.ltb (x o - speed + width o) (x p + width p / 2).
Proof.
  intros Hrun m0 speed p Hoff. split.
  - rewrite (updateGame_running _ _ _ Hrun). cbn [fst].
    unfold updateDifficulty. cbn [gameState obstacles set_lastObstacleX
      set_obstacleSpawnRate set_gameSpeed].
    unfold forEachObstacle. fold m0.
    apply (forEachFrom_map p speed (obstacles (gameState m0)) [] m0).
    + apply loopStart_player.
    + apply loopStart_gameSpeed.
    + reflexivity.
    + exact Hoff.
  - intros [r pa]. unfold advance, passesNow.
    cbn [moveObstacle passed obstacle_rect x y width height].
    destruct pa, (Num.ltb _ _); split; reflexivity.
Qed.

(** The two obstacles of [twoPassing] at 300 and 340 go to 298.5 and
    338.5 and are both passed. *)
Lemma frame_moves_every_obstacle_witness :
  obstacles (gameState (fst (updateGame startedReact 1 twoPassing))) =
  map (advance (updatePlayer (gravity (gameState twoPassing))
                  (player (gameState twoPassing)))
         (gameSpeed (gameState twoPassing)))
    (obstacles (gameState (loopStart 1 twoPassing))).
Proof.
  refine (proj1 (frame_moves_every_obstacle startedReact 1 twoPassing eq_refl _)).
  cbv. repeat constructor.
Defined.

(** The game of [endsAt 600] ends in the next frame. *)
Lemma game_over_iff_hit_witness :
  gameOver (react (step (Frame 1) (endsAt 600))) = true <->
  Exists (fun v => hits v = true) (frameVisits 1 (endsAt 600)).
Proof. exact (proj1 (game_over_iff_hit (endsAt 600) 1 eq_refl)). Defined.

End Frame.

(** ** What an event leaves in the refs and in the component state *)

Section Steps.

Lemma mount_lifecycle (item : option string) :
  lifecycle (react (fst (mount item))) = lifecycle initialReact.
Proof.
  unfold mount.
  match goal with |- context [commit ?c ?m ?w0] =>
    destruct (commit_facts c m w0) as (Hl & _) end.
  cbn zeta in Hl. rewrite Hl.
  rewrite (highScoreEffect_not_over initialReact) by reflexivity.
  destruct item as [[|c s]|]; reflexivity.
Qed.

Lemma mount_refs (item : option string) :
  refs (fst (mount item)) = mkRefs initialGameState 0.
Proof.
  unfold mount.
  match goal with |- context [commit ?c ?m ?w0] =>
    destruct (commit_facts c m w0) as (_ & Hg & Hc) end.
  cbn zeta in *.
  destruct (refs (fst (commit _ _ _))) as [g c]. cbn [gameState currentScoreRef] in *.
  rewrite Hg, Hc; [reflexivity|].
  rewrite (highScoreEffect_not_over initialReact) by reflexivity.
  destruct item as [[|ch s]|]; reflexivity.
Qed.

Lemma step_lifecycle (e : Event) (w : World) :
  lifecycle (react (step e w)) =
  lifecycle (applyCalls (snd (handle e w)) (react w)).
Proof.
  rewrite step_handle.
  destruct (commit_facts (snd (handle e w)) (fst (handle e w)) w) as (Hl & _).
  exact Hl.
Qed.

Lemma handle_frame (random : Q) (w : World) :
  fst (handle (Frame random) w) =
  render (react w) (fst (updateGame (react w) random (refs w))).
Proof.
  unfold handle. destruct (updateGame (react w) random (refs w)). reflexivity.
Qed.

Lemma render_simulation (props : React) (m : Refs) :
  simulation (gameState (render props m)) = simulation (gameState m) /\
  currentScoreRef (render props m) = currentScoreRef m.
Proof. unfold render. destruct (gameStarted props); split; reflexivity. Qed.

Lemma handle_score (e : Event) (w : World) :
  score (react w) = currentScoreRef (refs w) ->
  score (applyCalls (snd (handle e w)) (react w)) =
  currentScoreRef (fst (handle e w)).
Proof.
  intros Hs. destruct e as [random|]; unfold handle.
  - destruct (updateGame_facts (react w) random (refs w)) as (Hcl & _).
    cbn zeta in Hcl.
    destruct (updateGame (react w) random (refs w)) as [m' calls].
    cbn [fst snd] in *.
    rewrite (applyCalls_score _ _ _ _ Hcl Hs).
    unfold render. destruct (gameStarted (react w)); reflexivity.
  - unfold jump, resetGame.
    destruct (negb (gameStarted (react w)));
      [|destruct (gameOver (react w) || gameWon (react w));
        [|destruct (negb (isJumping (player (gameState (refs w)))))]];
      cbn; auto.
Qed.

(** The effects leave the refs of a state whose score and score ref agree
    as the handler or the frame left them. *)
Lemma step_refs (e : Event) (w : World) :
  score (react w) = currentScoreRef (refs w) ->
  refs (step e w) = fst (handle e w).
Proof.
  intros Hs. rewrite step_handle.
  destruct (commit_facts (snd (handle e w)) (fst (handle e w)) w)
    as (_ & Hg & Hc). cbn zeta in *.
  specialize (Hc (handle_score e w Hs)).
  destruct (refs (fst (commit _ _ w))) as [g c], (fst (handle e w)) as [g' c'].
  cbn [gameState currentScoreRef] in *. congruence.
Qed.

Lemma step_score (e : Event) (w : World) :
  score (react w) = currentScoreRef (refs w) ->
  score (react (step e w)) = currentScoreRef (fst (handle e w)).
Proof.
  intros Hs. pose proof (step_lifecycle e w) as Hl. unfold lifecycle in Hl.
  injection Hl as Hl _ _ _ _. rewrite Hl. apply handle_score, Hs.
Qed.

End Steps.

(** A property of the refs that the initial refs have and that updates,
    drawing and jumps keep, holds in every reachable state. *)
Section RefsInvariant.

Variable P : Refs -> Prop.

Hypothesis P_initial : P (mkRefs initialGameState 0).

Hypothesis P_update : forall (props : React) (random : Q) (m : Refs),
  running props = true -> (0 <= currentScoreRef m)%Z ->
  physicsInv (gameState m) ->
  P m -> P (fst (updateGame props random m)).

Hypothesis P_render : forall (props : React) (m : Refs), P m -> P (render props m).

Hypothesis P_jump : forall m : Refs,
  physicsInv (gameState m) ->
  isJumping (player (gameState m)) = false ->
  P m ->
  P (mkRefs (set_player (mkPlayer (player (gameState m))
                           (jumpPower (gameState m)) true) (gameState m))
       (currentScoreRef m)).

Lemma refs_invariant (w : World) : reachable w -> P (refs w).
Proof.
  induction 1 as [item | e w Hr IH]; [rewrite mount_refs; exact P_initial|].
  destruct (scoreInv_reachable w Hr) as (Hs & H0 & _).
  pose proof (physicsInv_reachable w Hr) as Hph.
  rewrite (step_refs e w Hs). destruct e as [random|]; unfold handle.
  - destruct (running (react w)) eqn:Hrun.
    + pose proof (P_update (react w) random (refs w) Hrun H0 Hph IH) as Hu.
      destruct (updateGame (react w) random (refs w)) as [m' calls].
      apply P_render, Hu.
    + rewrite (updateGame_stopped _ _ _ Hrun). apply P_render, IH.
  - unfold jump, resetGame.
    destruct (negb (gameStarted (react w))); [exact IH|].
    destruct (gameOver (react w) || gameWon (react w)); [exact P_initial|].
    destruct (negb (isJumping (player (gameState (refs w))))) eqn:Hj;
      [|exact IH].
    apply negb_true_iff in Hj. apply P_jump; assumption.
Qed.

End RefsInvariant.

(** ** Difficulty and obstacle generation over a game *)

Section Generation.

Lemma newSpeed_bounds (s : Z) : (0 <= s)%Z -> 1.5 <= newSpeed s <= 6.
Proof.
  intros H. split.
  - apply (Qle_trans _ (newSpeed 0)); [vm_compute; discriminate|].
    apply newSpeed_mono, H.
  - unfold newSpeed. apply (Qle_trans _ 6.0); [apply Q.le_min_r|].
    vm_compute. discriminate.
Qed.

Lemma newSpawnRate_bounds (s : Z) : (0 <= s)%Z -> 0.006 <= newSpawnRate s <= 0.015.
Proof.
  intros H. split.
  - apply (Qle_trans _ (newSpawnRate 0)); [vm_compute; discriminate|].
    apply newSpawnRate_mono, H.
  - unfold newSpawnRate. apply Q.le_min_r.
Qed.

Lemma difficultyInv_reachable (w : World) : reachable w -> difficultyInv (refs w).
Proof.
  apply (refs_invariant difficultyInv).
  - split; vm_compute; reflexivity.
  - intros props random m Hrun _ _ _.
    destruct (updateGame_difficulty props random m Hrun) as [H1 H2].
    cbn zeta in *. unfold difficultyInv. rewrite H1, H2. split; reflexivity.
  - intros props m H. unfold render. destruct (gameStarted props); exact H.
  - intros m _ _ H. exact H.
Qed.

(** X8: in every reachable state the game speed and the spawn rate are
    the values of the difficulty curve at the current score, so the speed is
    between 1.5 and 6 and the spawn rate between 0.006 and 0.015. *)
Theorem difficulty_follows_score (w : World) :
  reachable w ->
  let g := gameState (refs w) in
  let cur := currentScoreRef (refs w) in
  gameSpeed g == newSpeed cur /\ obstacleSpawnRate g == newSpawnRate cur /\
  1.5 <= gameSpeed g <= 6 /\ 0.006 <= obstacleSpawnRate g <= 0.015.
Proof.
  intros Hr g cur. destruct (difficultyInv_reachable w Hr) as [H1 H2].
  destruct (scoreInv_reachable w Hr) as (_ & H0 & _).
  fold g cur in H1, H2. split; [exact H1|]. split; [exact H2|].
  rewrite H1, H2. split; [apply newSpeed_bounds | apply newSpawnRate_bounds]; exact H0.
Qed.

Lemma difficulty_follows_score_witness :
  1.5 <= gameSpeed (gameState (refs playedWorld)) <= 6.
Proof.
  exact (proj1 (proj2 (proj2 (difficulty_follows_score playedWorld
                                playedWorld_reachable)))).
Defined.

Lemma beforeLoop_spawn (random : Q) (g : GameState) :
  let c := Num.ltb random (obstacleSpawnRate g) &&
           Num.gtb (BASE_WIDTH - lastObstacleX g) 400 in
  obstacles (beforeLoop random g) =
    (if c then obstacles g ++ [newObstacle] else obstacles g) /\
  lastObstacleX (beforeLoop random g) =
    (if c then BASE_WIDTH else lastObstacleX g).
Proof.
  cbn zeta. unfold beforeLoop, spawnObstacle, moveGround.
  cbn [set_player set_ground obstacleSpawnRate lastObstacleX obstacles].
  destruct (_ && _); split; reflexivity.
Qed.

Lemma updateGame_lastObstacleX (props : React) (random : Q) (m : Refs) :
  running props = true ->
  let m' := fst (updateGame props random m) in
  lastObstacleX (gameState m') =
  lastObstacleX (beforeLoop random (gameState m)) - newSpeed (currentScoreRef m').
Proof.
  intros Hrun. cbn zeta. rewrite (updateGame_running _ _ _ Hrun). cbn [fst].
  pose proof (forEachFrom_outside
                (length (obstacles (gameState (loopStart random m)))) 0
                (loopStart random m)) as Hout.
  unfold forEachObstacle, updateDifficulty.
  cbn [gameState currentScoreRef lastObstacleX set_lastObstacleX gameSpeed
       set_obstacleSpawnRate set_gameSpeed].
  set (m1 := fst (forEachFrom _ 0 (loopStart random m))) in *.
  assert (Hl : lastObstacleX (gameState m1) =
               lastObstacleX (gameState (loopStart random m)))
    by (unfold outsideLoop in Hout; congruence).
  rewrite Hl. reflexivity.
Qed.

Lemma updateGame_score_le (props : React) (random : Q) (m : Refs) :
  (currentScoreRef m <= currentScoreRef (fst (updateGame props random m)))%Z.
Proof.
  destruct (updateGame_facts props random m) as (Hcl & _). cbn zeta in Hcl.
  apply climbs_length in Hcl. lia.
Qed.

Lemma lastObstacleX_reachable (w : World) :
  reachable w -> lastObstacleX (gameState (refs w)) <= 800.
Proof.
  apply (refs_invariant (fun m => lastObstacleX (gameState m) <= 800)).
  - vm_compute. discriminate.
  - intros props random m Hrun H0 _ H.
    rewrite (updateGame_lastObstacleX _ _ _ Hrun).
    pose proof (updateGame_score_le props random m) as Hle.
    destruct (newSpeed_bounds (currentScoreRef (fst (updateGame props random m))))
      as [Hlo _]; [lia|].
    destruct (beforeLoop_spawn random (gameState m)) as [_ Hl]. cbn zeta in Hl.
    rewrite Hl. destruct (_ && _); unfold BASE_WIDTH; lra.
  - intros props m H. unfold render. destruct (gameStarted props); exact H.
  - intros m _ _ H. exact H.
Qed.

(** A frame takes at most 6 from [lastObstacleX], a press takes nothing. *)
Lemma step_lastObstacleX (e : Event) (w : World) :
  reachable w ->
  lastObstacleX (gameState (refs w)) - inject_Z (Z.of_nat (frameCount [e])) * 6 <=
  lastObstacleX (gameState (refs (step e w))).
Proof.
  intros Hr. destruct (scoreInv_reachable w Hr) as (Hs & H0 & _).
  pose proof (lastObstacleX_reachable w Hr) as H800.
  rewrite (step_refs e w Hs).
  destruct e as [random|]; [rewrite handle_frame | unfold handle];
    [change (inject_Z (Z.of_nat (frameCount [Frame random]))) with 1
    |change (inject_Z (Z.of_nat (frameCount [Press]))) with 0].
  - assert (Hren : forall m, lastObstacleX (gameState (render (react w) m)) =
                             lastObstacleX (gameState m))
      by (intros m; unfold render; destruct (gameStarted (react w)); reflexivity).
    destruct (running (react w)) eqn:Hrun.
    + pose proof (updateGame_lastObstacleX _ random (refs w) Hrun) as Hl.
      pose proof (updateGame_score_le (react w) random (refs w)) as Hle.
      cbn zeta in Hl.
      destruct (newSpeed_bounds
                  (currentScoreRef (fst (updateGame (react w) random (refs w)))))
        as [_ Hhi]; [lia|].
      rewrite Hren, Hl.
      destruct (beforeLoop_spawn random (gameState (refs w))) as [_ Hb].
      cbn zeta in Hb. rewrite Hb. destruct (_ && _); unfold BASE_WIDTH; lra.
    + rewrite Hren, (updateGame_stopped _ _ _ Hrun). cbn [fst]. lra.
  - unfold jump, resetGame.
    destruct (negb (gameStarted (react w))); [cbn [fst]; lra|].
    destruct (gameOver (react w) || gameWon (react w)).
    { cbn [fst gameState initialGameState lastObstacleX]. lra. }
    destruct (negb _); cbn [fst gameState set_player lastObstacleX]; lra.
Qed.

Lemma frameCount_cons (e : Event) (es : list Event) :
  frameCount (e :: es) = (frameCount [e] + frameCount es)%nat.
Proof. unfold frameCount. destruct e; reflexivity. Qed.

Lemma run_lastObstacleX (es : list Event) (w : World) :
  reachable w ->
  lastObstacleX (gameState (refs w)) - 6 * inject_Z (Z.of_nat (frameCount es)) <=
  lastObstacleX (gameState (refs (run es w))).
Proof.
  revert w. induction es as [|e es IH]; intros w Hr.
  - change (run [] w) with w.
    change (inject_Z (Z.of_nat (frameCount []))) with 0. lra.
  - cbn [run fold_left]. fold (run es (step e w)).
    pose proof (IH (step e w) (reach_step e w Hr)) as H1.
    pose proof (step_lastObstacleX e w Hr) as H2.
    rewrite frameCount_cons, Nat2Z.inj_add, inject_Z_plus. lra.
Qed.

Lemma spawns_true (random : Q) (w : World) :
  spawns random w = true <->
  running (react w) = true /\
  random < obstacleSpawnRate (gameState (refs w)) /\
  lastObstacleX (gameState (refs w)) < 400.
Proof.
  unfold spawns. rewrite andb_true_iff, Nat.ltb_lt.
  destruct (beforeLoop_spawn random (gameState (refs w))) as [Ho _].
  cbn zeta in Ho. rewrite Ho.
  destruct (Num.ltb random _) eqn:H1; cbn [andb].
  - apply NumFacts.ltb_lt in H1. unfold Num.gtb.
    destruct (Num.ltb 400 _) eqn:H2.
    + apply NumFacts.ltb_lt in H2. unfold BASE_WIDTH in H2.
      rewrite length_app. cbn [length]. intuition (try lia; try lra).
    + apply NumFacts.ltb_ge in H2. unfold BASE_WIDTH in H2.
      intuition (try lia; try lra).
  - apply NumFacts.ltb_ge in H1. intuition (try lia; try lra).
Qed.

(** X9: an obstacle is generated in a frame of a running game whose random
    value is below the spawn rate when [lastObstacleX] is below 400, and
    after such a frame none is generated in the next 66 frames, whatever the
    random values and however many presses come in between: the frame that
    follows events with fewer than 66 frames among them generates none. *)
Theorem no_spawn_for_66_frames
  (w : World) (random : Q) (es : list Event) (random' : Q) :
  reachable w ->
  spawns random w = true ->
  (frameCount es < 66)%nat ->
  (running (react w) = true /\
   random < obstacleSpawnRate (gameState (refs w)) /\
   lastObstacleX (gameState (refs w)) < 400) /\
  794 <= lastObstacleX (gameState (refs (step (Frame random) w))) /\
  spawns random' (run es (step (Frame random) w)) = false.
Proof.
  intros Hr Hsp Hlen. pose proof (proj1 (spawns_true random w) Hsp) as Hc.
  split; [exact Hc|]. destruct Hc as (Hrun & Hlt & H400).
  assert (H794 : 794 <= lastObstacleX (gameState (refs (step (Frame random) w)))).
  { destruct (scoreInv_reachable w Hr) as (Hs & H0 & _).
    rewrite (step_refs _ w Hs), handle_frame.
    pose proof (updateGame_lastObstacleX _ random (refs w) Hrun) as Hl.
    pose proof (updateGame_score_le (react w) random (refs w)) as Hle.
    cbn zeta in Hl.
    destruct (newSpeed_bounds
                (currentScoreRef (fst (updateGame (react w) random (refs w)))))
      as [_ Hhi]; [lia|].
    assert (Hren : forall m', lastObstacleX (gameState (render (react w) m')) =
                   lastObstacleX (gameState m'))
      by (intros m'; unfold render; destruct (gameStarted (react w)); reflexivity).
    rewrite Hren, Hl.
    destruct (beforeLoop_spawn random (gameState (refs w))) as [_ Hb].
    cbn zeta in Hb. rewrite Hb.
    apply NumFacts.ltb_lt in Hlt. rewrite Hlt. cbn [andb]. unfold Num.gtb.
    assert (H2 : Num.ltb 400 (BASE_WIDTH - lastObstacleX (gameState (refs w))) = true)
      by (apply NumFacts.ltb_lt; unfold BASE_WIDTH; lra).
    rewrite H2. unfold BASE_WIDTH. lra. }
  split; [exact H794|].
  destruct (spawns random' (run es (step (Frame random) w))) eqn:Hsp'; [|reflexivity].
  exfalso. apply spawns_true in Hsp'. destruct Hsp' as (_ & _ & Hlow).
  pose proof (run_lastObstacleX es (step (Frame random) w)
                (reach_step _ w Hr)) as Hrun'.
  assert (Hn : inject_Z (Z.of_nat (frameCount es)) <= 65).
  { change 65 with (inject_Z 65). rewrite <- Zle_Qle. lia. }
  lra.
Qed.

(** The first obstacle of a game can be generated in frame 268; after it,
    65 frames and three presses later, none is. *)
Lemma no_spawn_for_66_frames_witness :
  let w := run (Press :: frames 267 1) (fst (mount None)) in
  spawns 0 (run (Press :: frames 30 0 ++ [Press] ++ frames 35 0 ++ [Press])
              (step (Frame 0) w)) = false.
Proof.
  cbn zeta.
  refine (proj2 (proj2 (no_spawn_for_66_frames _ 0
                          (Press :: frames 30 0 ++ [Press] ++ frames 35 0 ++ [Press]) 0
                          (run_reachable _ _ (reach_mount None)) _ _))).
  - vm_compute. reflexivity.
  - vm_compute. lia.
Defined.

End Generation.

(** ** The shapes of the player and of the obstacles *)

Section Shapes.

Lemma updateGame_player (props : React) (random : Q) (m : Refs) :
  running props = true ->
  player (gameState (fst (updateGame props random m))) =
  updatePlayer (gravity (gameState m)) (player (gameState m)).
Proof.
  intros Hrun. rewrite (updateGame_running _ _ _ Hrun). cbn [fst].
  pose proof (forEachFrom_outside
                (length (obstacles (gameState (loopStart random m)))) 0
                (loopStart random m)) as Hout.
  unfold forEachObstacle, updateDifficulty.
  cbn [gameState player set_lastObstacleX set_obstacleSpawnRate set_gameSpeed].
  set (m1 := fst (forEachFrom _ 0 (loopStart random m))) in *.
  rewrite <- loopStart_player with (random := random).
  unfold outsideLoop in Hout. congruence.
Qed.

Lemma arcAt_next (k : Z) (p : PlayerObject) :
  arcAt k p ->
  velocityY p + 0.3 == inject_Z (3 * (k + 1) - 100) / 10 /\
  y p + (velocityY p + 0.3) ==
    inject_Z (3000 - 197 * (k + 1) + 3 * (k + 1) * (k + 1)) / 20.
Proof.
  intros [Hv Hy]. rewrite Hv, Hy.
  repeat (rewrite ?inject_Z_plus, ?inject_Z_mult, ?inject_Z_opp
          || unfold Z.sub, Qminus).
  split; field.
Qed.

Lemma arcAt_height (k : Z) (p : PlayerObject) : arcAt k p -> -11.7 <= y p.
Proof.
  intros [_ Hy]. rewrite Hy.
  assert (H : (-234 <= 3000 - 197 * k + 3 * k * k)%Z)
    by (destruct (Z_le_gt_dec k 32); nia).
  rewrite Zle_Qle in H. revert H.
  generalize (inject_Z (3000 - 197 * k + 3 * k * k)). intros q H.
  change (inject_Z (-234)) with (-234) in H.
  unfold Qdiv. change (/ 20) with (1 # 20). lra.
Qed.

Lemma updatePlayer_inv (p : PlayerObject) :
  playerInv p -> playerInv (updatePlayer 0.3 p).
Proof.
  intros (Hx & Hw & Hh & Hy & Hk). unfold updatePlayer.
  destruct (isJumping p) eqn:Hj; [|repeat split; try assumption; congruence].
  destruct (Hk eq_refl) as (k & H0 & Ha).
  destruct (Num.geb _ _) eqn:Hg.
  - repeat split; cbn; try assumption; [lra | discriminate].
  - assert (Hlt : y p + (velocityY p + 0.3) < 150).
    { apply Qnot_le_lt. intros Hle. apply NumFacts.geb_ge in Hle. congruence. }
    repeat split; cbn; try assumption; [lra|].
    intros _. exists (k + 1)%Z. split; [lia|]. apply arcAt_next, Ha.
Qed.

Lemma playerInv_reachable (w : World) :
  reachable w -> playerInv (player (gameState (refs w))).
Proof.
  apply (refs_invariant (fun m => playerInv (player (gameState m)))).
  - repeat split; cbn; [lra | discriminate].
  - intros props random m Hrun _ (Hgr & _) H.
    rewrite (updateGame_player _ _ _ Hrun), Hgr. apply updatePlayer_inv, H.
  - intros props m H. unfold render. destruct (gameStarted props); exact H.
  - intros m (_ & Hjp & Hgd) Hj (Hx & Hw & Hh & Hy & _).
    destruct (Hgd Hj) as [Hy0 Hv0].
    cbn [gameState player set_player]. repeat split; cbn; try assumption.
    intros _. exists 0%Z. split; [lia|]. unfold arcAt. cbn.
    rewrite Hjp, Hy0. split; reflexivity.
Qed.

(** X10: in every reachable state the player is at x = [PLAYER_X_POS] and
    40 by 40; it is never below its rest position y = 150, where it is with
    velocity 0 whenever it is not jumping, and a jump never takes it above
    y = -12 (the top of the arc is at y = -11.7, above the canvas). *)
Theorem player_bounds (w : World) :
  reachable w ->
  let p := player (gameState (refs w)) in
  x p = PLAYER_X_POS /\ width p = 40 /\ height p = 40 /\
  -12 <= y p <= 150 /\
  (isJumping p = false -> y p = 150 /\ velocityY p = 0).
Proof.
  intros Hr. cbn zeta.
  destruct (playerInv_reachable w Hr) as (Hx & Hw & Hh & Hy & Hk).
  destruct (physicsInv_reachable w Hr) as (_ & _ & Hgd).
  split; [exact Hx|]. split; [exact Hw|]. split; [exact Hh|].
  split; [|exact Hgd]. split; [|exact Hy].
  destruct (isJumping (player (gameState (refs w)))) eqn:Hj.
  - destruct (Hk eq_refl) as (k & _ & Ha).
    apply (Qle_trans _ (-11.7)); [vm_compute; discriminate|].
    apply (arcAt_height k), Ha.
  - destruct (Hgd eq_refl) as [Hy0 _]. rewrite Hy0. vm_compute. discriminate.
Qed.

(** The player 33 frames into the first jump of a game is at y = -11.7. *)
Lemma player_bounds_witness :
  let w := run (Press :: Press :: frames 33 1) (fst (mount None)) in
  y (player (gameState (refs w))) == -11.7 /\
  -12 <= y (player (gameState (refs w))) <= 150.
Proof.
  cbn zeta. split; [vm_compute; reflexivity|].
  exact (proj1 (proj2 (proj2 (proj2
    (player_bounds _ (run_reachable _ _ (reach_mount None))))))).
Defined.

End Shapes.

(** ** Winning, theme and best score over a game *)

Section Game.

Lemma handle_frame_calls (random : Q) (w : World) :
  snd (handle (Frame random) w) = snd (updateGame (react w) random (refs w)).
Proof.
  unfold handle. destruct (updateGame (react w) random (refs w)). reflexivity.
Qed.

Lemma visitObstacle_won (o : Obstacle) (k : nat) (m : Refs) :
  In (SetGameWon true) (snd (visitObstacle o k m)) ->
  (MAX_SCORE <= currentScoreRef (fst (visitObstacle o k m)))%Z.
Proof.
  unfold visitObstacle, scoreObstacle, checkThemeChange.
  destruct (passesNow _ _);
    [destruct (_ <? _)%Z; destruct (MAX_SCORE <=? _)%Z eqn:Hmax|];
    cbn [fst snd gameState set_lastThemeChangeScore player app currentScoreRef];
    destruct (checkCollision _ _); cbn [In app];
    try apply Z.leb_le in Hmax; intuition congruence.
Qed.

Lemma forEachFrom_won_only (n k : nat) (m : Refs) :
  (currentScoreRef m <= currentScoreRef (fst (forEachFrom n k m)))%Z /\
  (In (SetGameWon true) (snd (forEachFrom n k m)) ->
   (MAX_SCORE <= currentScoreRef (fst (forEachFrom n k m)))%Z).
Proof.
  apply (forEachFrom_ind
           (fun m calls m2 =>
              (currentScoreRef m <= currentScoreRef m2)%Z /\
              (In (SetGameWon true) calls -> (MAX_SCORE <= currentScoreRef m2)%Z))).
  - intros m0. split; [lia | intros []].
  - intros o k0 m0 m2 calls2 _ [Hle Hin].
    destruct (visitObstacle_facts o k0 m0) as (Hc & _). cbn zeta in Hc.
    pose proof (visitObstacle_won o k0 m0) as Hw.
    assert (Hle0 : (currentScoreRef m0 <=
                    currentScoreRef (fst (visitObstacle o k0 m0)))%Z)
      by (rewrite Hc; destruct (newlyPassed o m0); lia).
    split; [lia|]. rewrite in_app_iff. intros [H|H]; [|exact (Hin H)].
    specialize (Hw H). lia.
Qed.

(** Only a score of [MAX_SCORE] or more makes an update call
    [setGameWon(true)]. *)
Lemma updateGame_won_only (props : React) (random : Q) (m : Refs) :
  In (SetGameWon true) (snd (updateGame props random m)) ->
  (MAX_SCORE <= currentScoreRef (fst (updateGame props random m)))%Z.
Proof.
  destruct (running props) eqn:Hrun.
  - rewrite (updateGame_running _ _ _ Hrun). cbn [fst snd].
    unfold updateDifficulty, forEachObstacle. cbn [currentScoreRef].
    apply forEachFrom_won_only.
  - rewrite (updateGame_stopped _ _ _ Hrun). intros [].
Qed.

Lemma running_true (r : React) :
  running r = true <->
  gameStarted r = true /\ gameOver r = false /\ gameWon r = false.
Proof.
  unfold running. destruct (gameStarted r), (gameOver r), (gameWon r);
    cbn; intuition congruence.
Qed.

Lemma wonInv_reachable (w : World) :
  reachable w -> gameWon (react w) = (MAX_SCORE <=? score (react w))%Z.
Proof.
  induction 1 as [item | e w Hr IH].
  - pose proof (mount_lifecycle item) as Hl. unfold lifecycle in Hl.
    injection Hl as -> _ _ -> _. reflexivity.
  - destruct (scoreInv_reachable w Hr) as (Hs & _).
    pose proof (step_lifecycle e w) as Hl. unfold lifecycle in Hl.
    injection Hl as Hsc _ _ Hw _. rewrite Hsc, Hw. clear Hsc Hw.
    destruct e as [random|].
    + rewrite handle_frame_calls.
      destruct (updateGame_facts (react w) random (refs w))
        as (Hcl & Hcalls & _ & Hwon). cbn zeta in *.
      pose proof (updateGame_won_only (react w) random (refs w)) as Honly.
      destruct (applyCalls_frame _ Hcalls (react w) None)
        as (_ & _ & Hin & _ & Hout & _). cbn zeta in *.
      rewrite (applyCalls_score _ _ _ _ Hcl Hs).
      destruct (running (react w)) eqn:Hrun.
      * apply running_true in Hrun. destruct Hrun as (_ & _ & Hnw).
        rewrite Hnw in IH. symmetry in IH. apply Z.leb_gt in IH.
        destruct (MAX_SCORE <=? _)%Z eqn:Hmax.
        -- apply Z.leb_le in Hmax. apply Hin. right. apply Hwon; lia.
        -- apply Z.leb_gt in Hmax. rewrite Hout, Hnw; [reflexivity|].
           intros Hi. specialize (Honly Hi). lia.
      * rewrite (updateGame_stopped _ _ _ Hrun) in *. cbn [fst snd] in *.
        rewrite <- Hs. exact IH.
    + unfold handle, jump, resetGame.
      destruct (negb (gameStarted (react w))); [exact IH|].
      destruct (gameOver (react w) || gameWon (react w)); [reflexivity|].
      destruct (negb _); exact IH.
Qed.

(** X11: in every reachable state the game is won exactly when the score
    is at least [MAX_SCORE] = 99999; as scores are multiples of 10, the score
    of a won game is at least 100000. *)
Theorem won_iff_max_score (w : World) :
  reachable w ->
  (gameWon (react w) = true <-> (MAX_SCORE <= score (react w))%Z) /\
  (gameWon (react w) = true -> (100000 <= score (react w))%Z).
Proof.
  intros Hr. pose proof (wonInv_reachable w Hr) as Hw.
  destruct (scoreInv_reachable w Hr) as (Hs & _ & [q Hq] & _).
  rewrite Hw, Z.leb_le. split; [tauto|]. unfold MAX_SCORE. lia.
Qed.

Lemma won_iff_max_score_witness :
  gameWon (react playedWorld) = true <-> (MAX_SCORE <= score (react playedWorld))%Z.
Proof. exact (proj1 (won_iff_max_score playedWorld playedWorld_reachable)). Defined.

Lemma iter_negb_odd (t : nat) (a : Z) :
  Nat.iter t negb (Z.odd a) = Z.odd (a + Z.of_nat t).
Proof.
  induction t as [|t IH]; [rewrite Z.add_0_r; reflexivity|].
  change (Nat.iter (S t) negb (Z.odd a)) with (negb (Nat.iter t negb (Z.odd a))).
  rewrite IH, Nat2Z.inj_succ, Z.add_succ_r, Z.odd_succ.
  apply Z.negb_odd.
Qed.

(** X12: in every reachable state the theme is dark exactly when the
    number of completed blocks of 120 points, [Math.floor(score / 120)], is
    odd. *)
Theorem theme_follows_score (w : World) :
  reachable w -> darkTheme (react w) = Z.odd (score (react w) / 120).
Proof.
  induction 1 as [item | e w Hr IH].
  - pose proof (mount_lifecycle item) as Hl. unfold lifecycle in Hl.
    injection Hl as -> _ _ _ ->. reflexivity.
  - destruct (scoreInv_reachable w Hr) as (Hs & _ & _ & Ht).
    pose proof (step_lifecycle e w) as Hl. unfold lifecycle in Hl.
    injection Hl as Hsc _ _ _ Hd. rewrite Hsc, Hd. clear Hsc Hd.
    destruct e as [random|].
    + rewrite handle_frame_calls.
      destruct (updateGame_facts (react w) random (refs w))
        as (Hcl & Hcalls & Hth & _). cbn zeta in *.
      destruct (Hth Ht) as [_ Htog].
      destruct (applyCalls_frame _ Hcalls (react w) None)
        as (_ & _ & _ & _ & _ & _ & Hdark & _). cbn zeta in *.
      rewrite (applyCalls_score _ _ _ _ Hcl Hs), Hdark, IH, iter_negb_odd.
      rewrite Htog, Hs. f_equal. lia.
    + unfold handle, jump, resetGame.
      destruct (negb (gameStarted (react w))); [exact IH|].
      destruct (gameOver (react w) || gameWon (react w)); [reflexivity|].
      destruct (negb _); exact IH.
Qed.

Lemma theme_follows_score_witness :
  darkTheme (react playedWorld) = Z.odd (score (react playedWorld) / 120).
Proof. exact (theme_follows_score playedWorld playedWorld_reachable). Defined.

(** X13: when a frame ends a game whose score state and score ref agree,
    the high score becomes the larger of the old high score and the final
    score (NaN stays NaN), and the store receives the decimal string of the
    final score exactly when that score is above the old high score. *)
Theorem game_over_records_best (w : World) (random : Q) :
  score (react w) = currentScoreRef (refs w) ->
  gameOver (react w) = false ->
  let w' := step (Frame random) w in
  let final := score (react w') in
  gameOver (react w') = true ->
  highScore (react w') = better (highScore (react w)) final /\
  storedItem w' =
    (if Num.int_gtb final (highScore (react w))
     then Some (Num.toString final) else storedItem w).
Proof.
  intros Hs Ho w' final Hov.
  pose proof (game_over_high_score w random Hs Ho Hov) as H.
  assert (Hf : final = currentScoreRef (refs w')).
  { unfold final, w'. rewrite (step_score _ w Hs), (step_refs _ w Hs).
    reflexivity. }
  fold w' in H. rewrite <- Hf in H.
  destruct (Num.int_gtb final (highScore (react w))) eqn:Hgt.
  - destruct H as (-> & -> & _). split; [|reflexivity].
    destruct (highScore (react w)) as [|h]; [discriminate|].
    cbn in Hgt. apply Z.ltb_lt in Hgt. cbn. f_equal. lia.
  - destruct H as (-> & -> & _). split; [|reflexivity].
    destruct (highScore (react w)) as [|h]; [reflexivity|].
    cbn in Hgt. apply Z.ltb_ge in Hgt. cbn. f_equal. lia.
Qed.

(** A game with 600 points ends while the high score is 500. *)
Lemma game_over_records_best_witness :
  highScore (react (step (Frame 1) (endsAt 600))) = Int 600 /\
  storedItem (step (Frame 1) (endsAt 600)) = Some "600"%string.
Proof.
  exact (game_over_records_best (endsAt 600) 1 eq_refl eq_refl eq_refl).
Defined.

End Game.

(** ** Where an obstacle hits the player *)

Section HitZone.

Lemma Forall_sublist_of {A : Type} (P : A -> Prop) (l1 l2 : list A) :
  l1 `sublist_of` l2 -> Forall P l2 -> Forall P l1.
Proof.
  induction 1 as [|a l1 l2 _ IH|a l1 l2 _ IH]; intros H.
  - constructor.
  - constructor; [exact (Forall_inv H) | exact (IH (Forall_inv_tail H))].
  - exact (IH (Forall_inv_tail H)).
Qed.

Lemma Exists_Forall_iff {A : Type} (P Q : A -> Prop) (l : list A) :
  Forall (fun a => P a <-> Q a) l -> (Exists P l <-> Exists Q l).
Proof.
  induction 1 as [|a l Ha _ IH]; [rewrite !Exists_nil; tauto|].
  rewrite !Exists_cons. tauto.
Qed.

Lemma visited_shape (o : Obstacle) (m : Refs) :
  0 <= gameSpeed (gameState m) -> obstacleShape o -> obstacleShape (visited o m).
Proof.
  intros Hs (Hy & Hw & Hh & Hx). unfold obstacleShape.
  rewrite visited_rect. cbn [moveObstacle obstacle_rect x y width height].
  repeat split; try assumption. lra.
Qed.

Lemma forEachFrom_shape (n k : nat) (m : Refs) :
  Forall obstacleShape (obstacles (gameState m)) ->
  0 <= gameSpeed (gameState m) ->
  Forall obstacleShape (obstacles (gameState (fst (forEachFrom n k m)))).
Proof.
  apply (forEachFrom_ind
           (fun m calls m2 =>
              Forall obstacleShape (obstacles (gameState m)) ->
              0 <= gameSpeed (gameState m) ->
              Forall obstacleShape (obstacles (gameState m2)))).
  - intros m0 H _. exact H.
  - intros o k0 m0 m2 calls2 Hk IH Hall Hsp.
    pose proof (visitObstacle_outside o k0 m0) as Hout.
    pose proof (visited_shape o m0 Hsp (Forall_lookup_1 _ _ _ _ Hall Hk)) as Hv.
    apply IH.
    + rewrite visitObstacle_obstacles.
      destruct (offScreen _); [apply Forall_delete|]; apply Forall_insert;
        assumption.
    + unfold outsideLoop in Hout.
      replace (gameSpeed (gameState (fst (visitObstacle o k0 m0))))
        with (gameSpeed (gameState m0)) by congruence.
      exact Hsp.
Qed.

Lemma loopStart_shape (random : Q) (m : Refs) :
  Forall obstacleShape (obstacles (gameState m)) ->
  Forall obstacleShape (obstacles (gameState (loopStart random m))).
Proof.
  intros H. unfold loopStart. cbn [gameState].
  destruct (beforeLoop_spawn random (gameState m)) as [-> _].
  destruct (_ && _); [|exact H].
  apply Forall_app. split; [exact H|]. constructor; [|constructor].
  unfold obstacleShape, newObstacle. cbn. repeat split. lra.
Qed.

Lemma obstacleShape_reachable (w : World) :
  reachable w ->
  Forall obstacleShape (obstacles (gameState (refs w))) /\
  0 <= gameSpeed (gameState (refs w)).
Proof.
  apply (refs_invariant
           (fun m => Forall obstacleShape (obstacles (gameState m)) /\
                     0 <= gameSpeed (gameState m))).
  - split; [constructor | vm_compute; discriminate].
  - intros props random m Hrun H0 _ [Hall Hsp]. split.
    + rewrite (updateGame_running _ _ _ Hrun). cbn [fst].
      unfold updateDifficulty, forEachObstacle.
      cbn [gameState obstacles set_lastObstacleX set_obstacleSpawnRate
           set_gameSpeed].
      apply forEachFrom_shape; [apply loopStart_shape, Hall|].
      rewrite loopStart_gameSpeed. exact Hsp.
    + destruct (updateGame_difficulty props random m Hrun) as [-> _].
      pose proof (updateGame_score_le props random m) as Hle.
      destruct (newSpeed_bounds (currentScoreRef (fst (updateGame props random m))))
        as [Hlo _]; [lia | lra].
  - intros props m H. unfold render. destruct (gameStarted props); exact H.
  - intros m _ _ H. exact H.
Qed.

(** X14: in every reachable state every obstacle of the array is as it
    was generated but for its x: at y = 175, 18 wide and 25 high, with its
    left edge at most at [BASE_WIDTH]. *)
Theorem obstacles_keep_shape (w : World) :
  reachable w ->
  Forall (fun o : Obstacle =>
            y o = 175 /\ width o = 18 /\ height o = 25 /\ x o <= BASE_WIDTH)
    (obstacles (gameState (refs w))).
Proof. intros Hr. apply (obstacleShape_reachable w Hr). Qed.

Lemma obstacles_keep_shape_witness :
  Forall (fun o : Obstacle =>
            y o = 175 /\ width o = 18 /\ height o = 25 /\ x o <= BASE_WIDTH)
    (obstacles (gameState (refs playedWorld))).
Proof. exact (obstacles_keep_shape playedWorld playedWorld_reachable). Defined.

Lemma collision_zone (p : PlayerObject) (o : GameObject) :
  playerInv p -> y o = 175 -> width o = 18 -> height o = 25 ->
  (checkCollision p o = true <-> 362 < x o < 420 /\ 135 < y p).
Proof.
  intros (Hx & Hw & Hh & Hy & _) Hyo Hwo Hho.
  assert (E : PLAYER_X_POS == 380) by (vm_compute; reflexivity).
  unfold checkCollision, Num.gtb.
  rewrite !andb_true_iff, !NumFacts.ltb_lt, Hx, Hw, Hh, Hyo, Hwo, Hho.
  revert E. generalize PLAYER_X_POS. intros q E. split; intros H; lra.
Qed.

Lemma frameVisits_shape (w : World) (random : Q) :
  reachable w ->
  Forall (fun v => obstacleShape (fst v)) (frameVisits random w).
Proof.
  intros Hr. destruct (obstacleShape_reachable w Hr) as [Hall _].
  unfold frameVisits. destruct (running (react w)); [|constructor].
  pose proof (visitsFrom_sublist
                (length (obstacles (gameState (loopStart random (refs w))))) 0
                (loopStart random (refs w))) as Hsub.
  rewrite drop_0 in Hsub.
  apply (Forall_fmap fst obstacleShape).
  exact (Forall_sublist_of _ _ _ Hsub (loopStart_shape random _ Hall)).
Qed.

(** In a reachable state, what the collision test of a call of the callback
    comes to. *)
Lemma frameVisits_hits (w : World) (random : Q) :
  reachable w ->
  let g := gameState (refs w) in
  let p := updatePlayer (gravity g) (player g) in
  Forall (fun v => hits v = true <-> 135 < y p /\ inHitZone v)
    (frameVisits random w).
Proof.
  intros Hr g p.
  assert (Hp : playerInv p).
  { destruct (physicsInv_reachable w Hr) as (Hgr & _). unfold p, g.
    rewrite Hgr. apply updatePlayer_inv, playerInv_reachable, Hr. }
  pose proof (frameVisits_shape w random Hr) as H1.
  pose proof (frameVisits_player w random) as H2. cbn zeta in H2.
  eapply Forall_impl; [apply Forall_and; split; [exact H1 | exact H2]|].
  cbn beta.
  intros [o m] [(Hy & Hwi & Hh & _) [Hpl Hsp]]. cbn [fst snd] in *.
  unfold hits, inHitZone. cbn [fst snd]. rewrite Hpl. fold g p.
  rewrite (collision_zone p (visited o m) Hp);
    rewrite ?visited_rect; cbn [moveObstacle obstacle_rect x y width height];
    try assumption.
  tauto.
Qed.

(** X15: a frame ends a game that is not over, in a reachable state,
    exactly when the player, after its physics step, is lower than y = 135
    and the left edge of one of the obstacles the callback is called on,
    once moved, is strictly between 362 and 420. *)
Theorem game_over_in_hit_zone (w : World) (random : Q) :
  reachable w ->
  gameOver (react w) = false ->
  let g := gameState (refs w) in
  let p := updatePlayer (gravity g) (player g) in
  gameOver (react (step (Frame random) w)) = true <->
  135 < y p /\ Exists inHitZone (frameVisits random w).
Proof.
  intros Hr Ho g p.
  rewrite (frame_over_hits w random Ho).
  rewrite (Exists_Forall_iff _ _ _ (frameVisits_hits w random Hr)). fold g p.
  rewrite !Exists_exists. split.
  - intros (v & Hv & Hy & Hz). split; [exact Hy|]. exists v. auto.
  - intros (Hy & v & Hv & Hz). exists v. auto.
Qed.

Lemma game_over_in_hit_zone_witness :
  let w := step Press (fst (mount None)) in
  gameOver (react (step (Frame 0) w)) = true <->
  135 < y (updatePlayer (gravity (gameState (refs w))) (player (gameState (refs w)))) /\
  Exists inHitZone (frameVisits 0 w).
Proof.
  exact (game_over_in_hit_zone (step Press (fst (mount None))) 0
           (reach_step Press _ (reach_mount None)) eq_refl).
Defined.

End HitZone.

(** ** Canvas size *)

Section Resize.

(** X16: the canvas [handleResize] asks for has the width of the
    container and the 800:250 aspect ratio rounded down to whole pixels:
    16 times the height is at most 5 times the width and falls short of it
    by less than 16. *)
Theorem resize_keeps_aspect (containerWidth : Z) :
  let size := fst (handleResize containerWidth) in
  canvasWidth size = containerWidth /\
  (16 * canvasHeight size <= 5 * containerWidth < 16 * canvasHeight size + 16)%Z.
Proof.
  cbn zeta. unfold handleResize. cbn [fst canvasWidth canvasHeight].
  split; [reflexivity|].
  unfold Qfloor, BASE_HEIGHT, BASE_WIDTH. cbn [Qmult Qdiv Qinv Qnum Qden inject_Z].
  cbn [Z.mul Pos.mul]. 
  match goal with |- context [(?a / ?b)%Z] =>
    pose proof (Z.div_mod a b ltac:(discriminate));
    pose proof (Z.mod_pos_bound a b ltac:(reflexivity))
  end.
  lia.
Qed.

End Resize.

(** ** After the game is over *)

Section Over.

Lemma over_not_running (r : React) : gameOver r = true -> running r = false.
Proof.
  intros H. unfold running. rewrite H.
  destruct (gameStarted r), (gameWon r); reflexivity.
Qed.

Lemma frame_step_stopped (random : Q) (w : World) :
  running (react w) = false ->
  step (Frame random) w =
  mkWorld (react w) (render (react w) (refs w)) (storedItem w).
Proof. intros H. unfold step. rewrite (frame_stopped random w H). reflexivity. Qed.

(** X17: once the game is over, animation frames leave the component
    state, the store, the score and the whole simulation as they are; the
    one thing that still moves is the counter of the leg animation, by
    [animationSpeed * (gameSpeed / 1.5)] per frame. *)
Theorem game_over_stops_the_game (w : World) (randoms : list Q) :
  gameOver (react w) = true ->
  let g := gameState (refs w) in
  let w' := run (map Frame randoms) w in
  react w' = react w /\ storedItem w' = storedItem w /\
  currentScoreRef (refs w') = currentScoreRef (refs w) /\
  simulation (gameState (refs w')) = simulation (gameState (refs w)) /\
  animationSpeed (gameState (refs w')) = animationSpeed g /\
  animationFrame (gameState (refs w')) ==
    animationFrame g +
    (if gameStarted (react w)
     then inject_Z (Z.of_nat (length randoms)) * legStep g else 0).
Proof.
  intros Ho. cbn zeta.
  destruct (frames_stopped randoms w (over_not_running _ Ho)) as (Hr & Hs & Hc & Hg).
  cbn zeta in *. repeat (split; [assumption|]).
  clear Hr Hs Hc Hg. revert w Ho.
  induction randoms as [|random rest IH]; intros w Ho.
  { split; [reflexivity|]. cbn [map run fold_left length Z.of_nat].
    destruct (gameStarted (react w)); change (inject_Z 0) with 0; ring. }
  cbn [map run fold_left].
  change (fold_left _ (map Frame rest) ?w') with (run (map Frame rest) w').
  rewrite (frame_step_stopped random w (over_not_running _ Ho)).
  destruct (IH (mkWorld (react w) (render (react w) (refs w)) (storedItem w)) Ho)
    as [Hsp Haf].
  cbn [react refs] in *. rewrite Hsp, Haf. clear Hsp Haf.
  unfold render, legStep. destruct (gameStarted (react w)).
  - cbn [gameState animationSpeed animationFrame gameSpeed set_animationFrame].
    split; [reflexivity|].
    cbn [length]. rewrite Nat2Z.inj_succ, <- Z.add_1_r, inject_Z_plus.
    change (inject_Z 1) with 1. ring.
  - split; [reflexivity|]. ring.
Qed.

(** Two frames after a game ended at 30 points. *)
Lemma game_over_stops_the_game_witness :
  let w := mkWorld (mkReact 30 (Int 500) true true false true)
             twoOffScreen (Some "500"%string) in
  react (run (map Frame [0; 1]) w) = react w /\
  storedItem (run (map Frame [0; 1]) w) = storedItem w.
Proof.
  cbn zeta.
  destruct (game_over_stops_the_game
              (mkWorld (mkReact 30 (Int 500) true true false true)
                 twoOffScreen (Some "500"%string)) [0; 1] eq_refl)
    as (H1 & H2 & _).
  split; [exact H1 | exact H2].
Defined.

Lemma covers_notBelow (h h' : JsNumber) (n : Z) :
  covers h n -> notBelow h h' -> covers h' n.
Proof. destruct h, h'; cbn; try tauto; lia. Qed.

Lemma covers_better (h : JsNumber) (n : Z) : covers (better h n) n.
Proof. destruct h; cbn; [exact Logic.I | lia]. Qed.

(** X18: whenever the game is over, the high score is at least the score
    of the game that ended, unless it is not a number: from any state in
    which the score state and the score ref agree and this holds, it holds
    after any sequence of events. *)
Theorem high_score_covers_final_score (w : World) (es : list Event) :
  score (react w) = currentScoreRef (refs w) ->
  (gameOver (react w) = true -> covers (highScore (react w)) (score (react w))) ->
  let w' := run es w in
  gameOver (react w') = true ->
  covers (highScore (react w')) (score (react w')).
Proof.
  cbn zeta. revert w. induction es as [|e es IH]; intros w Hs Hcov; [exact Hcov|].
  cbn [run fold_left]. fold (run es (step e w)). apply IH.
  { rewrite (step_score e w Hs), (step_refs e w Hs). reflexivity. }
  clear IH es. intros Hov.
  pose proof (step_notBelow e w) as Hnb.
  destruct e as [random|].
  - destruct (gameOver (react w)) eqn:Ho.
    + rewrite (frame_step_stopped random w (over_not_running _ Ho)) in *.
      cbn [react] in *. apply Hcov. reflexivity.
    + pose proof (game_over_high_score w random Hs Ho Hov) as H.
      assert (Hf : score (react (step (Frame random) w)) =
                   currentScoreRef (refs (step (Frame random) w))).
      { rewrite (step_score _ w Hs), (step_refs _ w Hs). reflexivity. }
      rewrite <- Hf in H.
      destruct (Num.int_gtb _ _) eqn:Hgt.
      * destruct H as (-> & _). cbn. lia.
      * destruct H as (-> & _).
        destruct (highScore (react w)) as [|h]; [exact Logic.I|].
        cbn in Hgt. apply Z.ltb_ge in Hgt. cbn. lia.
  - pose proof (step_lifecycle Press w) as Hl. unfold lifecycle in Hl.
    injection Hl as Hsc Hgo _ _ _.
    change (fst (press w)) with (step Press w) in Hsc, Hgo.
    rewrite Hsc. rewrite Hgo in Hov.
    revert Hov. unfold handle, jump, resetGame.
    destruct (negb (gameStarted (react w)));
      [|destruct (gameOver (react w) || gameWon (react w));
        [|destruct (negb (isJumping (player (gameState (refs w)))))]];
      cbn [snd applyCalls fold_left applyCall gameOver score];
      try discriminate;
      intros Hov; exact (covers_notBelow _ _ _ (Hcov Hov) Hnb).
Qed.

(** A game with 600 points that ends while the high score is 500. *)
Lemma high_score_covers_final_score_witness :
  covers (highScore (react (run [Frame 1] (endsAt 600))))
    (score (react (run [Frame 1] (endsAt 600)))).
Proof.
  refine (high_score_covers_final_score (endsAt 600) [Frame 1] eq_refl _ _).
  - discriminate.
  - vm_compute. reflexivity.
Defined.

End Over.

(** ** The score on the canvas *)

Section ScoreText.

Lemma length_append (s1 s2 : string) :
  String.length (s1 ++ s2) = (String.length s1 + String.length s2)%nat.
Proof. induction s1 as [|c s1 IH]; cbn; [reflexivity | rewrite IH; reflexivity]. Qed.

Lemma length_zeros (k : nat) (c : ascii) :
  String.length (string_of_list_ascii (repeat c k)) = k.
Proof. induction k as [|k IH]; cbn; [reflexivity | rewrite IH; reflexivity]. Qed.

Lemma digits_zeros (k : nat) (s : string) :
  Num.digits (Some 0%Z) (string_of_list_ascii (repeat "0"%char k) ++ s) =
  Num.digits (Some 0%Z) s.
Proof. induction k as [|k IH]; [reflexivity | exact IH]. Qed.

Lemma toString_pos (p : BinNums.positive) :
  Num.toString (Z.pos p) = NilEmpty.string_of_uint (Pos.to_uint p).
Proof.
  unfold Num.toString. cbn [Z.to_int NilZero.string_of_int].
  pose proof (DecimalPos.Unsigned.to_uint_nonnil p) as Hn.
  unfold NilZero.string_of_uint. destruct (Pos.to_uint p); [congruence | ..];
    reflexivity.
Qed.

(** After a zero, the digits of a number that is not negative are read as
    without it. *)
Lemma digits_after_zero (n : Z) :
  (0 <= n)%Z -> Num.digits (Some 0%Z) (Num.toString n) = Some n.
Proof.
  intros H. destruct n as [|p|p]; [reflexivity | | lia].
  rewrite toString_pos, digits_string_of_uint, uvalue_to_uint. reflexivity.
Qed.

Lemma parseInt_padStart (k : nat) (n : Z) :
  (0 <= n)%Z ->
  Num.parseInt (string_of_list_ascii (repeat "0"%char k) ++ Num.toString n) = Int n.
Proof.
  intros H. destruct k as [|k]; [apply parseInt_toString|].
  unfold Num.parseInt. cbn [repeat string_of_list_ascii append Num.trimStart].
  change (Num.isWhiteSpace "0") with false. cbn iota.
  cbn [Num.digits]. change (Num.digit "0") with (Some 0%Z). cbn iota.
  change (10 * default 0 None + 0)%Z with 0%Z.
  rewrite digits_zeros, (digits_after_zero n H). f_equal. lia.
Qed.

(** X19: in every reachable state the digits drawn for the score are at
    least five characters, as many as the longer of 5 and the decimal
    numeral of the score, and read back as the score of the component
    state. *)
Theorem score_digits_read_back (w : World) :
  reachable w ->
  (5 <= String.length (scoreDigits (refs w)))%nat /\
  String.length (scoreDigits (refs w)) =
    Nat.max 5 (String.length (Num.toString (score (react w)))) /\
  Num.parseInt (scoreDigits (refs w)) = Int (score (react w)).
Proof.
  intros Hr. destruct (scoreInv_reachable w Hr) as (Hs & H0 & _).
  unfold scoreDigits, padStart. rewrite Hs, length_append, length_zeros.
  split; [lia|]. split; [lia|]. apply parseInt_padStart, H0.
Qed.

Lemma score_digits_read_back_witness :
  Num.parseInt (scoreDigits (refs playedWorld)) = Int (score (react playedWorld)).
Proof.
  exact (proj2 (proj2 (score_digits_read_back playedWorld playedWorld_reachable))).
Defined.

End ScoreText.

(** ** The passed flag *)

Section Passed.

Lemma advance_passed (p : PlayerObject) (speed : Q) (o : Obstacle) :
  playerInv p -> 0 <= speed -> passedInv o -> passedInv (advance p speed o).
Proof.
  intros (Hx & Hw & _) Hs Hp. unfold passedInv in *.
  assert (E : PLAYER_X_POS + 40 / 2 == 400) by (vm_compute; reflexivity).
  destruct o as [r pa]. unfold advance, passesNow.
  cbn [moveObstacle passed obstacle_rect x y width height] in *.
  rewrite Hx, Hw. revert E. generalize (PLAYER_X_POS + 40 / 2). intros c E.
  destruct (Num.ltb (x r - speed + width r) c) eqn:H1;
    destruct (Num.ltb (x r - speed + width r) 400) eqn:H2;
    destruct (Num.ltb (x r + width r) 400) eqn:H3; subst pa;
    cbn [negb andb markPassed passed obstacle_rect moveObstacle x width];
    rewrite ?H2; try reflexivity; exfalso;
    rewrite ?NumFacts.ltb_lt, ?NumFacts.ltb_ge in *; lra.
Qed.

Lemma forEachFrom_passed (n k : nat) (m : Refs) :
  playerInv (player (gameState m)) -> 0 <= gameSpeed (gameState m) ->
  Forall passedInv (obstacles (gameState m)) ->
  Forall passedInv (obstacles (gameState (fst (forEachFrom n k m)))).
Proof.
  apply (forEachFrom_ind
           (fun m calls m2 =>
              playerInv (player (gameState m)) -> 0 <= gameSpeed (gameState m) ->
              Forall passedInv (obstacles (gameState m)) ->
              Forall passedInv (obstacles (gameState m2)))).
  - intros m0 _ _ H. exact H.
  - intros o k0 m0 m2 calls2 Hk IH Hp Hsp Hall.
    pose proof (visitObstacle_outside o k0 m0) as Hout.
    assert (Hv : passedInv (visited o m0)).
    { rewrite visited_advance.
      apply advance_passed; [exact Hp | exact Hsp |].
      exact (Forall_lookup_1 _ _ _ _ Hall Hk). }
    unfold outsideLoop in Hout. apply IH.
    + replace (player (gameState (fst (visitObstacle o k0 m0))))
        with (player (gameState m0)) by congruence.
      exact Hp.
    + replace (gameSpeed (gameState (fst (visitObstacle o k0 m0))))
        with (gameSpeed (gameState m0)) by congruence.
      exact Hsp.
    + rewrite visitObstacle_obstacles.
      destruct (offScreen _); [apply Forall_delete|]; apply Forall_insert;
        assumption.
Qed.

(** X20: in every reachable state an obstacle of the array is marked as
    passed exactly if its right edge is left of x = 400, the centre of the
    player: every obstacle counts once, in the frame that moves its right
    edge across the centre. *)
Theorem passed_iff_behind_centre (w : World) :
  reachable w ->
  Forall (fun o : Obstacle => passed o = true <-> x o + width o < 400)
    (obstacles (gameState (refs w))).
Proof.
  intros Hr.
  assert (H : Forall passedInv (obstacles (gameState (refs w)))).
  { induction Hr as [item | e w Hr IH]; [rewrite mount_refs; constructor|].
    destruct (scoreInv_reachable w Hr) as (Hs & _).
    rewrite (step_refs e w Hs).
    destruct e as [random|]; [rewrite handle_frame | unfold handle].
    - assert (Hren : forall m, obstacles (gameState (render (react w) m)) =
                               obstacles (gameState m))
        by (intros m; unfold render; destruct (gameStarted (react w)); reflexivity).
      rewrite Hren. destruct (running (react w)) eqn:Hrun;
        [|rewrite (updateGame_stopped _ _ _ Hrun); exact IH].
      rewrite (updateGame_running _ _ _ Hrun). cbn [fst].
      unfold updateDifficulty, forEachObstacle.
      cbn [gameState obstacles set_lastObstacleX set_obstacleSpawnRate
           set_gameSpeed].
      apply forEachFrom_passed.
      + rewrite loopStart_player.
        destruct (physicsInv_reachable w Hr) as (-> & _).
        apply updatePlayer_inv, playerInv_reachable, Hr.
      + rewrite loopStart_gameSpeed. apply (obstacleShape_reachable w Hr).
      + unfold loopStart. cbn [gameState].
        destruct (beforeLoop_spawn random (gameState (refs w))) as [-> _].
        destruct (_ && _); [|exact IH].
        apply Forall_app. split; [exact IH|]. constructor; [|constructor].
        reflexivity.
    - unfold jump, resetGame.
      destruct (negb (gameStarted (react w))); [exact IH|].
      destruct (gameOver (react w) || gameWon (react w)); [constructor|].
      destruct (negb _); exact IH. }
  eapply Forall_impl; [exact H|]. cbn beta. intros o Ho.
  unfold passedInv in Ho. rewrite Ho. apply NumFacts.ltb_lt.
Qed.

Lemma passed_iff_behind_centre_witness :
  Forall (fun o : Obstacle => passed o = true <-> x o + width o < 400)
    (obstacles (gameState (refs playedWorld))).
Proof. exact (passed_iff_behind_centre playedWorld playedWorld_reachable). Defined.

End Passed.

(** ** The edges of the lifecycle *)

Section Edges.

(** X21: a frame never changes [gameStarted] and never clears [gameOver]
    or [gameWon], and changes neither of them unless the game is running; a
    press never ends or wins a game: it leaves the game started, and
    [gameOver] and [gameWon] survive it only if the game had not started. *)
Theorem lifecycle_edges (e : Event) (w : World) :
  let r := react w in
  let r' := react (step e w) in
  match e with
  | Frame _ =>
      gameStarted r' = gameStarted r /\
      (gameOver r = true -> gameOver r' = true) /\
      (gameWon r = true -> gameWon r' = true) /\
      (running r = false -> gameOver r' = gameOver r /\ gameWon r' = gameWon r)
  | Press =>
      gameStarted r' = true /\
      gameOver r' = gameOver r && negb (gameStarted r) /\
      gameWon r' = gameWon r && negb (gameStarted r)
  end.
Proof.
  cbn zeta. pose proof (step_lifecycle e w) as Hl. unfold lifecycle in Hl.
  injection Hl as _ Ho Hs Hw _. destruct e as [random|].
  - change (fst (gameLoop random w)) with (step (Frame random) w) in Ho, Hs, Hw.
    rewrite Ho, Hs, Hw, handle_frame_calls.
    destruct (updateGame_facts (react w) random (refs w)) as (_ & Hcalls & _).
    cbn zeta in Hcalls.
    destruct (applyCalls_frame _ Hcalls (react w) None)
      as (_ & Hst & Hwon & Hover & _). cbn zeta in *.
    split; [exact Hst|]. split; [intros H; apply Hover; left; exact H|].
    split; [intros H; apply Hwon; left; exact H|].
    intros Hrun. rewrite (updateGame_stopped _ _ _ Hrun). split; reflexivity.
  - change (fst (press w)) with (step Press w) in Ho, Hs, Hw.
    rewrite Ho, Hs, Hw. unfold handle, jump, resetGame.
    destruct (gameStarted (react w)) eqn:Hst, (gameOver (react w)) eqn:Hov,
      (gameWon (react w)) eqn:Hwn; cbn [negb orb andb];
      try destruct (negb (isJumping _));
      cbn [snd applyCalls fold_left applyCall gameStarted gameOver gameWon];
      rewrite ?Hst, ?Hov, ?Hwn; auto.
Qed.

End Edges.

(** ** The ground pattern *)

Section Ground.

Lemma truncate_nonpos (q : Q) : q <= 0 -> truncate q = Qceiling q.
Proof.
  intros H. unfold truncate. destruct (Qle_bool 0 q) eqn:E; [|reflexivity].
  apply Qle_bool_iff in E.
  assert (E0 : q == 0) by (apply Qle_antisym; assumption).
  rewrite (Qfloor_comp _ _ E0), (Qceiling_comp _ _ E0). reflexivity.
Qed.

Lemma Qceiling_unique (q : Q) (k : Z) :
  inject_Z k - 1 < q -> q <= inject_Z k -> Qceiling q = k.
Proof.
  intros H1 H2. apply Z.le_antisymm.
  - rewrite <- (Qceiling_Z k). apply Qceiling_resp_le, H2.
  - pose proof (Qle_ceiling q) as H3.
    assert (H4 : inject_Z k < inject_Z (Qceiling q + 1)).
    { rewrite inject_Z_plus. change (inject_Z 1) with 1. lra. }
    rewrite <- Zlt_Qlt in H4. lia.
Qed.

(** The remainder of a number that is not positive, by 40. *)
Lemma remainder_nonpos (a : Q) :
  a <= 0 ->
  remainder a 40 == a - 40 * inject_Z (Qceiling (a / 40)) /\
  -40 < remainder a 40 <= 0.
Proof.
  intros H. unfold remainder.
  assert (Hq : a / 40 <= 0).
  { unfold Qdiv. change (/ 40) with (1 # 40). lra. }
  rewrite (truncate_nonpos _ Hq). split; [reflexivity|].
  pose proof (Qle_ceiling (a / 40)) as H1.
  pose proof (Qceiling_lt (a / 40)) as H2.
  unfold Z.sub in H2. rewrite inject_Z_plus in H2.
  change (inject_Z (- (1))) with (-1) in H2.
  revert H1 H2. generalize (inject_Z (Qceiling (a / 40))). intros c.
  unfold Qdiv. change (/ 40) with (1 # 40). intros H1 H2. lra.
Qed.

Lemma remainder_step (a s : Q) :
  a <= 0 -> 0 <= s -> -40 < remainder a 40 - s ->
  remainder (a - s) 40 == remainder a 40 - s.
Proof.
  intros Ha Hs Hw.
  destruct (remainder_nonpos a Ha) as [E [Hlo Hhi]].
  destruct (remainder_nonpos (a - s)) as [E' _]; [lra|].
  rewrite E', E. rewrite E in Hw, Hlo, Hhi. clear E E'.
  unfold Qdiv in *. change (/ 40) with (1 # 40) in *.
  assert (Hc : Qceiling ((a - s) * (1 # 40)) = Qceiling (a * (1 # 40)))
    by (apply Qceiling_unique; lra).
  rewrite Hc. ring.
Qed.

Lemma updateGame_ground (props : React) (random : Q) (m : Refs) :
  running props = true ->
  x (ground (gameState (fst (updateGame props random m)))) =
  x (ground (gameState m)) - gameSpeed (gameState m).
Proof.
  intros Hrun. rewrite (updateGame_running _ _ _ Hrun). cbn [fst].
  pose proof (forEachFrom_outside
                (length (obstacles (gameState (loopStart random m)))) 0
                (loopStart random m)) as Hout.
  unfold forEachObstacle, updateDifficulty.
  cbn [gameState ground set_lastObstacleX set_obstacleSpawnRate set_gameSpeed].
  set (m1 := fst (forEachFrom _ 0 (loopStart random m))) in *.
  assert (Hg : ground (gameState m1) = ground (gameState (loopStart random m)))
    by (unfold outsideLoop in Hout; congruence).
  rewrite Hg. unfold loopStart, beforeLoop, spawnObstacle, moveGround.
  cbn [gameState]. destruct (_ && _); reflexivity.
Qed.

Lemma ground_reachable (w : World) :
  reachable w ->
  x (ground (gameState (refs w))) <= 0 /\ 0 <= gameSpeed (gameState (refs w)).
Proof.
  apply (refs_invariant
           (fun m => x (ground (gameState m)) <= 0 /\ 0 <= gameSpeed (gameState m))).
  - split; vm_compute; discriminate.
  - intros props random m Hrun H0 _ [Hg Hsp]. split.
    + rewrite (updateGame_ground _ _ _ Hrun). lra.
    + destruct (updateGame_difficulty props random m Hrun) as [-> _].
      pose proof (updateGame_score_le props random m) as Hle.
      destruct (newSpeed_bounds (currentScoreRef (fst (updateGame props random m))))
        as [Hlo _]; [lia | lra].
  - intros props m H. unfold render. destruct (gameStarted props); exact H.
  - intros m _ _ H. exact H.
Qed.

(** X22: in every reachable state [ground.x % 40] is above -40 and at
    most 0, so the pebble drawn for [i] is at an x from [i] up to, not
    including, [i + 40]; in a frame of a running game it moves to the right
    by the game speed, unless the offset wraps around. *)
Theorem ground_pattern_moves_right (w : World) (random : Q) :
  reachable w ->
  let g := gameState (refs w) in
  let g' := gameState (refs (step (Frame random) w)) in
  -40 < groundOffset g <= 0 /\
  (forall i : Q, i <= pebbleX i g < i + 40) /\
  (running (react w) = true -> -40 < groundOffset g - gameSpeed g ->
   forall i : Q, pebbleX i g' == pebbleX i g + gameSpeed g).
Proof.
  intros Hr. cbn zeta. destruct (ground_reachable w Hr) as [Hg Hsp].
  destruct (remainder_nonpos _ Hg) as [_ Hb].
  unfold pebbleX, groundOffset. split; [exact Hb|].
  split; [intros i; lra|]. intros Hrun Hw i.
  destruct (scoreInv_reachable w Hr) as (Hs & _).
  rewrite (step_refs _ w Hs), handle_frame.
  assert (Hren : forall m, ground (gameState (render (react w) m)) =
                           ground (gameState m))
    by (intros m; unfold render; destruct (gameStarted (react w)); reflexivity).
  rewrite Hren, (updateGame_ground _ _ _ Hrun).
  rewrite (remainder_step _ _ Hg Hsp Hw). ring.
Qed.

(** The first frame of a game moves the pebbles from [i] to [i + 1.5]. *)
Lemma ground_pattern_moves_right_witness :
  let w := step Press (fst (mount None)) in
  pebbleX 40 (gameState (refs w)) == 40 /\
  pebbleX 40 (gameState (refs (step (Frame 1) w))) == 41.5.
Proof.
  cbn zeta.
  destruct (ground_pattern_moves_right (step Press (fst (mount None))) 1
              (reach_step Press _ (reach_mount None))) as (_ & _ & H).
  split; [vm_compute; reflexivity|].
  rewrite H; vm_compute; reflexivity.
Defined.

End Ground.

(** ** The safe part of a jump *)

Section SafeJump.

Lemma alive_app (l1 l2 : list Q) (w : World) :
  alive (l1 ++ l2) w <-> alive l1 w /\ alive l2 (run (map Frame l1) w).
Proof.
  revert w. induction l1 as [|r l1 IH]; intros w; cbn [app alive map run fold_left].
  - tauto.
  - change (fold_left _ (map Frame l1) ?w') with (run (map Frame l1) w').
    rewrite IH. tauto.
Qed.

Lemma run_app (es1 es2 : list Event) (w : World) :
  run (es1 ++ es2) w = run es2 (run es1 w).
Proof. unfold run. apply fold_left_app. Qed.

(** The player stays on the arc for the first 65 frames of a jump. *)
Lemma iter_arc (p : PlayerObject) (k : nat) :
  isJumping p = true -> arcAt 0 p -> (k <= 65)%nat ->
  isJumping (Nat.iter k (updatePlayer 0.3) p) = true /\
  arcAt (Z.of_nat k) (Nat.iter k (updatePlayer 0.3) p).
Proof.
  intros Hj Ha. induction k as [|k IH]; intros Hk; [split; assumption|].
  destruct IH as [IHj IHa]; [lia|].
  change (Nat.iter (S k) (updatePlayer 0.3) p)
    with (updatePlayer 0.3 (Nat.iter k (updatePlayer 0.3) p)).
  set (q := Nat.iter k (updatePlayer 0.3) p) in *.
  destruct (arcAt_next _ _ IHa) as [Hv Hy].
  rewrite Nat2Z.inj_succ, <- Z.add_1_r.
  unfold updatePlayer. rewrite IHj.
  destruct (Num.geb _ _) eqn:Hg.
  - exfalso. apply NumFacts.geb_ge in Hg. rewrite Hy in Hg.
    assert (H : (3000 - 197 * (Z.of_nat k + 1) +
                 3 * (Z.of_nat k + 1) * (Z.of_nat k + 1) < 3000)%Z) by nia.
    rewrite Zlt_Qlt in H. revert H Hg.
    generalize (inject_Z (3000 - 197 * (Z.of_nat k + 1) +
                          3 * (Z.of_nat k + 1) * (Z.of_nat k + 1))).
    intros c H Hg. change (inject_Z 3000) with 3000 in H.
    unfold Qdiv in Hg. change (/ 20) with (1 # 20) in Hg. lra.
  - split; [reflexivity|]. split; [exact Hv | exact Hy].
Qed.

Lemma arcAt_low (k : Z) (p : PlayerObject) :
  (2 <= k <= 64)%Z -> arcAt k p -> y p <= 135.
Proof.
  intros Hk [_ Hy]. rewrite Hy.
  assert (H : (3000 - 197 * k + 3 * k * k <= 2700)%Z) by nia.
  rewrite Zle_Qle in H. revert H.
  generalize (inject_Z (3000 - 197 * k + 3 * k * k)). intros c H.
  change (inject_Z 2700) with 2700 in H.
  unfold Qdiv. change (/ 20) with (1 # 20). lra.
Qed.

Lemma press_jumps (w : World) :
  reachable w ->
  running (react w) = true ->
  isJumping (player (gameState (refs w))) = false ->
  gameState (refs (step Press w)) =
  set_player (mkPlayer (player (gameState (refs w))) (-10) true)
    (gameState (refs w)).
Proof.
  intros Hr Hrun Hj. destruct (scoreInv_reachable w Hr) as (Hs & _).
  destruct (physicsInv_reachable w Hr) as (_ & Hjp & _).
  apply running_true in Hrun. destruct Hrun as (Hst & Hov & Hwn).
  rewrite (step_refs Press w Hs). unfold handle, jump.
  rewrite Hst, Hov, Hwn, Hj, Hjp. reflexivity.
Qed.

(** X23: the 2nd to the 64th frame of a jump from the ground never end
    the game: in these frames the player is at y = 135 or higher up, above
    every obstacle. *)
Theorem jump_safe_window (w : World) (randoms : list Q) :
  reachable w ->
  running (react w) = true ->
  isJumping (player (gameState (refs w))) = false ->
  (2 <= length randoms <= 64)%nat ->
  alive randoms (step Press w) ->
  let w' := run (map Frame randoms) (step Press w) in
  y (player (gameState (refs w'))) <= 135 /\ gameOver (react w') = false.
Proof.
  intros Hr Hrun Hj Hlen Ha. cbn zeta.
  pose proof (press_jumps w Hr Hrun Hj) as E.
  destruct (physicsInv_reachable w Hr) as (Hg & _ & Hgd).
  destruct (Hgd Hj) as [Hy0 _].
  set (p1 := mkPlayer (player (gameState (refs w))) (-10) true) in *.
  assert (Ha0 : arcAt 0 p1).
  { unfold arcAt, p1. cbn [velocityY player_rect y]. rewrite Hy0.
    split; reflexivity. }
  assert (Hiter : forall l : list Q, alive l (step Press w) ->
            player (gameState (refs (run (map Frame l) (step Press w)))) =
            Nat.iter (length l) (updatePlayer 0.3) p1).
  { intros l Hl. rewrite (frames_player l _ Hl), E.
    cbn [gravity player set_player]. rewrite Hg. reflexivity. }
  split.
  - rewrite (Hiter randoms Ha).
    destruct (iter_arc p1 (length randoms) eq_refl Ha0) as [_ Hk]; [lia|].
    apply (arcAt_low (Z.of_nat (length randoms))); [lia | exact Hk].
  - destruct (exists_last (l := randoms)) as (init & last & ->);
      [intros ->; cbn in Hlen; lia|].
    rewrite length_app in Hlen. cbn [length] in Hlen.
    apply alive_app in Ha. destruct Ha as [Hinit [Hlast _]].
    rewrite map_app, run_app. cbn [map run fold_left].
    set (w2 := run (map Frame init) (step Press w)) in *.
    assert (Hr2 : reachable w2) by (apply run_reachable, reach_step, Hr).
    apply running_true in Hlast. destruct Hlast as (_ & Ho2 & _).
    destruct (gameOver (react (step (Frame last) w2))) eqn:Hover; [|reflexivity].
    exfalso. apply (frame_over_hits w2 last Ho2) in Hover.
    apply Exists_exists in Hover. destruct Hover as (v & Hv & Hhit).
    pose proof (frameVisits_hits w2 last Hr2) as Hall. cbn zeta in Hall.
    rewrite Forall_forall in Hall. apply (Hall v Hv) in Hhit.
    destruct Hhit as [Hhigh _].
    destruct (physicsInv_reachable w2 Hr2) as (Hg2 & _).
    unfold w2 in Hhigh at 2. rewrite Hg2, (Hiter init Hinit) in Hhigh.
    change (updatePlayer 0.3 (Nat.iter (length init) (updatePlayer 0.3) p1))
      with (Nat.iter (S (length init)) (updatePlayer 0.3) p1) in Hhigh.
    destruct (iter_arc p1 (S (length init)) eq_refl Ha0) as [_ Hk]; [lia|].
    assert (Hlow : y (Nat.iter (S (length init)) (updatePlayer 0.3) p1) <= 135)
      by (apply (arcAt_low (Z.of_nat (S (length init)))); [lia | exact Hk]).
    lra.
Qed.

(** The second frame of the first jump of a game. *)
Lemma jump_safe_window_witness :
  let w := step Press (fst (mount None)) in
  gameOver (react (run (map Frame [1; 1]) (step Press w))) = false.
Proof.
  cbn zeta.
  refine (proj2 (jump_safe_window (step Press (fst (mount None))) [1; 1]
                   (reach_step Press _ (reach_mount None)) eq_refl eq_refl _ _)).
  - cbn. lia.
  - vm_compute. tauto.
Defined.

End SafeJump.

(** ** Jump and landing, frame by frame *)

Section Landing.

(** C9: in a reachable state with the game running and the player on the
    ground, the jump command sets the vertical velocity to the jump power
    -10 and the jumping flag and leaves the player at y = 150.  From there
    every frame of the running game adds the gravity 0.3 to the velocity and
    the velocity to y: [n] frames later, for [n] up to 65, the player is
    still jumping, with velocity [-10 + 0.3 n] at
    [y = 150 - 10 n + 0.15 n (n + 1)], above the ground from the first
    frame on; the 66th frame ([jumpFrames]) takes y to the ground line or
    past it, and the player is back at y = 150 with velocity 0 and the
    jumping flag cleared.  The last part is the step itself: what a frame
    of a running game does to a jumping player, in any state. *)
Theorem jump_then_land (w : World) :
  reachable w ->
  running (react w) = true ->
  isJumping (player (gameState (refs w))) = false ->
  let w1 := step Press w in
  (gravity (gameState (refs w1)) = 0.3 /\
   velocityY (player (gameState (refs w1))) = -10 /\
   isJumping (player (gameState (refs w1))) = true /\
   y (player (gameState (refs w1))) = 150) /\
  (forall randoms : list Q,
     alive randoms w1 ->
     let n := inject_Z (Z.of_nat (length randoms)) in
     let p := player (gameState (refs (run (map Frame randoms) w1))) in
     ((length randoms <= 65)%nat ->
      isJumping p = true /\
      velocityY p == -10 + 0.3 * n /\
      y p == 150 - 10 * n + 0.15 * n * (n + 1) /\
      ((1 <= length randoms)%nat -> y p < 150)) /\
     (length randoms = jumpFrames ->
      y p = 150 /\ isJumping p = false /\ velocityY p = 0)) /\
  (forall (w0 : World) (random : Q),
     running (react w0) = true ->
     isJumping (player (gameState (refs w0))) = true ->
     let g := gameState (refs w0) in
     let v := velocityY (player g) + gravity g in
     let p' := player (gameState (refs (step (Frame random) w0))) in
     (150 <= y (player g) + v ->
      y p' = 150 /\ velocityY p' = 0 /\ isJumping p' = false) /\
     (y (player g) + v < 150 ->
      y p' = y (player g) + v /\ velocityY p' = v /\ isJumping p' = true)).
Proof.
  intros Hr Hrun Hj. cbn zeta.
  pose proof (press_jumps w Hr Hrun Hj) as E.
  destruct (physicsInv_reachable w Hr) as (Hg & _ & Hgd).
  destruct (Hgd Hj) as [Hy0 _].
  set (p1 := mkPlayer (player (gameState (refs w))) (-10) true) in *.
  assert (Ha0 : arcAt 0 p1).
  { unfold arcAt, p1. cbn [velocityY player_rect y]. rewrite Hy0.
    split; reflexivity. }
  split; [rewrite E; cbn [gravity player set_player]; auto|]. split.
  - intros randoms Ha.
    assert (Hp : player (gameState (refs (run (map Frame randoms) (step Press w)))) =
                 Nat.iter (length randoms) (updatePlayer 0.3) p1).
    { rewrite (frames_player randoms _ Ha), E.
      cbn [gravity player set_player]. rewrite Hg. reflexivity. }
    rewrite Hp. split.
    + intros Hn. destruct (iter_arc p1 (length randoms) eq_refl Ha0 Hn)
        as [Hjn [Hv Hy]].
      split; [exact Hjn|]. rewrite Hv, Hy.
      set (k := Z.of_nat (length randoms)) in *.
      assert (Hk : (0 <= k <= 65)%Z) by (unfold k; lia).
      split; [|split].
      * unfold Z.sub. rewrite inject_Z_plus, inject_Z_mult, inject_Z_opp.
        change (inject_Z 3) with 3. change (inject_Z 100) with 100. field.
      * unfold Z.sub.
        rewrite !inject_Z_plus, !inject_Z_mult, inject_Z_opp, inject_Z_mult.
        change (inject_Z 3) with 3. change (inject_Z 197) with 197.
        change (inject_Z 3000) with 3000. field.
      * intros H1.
        assert (H : (3000 - 197 * k + 3 * k * k < 3000)%Z) by nia.
        rewrite Zlt_Qlt in H. revert H.
        generalize (inject_Z (3000 - 197 * k + 3 * k * k)). intros c H.
        change (inject_Z 3000) with 3000 in H.
        unfold Qdiv. change (/ 20) with (1 # 20). lra.
    + intros ->. unfold p1.
      destruct (player (gameState (refs w))) as [[px py pw ph] pv pj].
      cbn [player_rect y] in *. subst py. rewrite arc.
      cbn [player_rect y isJumping velocityY]. auto.
  - intros w0 random Hrun0 Hj0.
    destruct (gameLoop_player random w0) as (Hp & _). cbn zeta in Hp.
    rewrite Hp, Hrun0. unfold updatePlayer. rewrite Hj0. split.
    + intros H. apply NumFacts.geb_ge in H. rewrite H. auto.
    + intros H. destruct (Num.geb _ _) eqn:Hge; [|auto].
      apply NumFacts.geb_ge in Hge. lra.
Qed.

(** From the mounted component: start the game and jump; with no obstacle
    around, the player is at the top of the arc, y = -11.7, after 33 frames
    and back on the ground after 66. *)
Lemma jump_then_land_witness :
  let w := step Press (fst (mount None)) in
  let top := run (map Frame (repeat 1 33)) (step Press w) in
  let w' := run (map Frame (repeat 1 jumpFrames)) (step Press w) in
  (isJumping (player (gameState (refs top))) = true /\
   y (player (gameState (refs top))) == 150 - 10 * 33 + 0.15 * 33 * (33 + 1)) /\
  y (player (gameState (refs w'))) = 150 /\
  isJumping (player (gameState (refs w'))) = false /\
  velocityY (player (gameState (refs w'))) = 0.
Proof.
  cbn zeta.
  destruct (jump_then_land (step Press (fst (mount None))))
    as (_ & Hn & _).
  - apply reach_step, reach_mount.
  - reflexivity.
  - reflexivity.
  - split.
    + destruct (Hn (repeat 1 33)) as [H33 _]; [vm_compute; tauto|].
      destruct H33 as (Hj & _ & Hy & _); [vm_compute; lia|].
      split; [exact Hj | exact Hy].
    + destruct (Hn (repeat 1 jumpFrames)) as [_ H66]; [vm_compute; tauto|].
      apply H66. reflexivity.
Defined.

End Landing.

(** ** The obstacle array in reachable states *)

Section Array.

Lemma advance_rect (p : PlayerObject) (s : Q) (o : Obstacle) :
  obstacle_rect (advance p s o) = mkGameObject (x o - s) (y o) (width o) (height o).
Proof.
  unfold advance. destruct (passesNow _ _); reflexivity.
Qed.

Lemma advance_x (p : PlayerObject) (s : Q) (o : Obstacle) :
  x (advance p s o) = x o - s /\ width (advance p s o) = width o.
Proof. rewrite advance_rect. split; reflexivity. Qed.

Lemma gapped_map_advance (d : Q) (p : PlayerObject) (s : Q) (l : list Obstacle) :
  gapped d l -> gapped d (map (advance p s) l).
Proof.
  induction l as [|a l IH]; [auto|]. cbn [gapped map]. intros [H1 H2].
  split; [|exact (IH H2)].
  apply (Forall_fmap (advance p s)). eapply Forall_impl; [exact H1|].
  cbn. intros b Hb. destruct (advance_x p s a) as [-> _].
  destruct (advance_x p s b) as [-> _]. lra.
Qed.

Lemma gapped_app_last (d : Q) (l : list Obstacle) (n : Obstacle) :
  gapped d l -> Forall (fun o : Obstacle => x o + d <= x n) l -> gapped d (l ++ [n]).
Proof.
  induction l as [|a l IH]; cbn [gapped app]; [intros _ _; split; constructor|].
  intros [H1 H2] Hn. split.
  - apply Forall_app. split; [exact H1|].
    constructor; [exact (Forall_inv Hn) | constructor].
  - exact (IH H2 (Forall_inv_tail Hn)).
Qed.

Lemma spaced_app_last (l : list Obstacle) (n : Obstacle) :
  spaced l -> Forall (fun o : Obstacle => x o + 383 <= x n) l -> spaced (l ++ [n]).
Proof.
  destruct l as [|a l]; cbn [spaced app]; [intros _ _; split; constructor|].
  intros [H1 H2] Hn. split.
  - apply Forall_app. split; [exact H1|].
    constructor; [|constructor]. pose proof (Forall_inv Hn) as H. cbn in H. lra.
  - exact (gapped_app_last _ _ _ H2 (Forall_inv_tail Hn)).
Qed.

(** Past the end of the array the loop does nothing. *)
Lemma forEachFrom_beyond (n k : nat) (m : Refs) :
  (length (obstacles (gameState m)) <= k)%nat -> forEachFrom n k m = (m, []).
Proof.
  revert k. induction n as [|n IH]; intros k Hk; [reflexivity|].
  cbn [forEachFrom]. rewrite (lookup_ge_None_2 _ _ Hk). apply IH. lia.
Qed.

(** While no obstacle is removed the loop reaches every obstacle, and the
    indices that are left over find nothing. *)
Lemma forEachFrom_map_extra (p : PlayerObject) (speed : Q)
  (extra : nat) (rest pre : list Obstacle) :
  forall m : Refs,
  player (gameState m) = p -> gameSpeed (gameState m) = speed ->
  obstacles (gameState m) = pre ++ rest ->
  Forall (fun o => offScreen (moveObstacle speed o) = false) rest ->
  obstacles (gameState (fst (forEachFrom (length rest + extra) (length pre) m))) =
  pre ++ map (advance p speed) rest.
Proof.
  revert pre. induction rest as [|o rest IH]; intros pre m Hp Hs Harr Hoff.
  - rewrite forEachFrom_beyond by (rewrite Harr, length_app; cbn; lia).
    exact Harr.
  - assert (Hk : obstacles (gameState m) !! length pre = Some o)
      by (rewrite Harr; apply list_lookup_middle; reflexivity).
    cbn [length Nat.add]. rewrite (forEachFrom_S _ _ _ _ Hk).
    pose proof (visitObstacle_outside o (length pre) m) as Hout.
    pose proof (visitObstacle_obstacles o (length pre) m) as Harr1.
    rewrite offScreen_visited, Hs, (Forall_inv Hoff), Harr in Harr1.
    rewrite insert_app_r_alt, Nat.sub_diag in Harr1 by lia.
    cbn [insert list_insert] in Harr1.
    replace (S (length pre)) with (length (pre ++ [visited o m]))
      by (rewrite length_app; cbn; lia).
    rewrite (IH (pre ++ [visited o m])).
    + rewrite visited_advance, Hp, Hs, <- app_assoc. reflexivity.
    + unfold outsideLoop in Hout. congruence.
    + unfold outsideLoop in Hout. congruence.
    + rewrite Harr1, <- app_assoc. reflexivity.
    + exact (Forall_inv_tail Hoff).
Qed.

(** The loop on an array in which only the first obstacle can go off
    screen. *)
Lemma forEachObstacle_afterLoop (m : Refs) :
  let g := gameState m in
  Forall obstacleShape (obstacles g) ->
  spaced (obstacles g) ->
  tiered onScreen (fun _ => True) (obstacles g) ->
  0 <= gameSpeed g <= 6 ->
  obstacles (gameState (fst (forEachObstacle m))) =
  afterLoop (player g) (gameSpeed g) (obstacles g).
Proof.
  cbn zeta. intros Hsh Hsp Hon Hs. unfold forEachObstacle, afterLoop.
  destruct (obstacles (gameState m)) as [|o0 rest] eqn:Harr.
  { cbn [length forEachFrom fst]. exact Harr. }
  destruct Hsp as [Hgap _]. destruct Hon as [Hon _].
  pose proof (Forall_inv Hsh) as (_ & Hw0 & _).
  assert (Hrest : Forall (fun o => offScreen (moveObstacle (gameSpeed (gameState m)) o)
                                   = false) rest).
  { apply Forall_forall. intros o Ho.
    rewrite Forall_forall in Hgap. specialize (Hgap o Ho).
    pose proof (proj1 (Forall_forall _ _) (Forall_inv_tail Hsh) o Ho)
      as (_ & Hw & _).
    unfold offScreen. cbn [moveObstacle obstacle_rect x width].
    apply NumFacts.ltb_ge. unfold onScreen in Hon. rewrite Hw0 in Hon.
    rewrite Hw. cbn in Hgap. lra. }
  destruct (offScreen (moveObstacle (gameSpeed (gameState m)) o0)) eqn:Hoff.
  - assert (Hk : obstacles (gameState m) !! 0%nat = Some o0)
      by (rewrite Harr; reflexivity).
    cbn [length]. rewrite (forEachFrom_S _ _ _ _ Hk).
    pose proof (visitObstacle_outside o0 0 m) as Hout.
    pose proof (visitObstacle_obstacles o0 0 m) as Harr1.
    rewrite offScreen_visited, Hoff, Harr in Harr1. cbn in Harr1.
    unfold outsideLoop in Hout.
    destruct rest as [|o1 rest']; [cbn [length forEachFrom fst]; exact Harr1|].
    replace (length (o1 :: rest')) with (length rest' + 1)%nat
      by (cbn [length]; lia).
    apply (forEachFrom_map_extra _ _ 1 rest' [o1]).
    + congruence.
    + congruence.
    + exact Harr1.
    + exact (Forall_inv_tail Hrest).
  - replace (length (o0 :: rest)) with (length (o0 :: rest) + 0)%nat by lia.
    apply (forEachFrom_map_extra _ _ 0 (o0 :: rest) []); try reflexivity.
    + exact Harr.
    + constructor; assumption.
Qed.

Lemma tiered_impl (P0 P1 Q0 Q1 : Obstacle -> Prop) (l : list Obstacle) :
  (forall o, P0 o -> Q0 o) -> (forall o, P1 o -> Q1 o) ->
  tiered P0 P1 l -> tiered Q0 Q1 l.
Proof.
  intros H0 H1. destruct l as [|a l]; [auto|]. intros [Ha Hl].
  split; [exact (H0 a Ha)|]. eapply Forall_impl; [exact Hl | exact H1].
Qed.

Lemma tiered_Forall (P0 P1 Q : Obstacle -> Prop) (l : list Obstacle) :
  (forall o, P0 o -> Q o) -> (forall o, P1 o -> Q o) ->
  tiered P0 P1 l -> Forall Q l.
Proof.
  intros H0 H1. destruct l as [|a l]; [constructor|]. intros [Ha Hl].
  constructor; [exact (H0 a Ha)|]. eapply Forall_impl; [exact Hl | exact H1].
Qed.

(** What the loop keeps of the order, the gaps and the bounds of the array
    it starts on; [bound] is [lastObstacleX] at the start of the loop. *)
Lemma afterLoop_inv (p : PlayerObject) (s bound : Q) (arr : list Obstacle) :
  Forall obstacleShape arr -> Forall onScreen arr -> spaced arr ->
  tiered (fun o : Obstacle => x o <= bound + s + 4.5)
         (fun o : Obstacle => x o <= bound + s - 1.5) arr ->
  1.5 <= s <= 6 ->
  Forall onScreen (afterLoop p s arr) /\
  spaced (afterLoop p s arr) /\
  tiered (fun o : Obstacle => x o <= bound + 4.5)
         (fun o : Obstacle => x o <= bound - 1.5) (afterLoop p s arr).
Proof.
  intros Hsh Hon Hsp Htr Hs. unfold afterLoop.
  destruct arr as [|o0 rest]; [repeat split; constructor|].
  destruct Hsp as [Hgap Hgapped]. destruct Htr as [Hb0 Hb].
  pose proof (Forall_inv Hsh) as (_ & Hw0 & _).
  pose proof (Forall_inv Hon) as Hon0. unfold onScreen in Hon0.
  rewrite Hw0 in Hon0.
  assert (Hadv : forall o : Obstacle, o ∈ rest ->
            onScreen (advance p s o) /\ x (advance p s o) <= bound - 1.5 /\
            x o0 + 377 <= x o).
  { intros o Ho.
    pose proof (proj1 (Forall_forall _ _) Hgap o Ho) as H1.
    pose proof (proj1 (Forall_forall _ _) Hb o Ho) as H2.
    pose proof (proj1 (Forall_forall _ _) (Forall_inv_tail Hsh) o Ho)
      as (_ & Hw & _).
    cbn in H1, H2. unfold onScreen. destruct (advance_x p s o) as [-> ->].
    rewrite Hw. repeat split; lra. }
  destruct (offScreen (moveObstacle s o0)) eqn:Hoff.
  - destruct rest as [|o1 rest']; [repeat split; constructor|].
    destruct Hgapped as [Hgap1 Hgapped'].
    destruct (Hadv o1 (list_elem_of_here _ _)) as (_ & _ & H01).
    pose proof (Forall_inv Hb) as Hb1. cbn in Hb1.
    pose proof (Forall_inv (Forall_inv_tail Hsh)) as (_ & Hw1 & _).
    assert (Hin : forall o : Obstacle, o ∈ rest' -> o ∈ o1 :: rest')
      by (intros o Ho; apply list_elem_of_further, Ho).
    split; [|split].
    + constructor; [unfold onScreen; rewrite Hw1; lra|].
      apply (Forall_fmap (advance p s)). apply Forall_forall.
      intros o Ho. apply (Hadv o (Hin o Ho)).
    + split; [|apply gapped_map_advance, Hgapped'].
      apply (Forall_fmap (advance p s)). apply Forall_forall. intros o Ho.
      pose proof (proj1 (Forall_forall _ _) Hgap1 o Ho) as H1. cbn in H1.
      cbn. destruct (advance_x p s o) as [-> _]. lra.
    + split; [lra|].
      apply (Forall_fmap (advance p s)). apply Forall_forall.
      intros o Ho. apply (Hadv o (Hin o Ho)).
  - cbn [map]. apply NumFacts.ltb_ge in Hoff.
    cbn [moveObstacle obstacle_rect x width] in Hoff. rewrite Hw0 in Hoff.
    split; [|split].
    + constructor.
      * unfold onScreen. destruct (advance_x p s o0) as [-> ->]. rewrite Hw0. lra.
      * apply (Forall_fmap (advance p s)). apply Forall_forall.
        intros o Ho. apply (Hadv o Ho).
    + split; [|apply gapped_map_advance, Hgapped].
      apply (Forall_fmap (advance p s)). apply Forall_forall. intros o Ho.
      destruct (Hadv o Ho) as (_ & _ & H1). cbn.
      destruct (advance_x p s o0) as [-> _]. destruct (advance_x p s o) as [-> _].
      lra.
    + split; [destruct (advance_x p s o0) as [-> _]; lra|].
      apply (Forall_fmap (advance p s)). apply Forall_forall.
      intros o Ho. apply (Hadv o Ho).
Qed.

(** The array at the start of the loop, with the obstacle the frame may
    have generated. *)
Lemma loopStart_inv (random : Q) (m : Refs) :
  arrayInv m ->
  lastObstacleX (gameState m) <= 800 ->
  let m0 := loopStart random m in
  let g0 := gameState m0 in
  Forall obstacleShape (obstacles g0) /\ Forall onScreen (obstacles g0) /\
  spaced (obstacles g0) /\
  tiered (fun o : Obstacle => x o <= lastObstacleX g0 + gameSpeed g0 + 4.5)
         (fun o : Obstacle => x o <= lastObstacleX g0 + gameSpeed g0 - 1.5)
         (obstacles g0).
Proof.
  intros (Hsh & Hon & Hsp & Htr & Hs) H800. cbn zeta.
  split; [apply loopStart_shape, Hsh|].
  rewrite loopStart_gameSpeed. unfold loopStart. cbn [gameState].
  destruct (beforeLoop_spawn random (gameState m)) as [-> ->].
  destruct (Num.ltb random _); cbn [andb]; [|auto].
  unfold Num.gtb. destruct (Num.ltb 400 _) eqn:H400; [|auto].
  apply NumFacts.ltb_lt in H400. unfold BASE_WIDTH in *.
  assert (Hall : Forall (fun o : Obstacle => x o + 383 <= 800 /\ x o <= 800)
                   (obstacles (gameState m))).
  { unfold trailing in Htr.
    eapply tiered_Forall; [| |exact Htr]; cbn; intros o Ho; split; lra. }
  split; [|split].
  - apply Forall_app. split; [exact Hon|]. constructor; [|constructor].
    unfold onScreen. vm_compute. discriminate.
  - apply spaced_app_last; [exact Hsp|].
    eapply Forall_impl; [exact Hall|]. cbn. intros o Ho. unfold BASE_WIDTH. lra.
  - unfold trailing in Htr.
    destruct (obstacles (gameState m)) as [|a l]; cbn [app tiered].
    + split; [cbn; unfold BASE_WIDTH; lra | constructor].
    + destruct Htr as [Ha Hl]. pose proof (Forall_inv Hall) as Ha'. cbn in Ha'.
      split; [lra|]. apply Forall_app. split.
      * eapply Forall_impl; [exact (Forall_inv_tail Hall)|]. cbn. intros o Ho. lra.
      * constructor; [cbn; unfold BASE_WIDTH; lra | constructor].
Qed.

Lemma updateGame_obstacles (props : React) (random : Q) (m : Refs) :
  running props = true -> arrayInv m ->
  lastObstacleX (gameState m) <= 800 ->
  obstacles (gameState (fst (updateGame props random m))) =
  afterLoop (updatePlayer (gravity (gameState m)) (player (gameState m)))
    (gameSpeed (gameState m)) (obstacles (gameState (loopStart random m))).
Proof.
  intros Hrun Hinv H800.
  destruct (loopStart_inv random m Hinv H800) as (Hsh & Hon & Hsp & _).
  destruct Hinv as (_ & _ & _ & _ & Hs).
  rewrite (updateGame_running _ _ _ Hrun). cbn [fst].
  unfold updateDifficulty.
  cbn [gameState obstacles set_lastObstacleX set_obstacleSpawnRate set_gameSpeed].
  rewrite forEachObstacle_afterLoop.
  - rewrite loopStart_player, loopStart_gameSpeed. reflexivity.
  - exact Hsh.
  - exact Hsp.
  - destruct (obstacles (gameState (loopStart random m))); [exact Logic.I|].
    split; [exact (Forall_inv Hon) | eapply Forall_impl; [exact (Forall_inv_tail Hon)|auto]].
  - rewrite loopStart_gameSpeed. lra.
Qed.

Lemma arrayInv_update (props : React) (random : Q) (m : Refs) :
  running props = true -> (0 <= currentScoreRef m)%Z ->
  arrayInv m /\ lastObstacleX (gameState m) <= 800 ->
  arrayInv (fst (updateGame props random m)) /\
  lastObstacleX (gameState (fst (updateGame props random m))) <= 800.
Proof.
  intros Hrun H0 [Hinv H800].
  pose proof (updateGame_obstacles props random m Hrun Hinv H800) as Harr.
  destruct (loopStart_inv random m Hinv H800) as (Hsh & Hon & Hsp & Htr).
  pose proof (updateGame_lastObstacleX props random m Hrun) as HL.
  destruct (updateGame_difficulty props random m Hrun) as [Hspeed _].
  pose proof (updateGame_score_le props random m) as Hle.
  destruct (newSpeed_bounds (currentScoreRef (fst (updateGame props random m))))
    as [Hlo Hhi]; [lia|].
  cbn zeta in *.
  assert (Hs : 1.5 <= gameSpeed (gameState m) <= 6) by apply Hinv.
  rewrite loopStart_gameSpeed in Htr.
  destruct (afterLoop_inv
              (updatePlayer (gravity (gameState m)) (player (gameState m)))
              (gameSpeed (gameState m))
              (lastObstacleX (gameState (loopStart random m)))
              _ Hsh Hon Hsp Htr Hs) as (Hon' & Hsp' & Htr').
  assert (HL0 : lastObstacleX (gameState (loopStart random m)) <= 800).
  { unfold loopStart. cbn [gameState].
    destruct (beforeLoop_spawn random (gameState m)) as [_ ->].
    destruct (_ && _); unfold BASE_WIDTH; lra. }
  split.
  - unfold arrayInv. cbn zeta. rewrite Harr, Hspeed.
    split; [|split; [exact Hon'|split; [exact Hsp'|split; [|lra]]]].
    + rewrite <- Harr. rewrite (updateGame_running _ _ _ Hrun). cbn [fst].
      unfold updateDifficulty, forEachObstacle.
      cbn [gameState obstacles set_lastObstacleX set_obstacleSpawnRate
           set_gameSpeed].
      apply forEachFrom_shape; [exact Hsh|].
      rewrite loopStart_gameSpeed. lra.
    + unfold trailing. rewrite Harr, HL, Hspeed.
      change (lastObstacleX (beforeLoop random (gameState m)))
        with (lastObstacleX (gameState (loopStart random m))).
      eapply tiered_impl; [| |exact Htr']; cbn; intros o Ho; lra.
  - rewrite HL.
    change (lastObstacleX (beforeLoop random (gameState m)))
      with (lastObstacleX (gameState (loopStart random m))). lra.
Qed.

Lemma arrayInv_reachable (w : World) : reachable w -> arrayInv (refs w).
Proof.
  intros Hr.
  apply (refs_invariant
           (fun m => arrayInv m /\ lastObstacleX (gameState m) <= 800));
    [| | | |exact Hr].
  - split; [|vm_compute; discriminate].
    unfold arrayInv. cbn. repeat split; try constructor; lra.
  - intros props random m Hrun H0 _ H. apply arrayInv_update; assumption.
  - intros props m H. unfold render. destruct (gameStarted props); exact H.
  - intros m _ _ H. exact H.
Qed.

End Array.

(** ** Removal of obstacles over a game *)

Section RemovalInGame.





End RemovalInGame.

(** ** The calls of a frame come from one call of the callback *)

Section OneCallback.

Lemma passedInv_reachable (w : World) :
  reachable w -> Forall passedInv (obstacles (gameState (refs w))).
Proof.
  intros Hr.
  induction Hr as [item | e w Hr IH]; [rewrite mount_refs; constructor|].
  destruct (scoreInv_reachable w Hr) as (Hs & _).
  rewrite (step_refs e w Hs).
  destruct e as [random|]; [rewrite handle_frame | unfold handle].
  - assert (Hren : forall m, obstacles (gameState (render (react w) m)) =
                             obstacles (gameState m))
      by (intros m; unfold render; destruct (gameStarted (react w)); reflexivity).
    rewrite Hren. destruct (running (react w)) eqn:Hrun;
      [|rewrite (updateGame_stopped _ _ _ Hrun); exact IH].
    rewrite (updateGame_running _ _ _ Hrun). cbn [fst].
    unfold updateDifficulty, forEachObstacle.
    cbn [gameState obstacles set_lastObstacleX set_obstacleSpawnRate
         set_gameSpeed].
    apply forEachFrom_passed.
    + rewrite loopStart_player.
      destruct (physicsInv_reachable w Hr) as (-> & _).
      apply updatePlayer_inv, playerInv_reachable, Hr.
    + rewrite loopStart_gameSpeed. apply (obstacleShape_reachable w Hr).
    + unfold loopStart. cbn [gameState].
      destruct (beforeLoop_spawn random (gameState (refs w))) as [-> _].
      destruct (_ && _); [|exact IH].
      apply Forall_app. split; [exact IH|]. constructor; [|constructor].
      reflexivity.
  - unfold jump, resetGame.
    destruct (negb (gameStarted (react w))); [exact IH|].
    destruct (gameOver (react w) || gameWon (react w)); [constructor|].
    destruct (negb _); exact IH.
Qed.

(** The calls of one call of the callback, in order: the score, the theme
    and the win when the obstacle is passed now, then the game over when it
    overlaps the player. *)
Lemma visitObstacle_calls (o : Obstacle) (k : nat) (m : Refs) :
  let cur := (currentScoreRef m + 10)%Z in
  snd (visitObstacle o k m) =
  (if newlyPassed o m
   then SetScore cur :: snd (checkThemeChange cur (gameState m)) ++
        (if (MAX_SCORE <=? cur)%Z then [SetGameWon true] else [])
   else []) ++
  (if hits (o, m) then [SetGameOver true] else []).
Proof.
  cbn zeta. unfold visitObstacle, newlyPassed, hits, visited. cbn [fst snd].
  pose proof (scoreObstacle_outside (moveObstacle (gameSpeed (gameState m)) o) m)
    as [Hout _].
  unfold scoreObstacle in *.
  destruct (passesNow _ _) eqn:Hp.
  - unfold passesNow in Hp. apply andb_true_iff in Hp. destruct Hp as [Hp _].
    change (passed (moveObstacle (gameSpeed (gameState m)) o)) with (passed o) in Hp.
    rewrite Hp.
    destruct (checkThemeChange _ _) as [g th].
    cbn [fst snd gameState markPassed passed andb] in *.
    unfold outsideLoop in Hout.
    replace (player g) with (player (gameState m)) by congruence.
    reflexivity.
  - cbn [fst snd]. 
    change (passed (moveObstacle (gameSpeed (gameState m)) o)) with (passed o).
    rewrite andb_negb_l. reflexivity.
Qed.

Lemma callbackCalls_index (o : Obstacle) (k : nat) (m : Refs) :
  snd (visitObstacle o k m) = callbackCalls (o, m).
Proof. unfold callbackCalls. rewrite !visitObstacle_calls. reflexivity. Qed.

(** After [setGameWon(true)] a call of the callback can only call
    [setGameOver(true)], once. *)
Lemma callbackCalls_after_won (v : Obstacle * Refs) (before after : list Call) :
  callbackCalls v = before ++ SetGameWon true :: after ->
  after = [] \/ after = [SetGameOver true].
Proof.
  destruct v as [o m]. unfold callbackCalls. cbn [fst snd].
  rewrite visitObstacle_calls. cbn zeta. unfold checkThemeChange. cbn zeta.
  destruct (newlyPassed o m),
    (lastThemeChangeScore (gameState m) / 120 <? (currentScoreRef m + 10) / 120)%Z,
    (MAX_SCORE <=? currentScoreRef m + 10)%Z, (hits (o, m));
    cbn [fst snd app]; intros H;
    repeat (destruct before as [|? before]; cbn [app] in H;
            [try discriminate H; injection H as <-; auto
            |try discriminate H; injection H as _ H]);
    try discriminate H.
Qed.

(** An obstacle beside the player: the callback makes no call. *)
Lemma visitObstacle_aside (o : Obstacle) (k : nat) (m : Refs) :
  playerInv (player (gameState m)) -> 0 <= gameSpeed (gameState m) <= 6 ->
  aside (player (gameState m)) (gameSpeed (gameState m)) o ->
  snd (visitObstacle o k m) = [].
Proof.
  intros Hp Hs (Hsh & Hpa & Hx). rewrite visitObstacle_calls. cbn zeta.
  pose proof (advance_passed _ _ _ Hp (proj1 Hs) Hpa) as Hpa'.
  rewrite <- visited_advance in Hpa'. unfold passedInv in Hpa, Hpa'.
  assert (Hv : x (visited o m) = x o - gameSpeed (gameState m) /\
               width (visited o m) = width o).
  { rewrite visited_advance. apply advance_x. }
  destruct Hv as [Hvx Hvw]. destruct Hsh as (Hy & Hw & Hh & _).
  assert (Hn : newlyPassed o m = false).
  { unfold newlyPassed. rewrite Hpa, Hpa', Hvx, Hvw, Hw.
    destruct (Num.ltb (x o + 18) 400) eqn:H1; [reflexivity|].
    destruct (Num.ltb (x o - gameSpeed (gameState m) + 18) 400) eqn:H2;
      [|reflexivity].
    exfalso. apply NumFacts.ltb_ge in H1. apply NumFacts.ltb_lt in H2. lra. }
  assert (Hh' : hits (o, m) = false).
  { unfold hits. cbn [fst snd].
    destruct (checkCollision _ _) eqn:Hc; [|reflexivity]. exfalso.
    apply (collision_zone _ _ Hp) in Hc.
    - rewrite Hvx in Hc. lra.
    - rewrite visited_rect. exact Hy.
    - rewrite visited_rect. exact Hw.
    - rewrite visited_rect. exact Hh. }
  rewrite Hn, Hh'. reflexivity.
Qed.

Lemma forEachFrom_aside (n k : nat) (m : Refs) :
  playerInv (player (gameState m)) -> 0 <= gameSpeed (gameState m) <= 6 ->
  Forall (aside (player (gameState m)) (gameSpeed (gameState m)))
    (drop k (obstacles (gameState m))) ->
  snd (forEachFrom n k m) = [].
Proof.
  revert k m. induction n as [|n IH]; intros k m Hp Hs Hall; [reflexivity|].
  cbn [forEachFrom].
  destruct (obstacles (gameState m) !! k) as [o|] eqn:Hk.
  - rewrite (drop_S _ _ _ Hk) in Hall.
    pose proof (visitObstacle_aside o k m Hp Hs (Forall_inv Hall)) as Hc.
    pose proof (visitObstacle_outside o k m) as Hout.
    pose proof (drop_after_visit o k m Hk) as Hsub.
    destruct (visitObstacle o k m) as [m1 calls1]. cbn [fst snd] in *.
    unfold outsideLoop in Hout.
    assert (E1 : player (gameState m1) = player (gameState m)) by congruence.
    assert (E2 : gameSpeed (gameState m1) = gameSpeed (gameState m)) by congruence.
    specialize (IH (S k) m1). rewrite E1, E2 in IH.
    specialize (IH Hp Hs (Forall_sublist_of _ _ _ Hsub (Forall_inv_tail Hall))).
    destruct (forEachFrom n (S k) m1) as [m2 calls2]. cbn [snd] in *.
    rewrite Hc, IH. reflexivity.
  - apply IH; [exact Hp | exact Hs|].
    rewrite drop_ge; [constructor|]. apply lookup_ge_None in Hk. lia.
Qed.

Lemma gapped_sublist (d : Q) (l1 l2 : list Obstacle) :
  l1 `sublist_of` l2 -> gapped d l2 -> gapped d l1.
Proof.
  induction 1 as [|a l1 l2 Hsub IH|a l1 l2 Hsub IH]; cbn [gapped].
  - auto.
  - intros [Ha Hg]. split; [|auto]. exact (Forall_sublist_of _ _ _ Hsub Ha).
  - intros [_ Hg]. auto.
Qed.

Lemma spaced_gapped (l : list Obstacle) : spaced l -> gapped 377 l.
Proof.
  destruct l as [|a l]; [auto|]. intros [Ha Hg]. split; [exact Ha|].
  clear Ha. induction l as [|b l IH]; [exact Logic.I|].
  destruct Hg as [Hb Hg]. split; [|auto].
  eapply Forall_impl; [exact Hb|]. cbn. intros o Ho. lra.
Qed.

(** With the obstacles from index [k] on more than the width of the hit
    zone apart, at most one call of the callback makes a call. *)
Lemma forEachFrom_one (n k : nat) (m : Refs) :
  playerInv (player (gameState m)) -> 0 <= gameSpeed (gameState m) <= 6 ->
  Forall (fun o => obstacleShape o /\ passedInv o)
    (drop k (obstacles (gameState m))) ->
  gapped 377 (drop k (obstacles (gameState m))) ->
  snd (forEachFrom n k m) = [] \/
  exists v, In v (visitsFrom n k m) /\ snd (forEachFrom n k m) = callbackCalls v.
Proof.
  revert k m. induction n as [|n IH]; intros k m Hp Hs Hall Hgap; [auto|].
  cbn [forEachFrom visitsFrom].
  destruct (obstacles (gameState m) !! k) as [o|] eqn:Hk.
  - rewrite (drop_S _ _ _ Hk) in Hall, Hgap. destruct Hgap as [Hgo Hgap].
    pose proof (visitObstacle_outside o k m) as Hout.
    pose proof (drop_after_visit o k m Hk) as Hsub.
    pose proof (callbackCalls_index o k m) as Hidx.
    unfold outsideLoop in Hout.
    assert (E1 : player (gameState (fst (visitObstacle o k m))) =
                 player (gameState m)) by congruence.
    assert (E2 : gameSpeed (gameState (fst (visitObstacle o k m))) =
                 gameSpeed (gameState m)) by congruence.
    destruct (Qlt_le_dec 362 (x o - gameSpeed (gameState m))) as [Hlo|Hlo];
      [destruct (Qlt_le_dec (x o - gameSpeed (gameState m)) 420) as [Hhi|Hhi]|].
    + (* the obstacle at the player: the later ones are right of it *)
      assert (Hrest : snd (forEachFrom n (S k) (fst (visitObstacle o k m))) = []).
      { apply forEachFrom_aside; rewrite ?E1, ?E2; [exact Hp | exact Hs|].
        apply (Forall_sublist_of _ _ _ Hsub). apply Forall_forall.
        intros b Hb.
        pose proof (proj1 (Forall_forall _ _) Hgo b Hb) as H1.
        pose proof (proj1 (Forall_forall _ _) (Forall_inv_tail Hall) b Hb)
          as [H2 H3].
        cbn in H1. split; [exact H2|]. split; [exact H3|]. left. lra. }
      right. exists (o, m). split; [left; reflexivity|].
      destruct (visitObstacle o k m) as [m1 calls1]. cbn [fst snd] in *.
      destruct (forEachFrom n (S k) m1) as [m2 calls2]. cbn [snd] in *.
      rewrite Hrest, app_nil_r. exact Hidx.
    + assert (Hc : snd (visitObstacle o k m) = []).
      { apply visitObstacle_aside; [exact Hp | exact Hs|].
        destruct (Forall_inv Hall). split; [|split]; auto. }
      specialize (IH (S k) (fst (visitObstacle o k m))).
      rewrite E1, E2 in IH.
      specialize (IH Hp Hs (Forall_sublist_of _ _ _ Hsub (Forall_inv_tail Hall))
                    (gapped_sublist _ _ _ Hsub Hgap)).
      destruct (visitObstacle o k m) as [m1 calls1]. cbn [fst snd] in *.
      destruct (forEachFrom n (S k) m1) as [m2 calls2]. cbn [snd] in *.
      rewrite Hc. cbn [app].
      destruct IH as [IH | (v & Hv & IH)]; [auto|].
      right. exists v. split; [right; exact Hv | exact IH].
    + assert (Hc : snd (visitObstacle o k m) = []).
      { apply visitObstacle_aside; [exact Hp | exact Hs|].
        destruct (Forall_inv Hall). split; [|split]; auto. }
      specialize (IH (S k) (fst (visitObstacle o k m))).
      rewrite E1, E2 in IH.
      specialize (IH Hp Hs (Forall_sublist_of _ _ _ Hsub (Forall_inv_tail Hall))
                    (gapped_sublist _ _ _ Hsub Hgap)).
      destruct (visitObstacle o k m) as [m1 calls1]. cbn [fst snd] in *.
      destruct (forEachFrom n (S k) m1) as [m2 calls2]. cbn [snd] in *.
      rewrite Hc. cbn [app].
      destruct IH as [IH | (v & Hv & IH)]; [auto|].
      right. exists v. split; [right; exact Hv | exact IH].
  - apply IH; [exact Hp | exact Hs | |];
      (rewrite drop_ge; [constructor|]; apply lookup_ge_None in Hk; lia).
Qed.

(** In a reachable state, all calls of an update are made in one call of
    the callback. *)
Lemma updateGame_one_callback (w : World) (random : Q) :
  reachable w ->
  let calls := snd (updateGame (react w) random (refs w)) in
  calls = [] \/
  exists v, In v (frameVisits random w) /\ calls = callbackCalls v.
Proof.
  intros Hr. cbn zeta. unfold frameVisits.
  destruct (running (react w)) eqn:Hrun;
    [|rewrite (updateGame_stopped _ _ _ Hrun); auto].
  rewrite (updateGame_running _ _ _ Hrun). cbn [snd]. unfold forEachObstacle.
  pose proof (arrayInv_reachable w Hr) as Hinv.
  pose proof (lastObstacleX_reachable w Hr) as H800.
  destruct (loopStart_inv random (refs w) Hinv H800) as (Hsh & _ & Hsp & _).
  cbn zeta in *.
  apply forEachFrom_one.
  - rewrite loopStart_player.
    destruct (physicsInv_reachable w Hr) as (-> & _).
    apply updatePlayer_inv, playerInv_reachable, Hr.
  - rewrite loopStart_gameSpeed. destruct Hinv as (_ & _ & _ & _ & Hs). lra.
  - rewrite drop_0. apply Forall_and. split; [exact Hsh|].
    unfold loopStart. cbn [gameState].
    destruct (beforeLoop_spawn random (gameState (refs w))) as [-> _].
    pose proof (passedInv_reachable w Hr) as Hpa.
    destruct (_ && _); [|exact Hpa].
    apply Forall_app. split; [exact Hpa|]. constructor; [|constructor].
    reflexivity.
  - rewrite drop_0. apply spaced_gapped, Hsp.
Qed.

End OneCallback.

(** ** A game played up to the last obstacle *)

Section Play.

(** The game goes on after a frame that leaves the score below the
    maximum and calls no [setGameOver]. *)
Lemma frame_running (w : World) (random : Q) :
  reachable w -> running (react w) = true ->
  (currentScoreRef (refs (step (Frame random) w)) < MAX_SCORE)%Z ->
  ~ In (SetGameOver true) (snd (updateGame (react w) random (refs w))) ->
  running (react (step (Frame random) w)) = true.
Proof.
  intros Hr Hrun Hsc Hno.
  apply running_true in Hrun. destruct Hrun as (Hst & Hov & Hwn).
  apply running_true.
  pose proof (step_lifecycle (Frame random) w) as Hl.
  rewrite handle_frame_calls in Hl.
  destruct (updateGame_facts (react w) random (refs w)) as (_ & Hcalls & _).
  destruct (applyCalls_frame _ Hcalls (react w) None)
    as (_ & Hs' & _ & _ & _ & Ho' & _).
  cbn zeta in *. unfold lifecycle in Hl.
  assert (Hr' : reachable (step (Frame random) w)) by (apply reach_step, Hr).
  split; [|split].
  - replace (gameStarted (react (step (Frame random) w)))
      with (gameStarted (applyCalls (snd (updateGame (react w) random (refs w)))
                           (react w))) by congruence.
    rewrite Hs'. exact Hst.
  - replace (gameOver (react (step (Frame random) w)))
      with (gameOver (applyCalls (snd (updateGame (react w) random (refs w)))
                        (react w))) by congruence.
    rewrite (Ho' Hno). exact Hov.
  - rewrite (wonInv_reachable _ Hr').
    destruct (scoreInv_reachable _ Hr') as (-> & _).
    apply Z.leb_gt. exact Hsc.
Qed.

(** The fields of the simulation after a frame are those the update
    leaves. *)
Lemma frame_fields (w : World) (random : Q) :
  reachable w ->
  simulation (gameState (refs (step (Frame random) w))) =
    simulation (gameState (fst (updateGame (react w) random (refs w)))) /\
  currentScoreRef (refs (step (Frame random) w)) =
    currentScoreRef (fst (updateGame (react w) random (refs w))).
Proof.
  intros Hr. destruct (scoreInv_reachable w Hr) as (Hs & _).
  rewrite (step_refs _ w Hs), handle_frame. apply render_simulation.
Qed.

Lemma reachable_rate (w : World) :
  reachable w ->
  0.006 <= obstacleSpawnRate (gameState (refs w)) <= 0.015.
Proof.
  intros Hr. destruct (difficultyInv_reachable w Hr) as [_ H2].
  destruct (scoreInv_reachable w Hr) as (_ & H0 & _).
  rewrite H2. apply newSpawnRate_bounds, H0.
Qed.

(** With the random value 0.5 no obstacle is generated. *)
Lemma loopStart_half (w : World) :
  reachable w ->
  obstacles (gameState (loopStart 0.5 (refs w))) = obstacles (gameState (refs w)) /\
  lastObstacleX (beforeLoop 0.5 (gameState (refs w))) =
    lastObstacleX (gameState (refs w)).
Proof.
  intros Hr. unfold loopStart. cbn [gameState].
  destruct (beforeLoop_spawn 0.5 (gameState (refs w))) as [-> ->].
  assert (H : Num.ltb 0.5 (obstacleSpawnRate (gameState (refs w))) = false).
  { apply NumFacts.ltb_ge. pose proof (reachable_rate w Hr). lra. }
  rewrite H. split; reflexivity.
Qed.

(** With the random value 0 an obstacle is generated as soon as the last
    one is far enough. *)
Lemma loopStart_zero (w : World) :
  reachable w -> lastObstacleX (gameState (refs w)) < 400 ->
  obstacles (gameState (loopStart 0 (refs w))) =
    obstacles (gameState (refs w)) ++ [newObstacle] /\
  lastObstacleX (beforeLoop 0 (gameState (refs w))) = BASE_WIDTH.
Proof.
  intros Hr HL. unfold loopStart. cbn [gameState].
  destruct (beforeLoop_spawn 0 (gameState (refs w))) as [-> ->].
  assert (H1 : Num.ltb 0 (obstacleSpawnRate (gameState (refs w))) = true).
  { apply NumFacts.ltb_lt. pose proof (reachable_rate w Hr). lra. }
  assert (H2 : Num.gtb (BASE_WIDTH - lastObstacleX (gameState (refs w))) 400 = true).
  { apply NumFacts.ltb_lt. unfold BASE_WIDTH. lra. }
  rewrite H1, H2. split; reflexivity.
Qed.

(** The update on an array that holds one obstacle when the loop starts,
    and on an empty one. *)
Lemma updateGame_single (props : React) (random : Q) (m : Refs) (o : Obstacle) :
  running props = true ->
  obstacles (gameState (loopStart random m)) = [o] ->
  updateGame props random m =
  (updateDifficulty (fst (visitObstacle o 0 (loopStart random m))),
   callbackCalls (o, loopStart random m)).
Proof.
  intros Hrun Harr. rewrite (updateGame_running _ _ _ Hrun).
  unfold forEachObstacle, callbackCalls. rewrite Harr.
  cbn [length forEachFrom fst snd]. rewrite Harr. cbn [lookup list_lookup].
  destruct (visitObstacle o 0 (loopStart random m)) as [m1 calls1].
  cbn [fst snd]. rewrite app_nil_r. reflexivity.
Qed.

Lemma updateGame_empty (props : React) (random : Q) (m : Refs) :
  running props = true ->
  obstacles (gameState (loopStart random m)) = [] ->
  updateGame props random m = (updateDifficulty (loopStart random m), []).
Proof.
  intros Hrun Harr. rewrite (updateGame_running _ _ _ Hrun).
  unfold forEachObstacle. rewrite Harr. reflexivity.
Qed.

(** What one call of the callback does to the only obstacle of a
    reachable state. *)
Lemma visit_single (w : World) (random : Q) (o : Obstacle) :
  reachable w ->
  obstacles (gameState (loopStart random (refs w))) = [o] ->
  obstacleShape o -> passedInv o ->
  let g := gameState (refs w) in
  let s := gameSpeed g in
  let p' := updatePlayer 0.3 (player g) in
  let o' := advance p' s o in
  let m1 := fst (visitObstacle o 0 (loopStart random (refs w))) in
  playerInv p' /\ 1.5 <= s <= 6 /\
  obstacleShape o' /\ passedInv o' /\ x o' = x o - s /\
  (passed o = true -> passed o' = true) /\
  obstacles (gameState m1) = (if offScreen (moveObstacle s o) then [] else [o']) /\
  currentScoreRef m1 =
    (if negb (passed o) && passed o' then currentScoreRef (refs w) + 10
     else currentScoreRef (refs w))%Z /\
  newlyPassed o (loopStart random (refs w)) = negb (passed o) && passed o' /\
  (hits (o, loopStart random (refs w)) = true <->
   362 < x o - s < 420 /\ 135 < y p').
Proof.
  intros Hr Harr Hsh Hpa. cbn zeta.
  set (m0 := loopStart random (refs w)) in *.
  destruct (physicsInv_reachable w Hr) as (Hg & _).
  pose proof (playerInv_reachable w Hr) as Hp.
  apply updatePlayer_inv in Hp.
  assert (Hs : 1.5 <= gameSpeed (gameState (refs w)) <= 6)
    by apply (arrayInv_reachable w Hr).
  assert (Hp0 : player (gameState m0) =
                updatePlayer 0.3 (player (gameState (refs w))))
    by (unfold m0; rewrite loopStart_player, Hg; reflexivity).
  assert (Hs0 : gameSpeed (gameState m0) = gameSpeed (gameState (refs w)))
    by apply loopStart_gameSpeed.
  assert (Hv : visited o m0 =
               advance (updatePlayer 0.3 (player (gameState (refs w))))
                 (gameSpeed (gameState (refs w))) o)
    by (rewrite visited_advance, Hp0, Hs0; reflexivity).
  set (o' := advance _ _ o) in *.
  assert (Hsh' : obstacleShape o').
  { rewrite <- Hv. apply visited_shape; [rewrite Hs0; lra | exact Hsh]. }
  assert (Hpa' : passedInv o') by (apply advance_passed; [exact Hp | lra | exact Hpa]).
  destruct (visitObstacle_facts o 0 m0) as (Hc & _ & Hmono & _).
  cbn zeta in Hc, Hmono. rewrite Hv in Hmono.
  assert (Hn : newlyPassed o m0 = negb (passed o) && passed o')
    by (unfold newlyPassed; rewrite Hv; reflexivity).
  split; [exact Hp|]. split; [exact Hs|]. split; [exact Hsh'|].
  split; [exact Hpa'|]. split; [apply advance_x|]. split; [exact Hmono|].
  split; [|split; [|split; [exact Hn|]]].
  - rewrite visitObstacle_obstacles, Hv, Harr.
    assert (E : offScreen o' =
                offScreen (moveObstacle (gameSpeed (gameState (refs w))) o)).
    { unfold offScreen, o'. rewrite advance_rect. reflexivity. }
    rewrite E. destruct (offScreen _); reflexivity.
  - rewrite Hc, Hn. reflexivity.
  - unfold hits. cbn [fst snd]. rewrite Hv, Hp0.
    destruct Hsh' as (Hy & Hw & Hh & _).
    rewrite (collision_zone _ _ Hp Hy Hw Hh).
    destruct (advance_x (updatePlayer 0.3 (player (gameState (refs w))))
                (gameSpeed (gameState (refs w))) o) as [Hx _].
    fold o' in Hx. rewrite Hx. tauto.
Qed.

Lemma facing_facts (n : Z) (o : Obstacle) (w : World) :
  facing n o w ->
  obstacleShape o /\ passedInv o /\ onScreen o.
Proof.
  intros (Hr & _ & Harr & _).
  pose proof (proj1 (obstacleShape_reachable w Hr)) as H1.
  pose proof (passedInv_reachable w Hr) as H2.
  destruct (arrayInv_reachable w Hr) as (_ & H3 & _). cbn zeta in H3.
  rewrite Harr in H1, H2, H3.
  split; [exact (Forall_inv H1)|]. split; [exact (Forall_inv H2)|].
  exact (Forall_inv H3).
Qed.

(** A frame whose loop starts on one obstacle, with no collision and the
    score left below the maximum: the game goes on, with the obstacle moved
    or gone. *)
Lemma single_step (w : World) (random : Q) (o : Obstacle) :
  reachable w -> running (react w) = true ->
  obstacles (gameState (loopStart random (refs w))) = [o] ->
  obstacleShape o -> passedInv o ->
  let g := gameState (refs w) in
  let s := gameSpeed g in
  let p' := updatePlayer 0.3 (player g) in
  let o' := advance p' s o in
  let w' := step (Frame random) w in
  let cur' := (if negb (passed o) && passed o'
               then currentScoreRef (refs w) + 10
               else currentScoreRef (refs w))%Z in
  (cur' < MAX_SCORE)%Z ->
  ~ (362 < x o - s < 420 /\ 135 < y p') ->
  reachable w' /\ running (react w') = true /\
  player (gameState (refs w')) = p' /\
  currentScoreRef (refs w') = cur' /\
  obstacles (gameState (refs w')) =
    (if offScreen (moveObstacle s o) then [] else [o']).
Proof.
  intros Hr Hrun Harr0 Hsh Hpa. cbn zeta. intros Hmax Hmiss.
  destruct (visit_single w random o Hr Harr0 Hsh Hpa)
    as (_ & _ & _ & _ & _ & _ & Harr1 & Hcur1 & _ & Hhit).
  cbn zeta in *.
  destruct (frame_fields w random Hr) as [Hsim Hsc].
  pose proof (updateGame_single (react w) random (refs w) o Hrun Harr0) as Hup.
  rewrite Hup in Hsim, Hsc. cbn [fst] in Hsim, Hsc.
  unfold simulation, updateDifficulty in Hsim.
  cbn [gameState player obstacles set_lastObstacleX set_obstacleSpawnRate
       set_gameSpeed] in Hsim.
  change (currentScoreRef (updateDifficulty ?a)) with (currentScoreRef a) in Hsc.
  rewrite Hcur1 in Hsc.
  split; [apply reach_step, Hr|]. split; [|split; [|split; [exact Hsc|]]].
  - apply frame_running; [exact Hr | exact Hrun | rewrite Hsc; exact Hmax|].
    rewrite Hup. cbn [snd]. unfold callbackCalls. cbn [fst snd].
    rewrite visitObstacle_hit. intros H. apply Hhit in H. tauto.
  - destruct (gameLoop_player random w) as (Hp & _). cbn zeta in Hp.
    rewrite Hp, Hrun. destruct (physicsInv_reachable w Hr) as (-> & _).
    reflexivity.
  - rewrite <- Harr1. congruence.
Qed.

(** The same for a game with one obstacle when none is generated: the
    score stays below the maximum when the obstacle is not the last one of
    the game, or is not passed in this frame. *)
Lemma facing_step (n : Z) (o : Obstacle) (w : World) :
  facing n o w ->
  let g := gameState (refs w) in
  let s := gameSpeed g in
  let p' := updatePlayer 0.3 (player g) in
  let o' := advance p' s o in
  let w' := step (Frame 0.5) w in
  (n <= 9999)%Z -> (n < 9999)%Z \/ 382 <= x o - s ->
  ~ (362 < x o - s < 420 /\ 135 < y p') ->
  player (gameState (refs w')) = p' /\
  obstacleShape o' /\ passedInv o' /\ x o' = x o - s /\
  reachable w' /\ running (react w') = true /\
  currentScoreRef (refs w') = (10 * n + (if passed o' then 10 else 0))%Z /\
  obstacles (gameState (refs w')) =
    (if offScreen (moveObstacle s o) then [] else [o']).
Proof.
  intros Hf. cbn zeta. intros Hn Hmax Hmiss.
  destruct (facing_facts n o w Hf) as (Hsh & Hpa & _).
  destruct Hf as (Hr & Hrun & Harr & Hcur).
  destruct (loopStart_half w Hr) as [Harr0 _]. rewrite Harr in Harr0.
  destruct (visit_single w 0.5 o Hr Harr0 Hsh Hpa)
    as (_ & _ & Hsh' & Hpa' & Hx' & Hmono & _).
  cbn zeta in *.
  set (o' := advance (updatePlayer 0.3 (player (gameState (refs w))))
               (gameSpeed (gameState (refs w))) o) in *.
  assert (E : (if negb (passed o) && passed o'
               then currentScoreRef (refs w) + 10
               else currentScoreRef (refs w))%Z =
              (10 * n + (if passed o' then 10 else 0))%Z).
  { rewrite Hcur. destruct (passed o) eqn:E.
    - rewrite (Hmono eq_refl). reflexivity.
    - cbn [negb andb]. destruct (passed o'); lia. }
  assert (Hlt : (10 * n + (if passed o' then 10 else 0) < MAX_SCORE)%Z).
  { unfold MAX_SCORE. destruct Hmax as [Hlt | Hfar]; [destruct (passed o'); lia|].
    assert (Hf' : passed o' = false).
    { unfold passedInv in Hpa'. rewrite Hpa'. apply NumFacts.ltb_ge.
      destruct Hsh' as (_ & -> & _). rewrite Hx'. lra. }
    rewrite Hf'. lia. }
  destruct (single_step w 0.5 o Hr Hrun Harr0 Hsh Hpa) as (H1 & H2 & H3 & H4 & H5).
  - fold o'. rewrite E. exact Hlt.
  - exact Hmiss.
  - cbn zeta in *. fold o' in H4, H5. rewrite E in H4. auto 10.
Qed.

End Play.

(** ** From one obstacle to the next *)

Section Cycle.

Lemma idle_start : idle 0 (step Press (fst (mount None))).
Proof.
  split; [apply reach_step, reach_mount|]. repeat split; reflexivity.
Qed.

Lemma grounded_stays (p : PlayerObject) :
  isJumping p = false -> updatePlayer 0.3 p = p.
Proof. intros H. unfold updatePlayer. rewrite H. reflexivity. Qed.

Lemma inject_nat_S (j : nat) :
  inject_Z (Z.of_nat (S j)) == inject_Z (Z.of_nat j) + 1.
Proof. rewrite Nat2Z.inj_succ. unfold Z.succ. rewrite inject_Z_plus. reflexivity. Qed.

Lemma inject_nat_le (j k : nat) :
  (j <= k)%nat -> inject_Z (Z.of_nat j) <= inject_Z (Z.of_nat k).
Proof. intros H. rewrite <- Zle_Qle. lia. Qed.

Lemma inject_nat_nonneg (j : nat) : 0 <= inject_Z (Z.of_nat j).
Proof. apply (inject_nat_le 0 j). lia. Qed.

(** A frame of the idle game with no obstacle generated. *)
Lemma idle_frame (n : Z) (w : World) :
  idle n w -> (0 <= 10 * n < MAX_SCORE)%Z ->
  idle n (step (Frame 0.5) w) /\
  lastObstacleX (gameState (refs (step (Frame 0.5) w))) <=
  lastObstacleX (gameState (refs w)) - 1.5.
Proof.
  intros (Hr & Hrun & Hcur & Harr & Hj) Hn.
  destruct (loopStart_half w Hr) as [Harr0 HL0]. rewrite Harr in Harr0.
  pose proof (updateGame_empty (react w) 0.5 (refs w) Hrun Harr0) as Hup.
  destruct (frame_fields w 0.5 Hr) as [Hsim Hsc].
  pose proof (updateGame_lastObstacleX (react w) 0.5 (refs w) Hrun) as HL.
  cbn zeta in HL. rewrite HL0 in HL.
  rewrite Hup in Hsim, Hsc, HL. cbn [fst] in Hsim, Hsc, HL.
  change (currentScoreRef (updateDifficulty ?a)) with (currentScoreRef a) in Hsc, HL.
  change (currentScoreRef (loopStart 0.5 (refs w))) with (currentScoreRef (refs w))
    in Hsc, HL.
  unfold simulation in Hsim.
  assert (Harr' : obstacles (gameState (refs (step (Frame 0.5) w))) =
                  obstacles (gameState (updateDifficulty (loopStart 0.5 (refs w)))))
    by congruence.
  assert (HL' : lastObstacleX (gameState (refs (step (Frame 0.5) w))) =
                lastObstacleX (gameState (updateDifficulty (loopStart 0.5 (refs w)))))
    by congruence.
  change (obstacles (gameState (updateDifficulty ?a)))
    with (obstacles (gameState a)) in Harr'.
  rewrite Harr0 in Harr'. rewrite HL in HL'.
  split.
  - split; [apply reach_step, Hr|]. split; [|split; [|split]].
    + apply frame_running; [exact Hr | exact Hrun | rewrite Hsc; lia|].
      rewrite Hup. intros [].
    + rewrite Hsc. exact Hcur.
    + exact Harr'.
    + destruct (gameLoop_player 0.5 w) as (Hp & _). cbn zeta in Hp.
      rewrite Hp, Hrun. destruct (physicsInv_reachable w Hr) as (-> & _).
      rewrite (grounded_stays _ Hj). exact Hj.
  - rewrite HL'.
    destruct (newSpeed_bounds (currentScoreRef (refs w))) as [Hlo _]; [lia|].
    lra.
Qed.

(** The idle game waits until an obstacle can be generated. *)
Lemma idle_wait (n : Z) (N : nat) :
  forall w : World,
  idle n w -> (0 <= 10 * n < MAX_SCORE)%Z ->
  lastObstacleX (gameState (refs w)) < 400 + 1.5 * inject_Z (Z.of_nat N) ->
  exists w' : World, idle n w' /\ lastObstacleX (gameState (refs w')) < 400.
Proof.
  induction N as [|N IH]; intros w Hi Hn HL.
  - exists w. split; [exact Hi|]. change (inject_Z (Z.of_nat 0)) with 0 in HL. lra.
  - destruct (Qlt_le_dec (lastObstacleX (gameState (refs w))) 400) as [Hlt|Hge];
      [exists w; auto|].
    destruct (idle_frame n w Hi Hn) as [Hi' HL'].
    apply (IH _ Hi' Hn). rewrite inject_nat_S in HL. lra.
Qed.

(** The frame that generates the next obstacle. *)
Lemma idle_spawn (n : Z) (w : World) :
  idle n w -> (0 <= 10 * n < MAX_SCORE)%Z ->
  lastObstacleX (gameState (refs w)) < 400 ->
  exists (w' : World) (o : Obstacle),
    facing n o w' /\ isJumping (player (gameState (refs w'))) = false /\
    x o = 800 - gameSpeed (gameState (refs w)).
Proof.
  intros (Hr & Hrun & Hcur & Harr & Hj) Hn HL.
  destruct (loopStart_zero w Hr HL) as [Harr0 _]. rewrite Harr in Harr0.
  cbn [app] in Harr0.
  assert (Hsh : obstacleShape newObstacle).
  { repeat split. apply Qle_refl. }
  assert (Hpa : passedInv newObstacle) by reflexivity.
  destruct (visit_single w 0 newObstacle Hr Harr0 Hsh Hpa)
    as (_ & Hs & Hsh' & Hpa' & Hx' & _).
  cbn zeta in *.
  set (o' := advance (updatePlayer 0.3 (player (gameState (refs w))))
               (gameSpeed (gameState (refs w))) newObstacle) in *.
  change (x newObstacle) with 800 in Hx'.
  assert (Hf' : passed o' = false).
  { unfold passedInv in Hpa'. rewrite Hpa'. apply NumFacts.ltb_ge.
    destruct Hsh' as (_ & -> & _). rewrite Hx'. lra. }
  destruct (single_step w 0 newObstacle Hr Hrun Harr0 Hsh Hpa)
    as (H1 & H2 & H3 & H4 & H5).
  - fold o'. rewrite Hf', andb_false_r. lia.
  - change (x newObstacle) with 800. lra.
  - cbn zeta in *. fold o' in H4, H5. rewrite Hf', andb_false_r in H4.
    assert (Hoff : offScreen (moveObstacle (gameSpeed (gameState (refs w)))
                                newObstacle) = false).
    { apply NumFacts.ltb_ge. cbn [moveObstacle obstacle_rect x width].
      change (x newObstacle) with 800. change (width newObstacle) with 18. lra. }
    rewrite Hoff in H5.
    exists (step (Frame 0) w), o'. split; [|split; [|exact Hx']].
    + split; [exact H1|]. split; [exact H2|]. split; [exact H5|].
      rewrite H4, Hf', Hcur. lia.
    + rewrite H3, (grounded_stays _ Hj). exact Hj.
Qed.

Lemma facing_speed (n : Z) (o : Obstacle) (w : World) :
  facing n o w -> (0 <= n)%Z ->
  newSpeed (10 * n) <= gameSpeed (gameState (refs w)) <= 6.
Proof.
  intros (Hr & _ & _ & Hcur) Hn.
  destruct (difficultyInv_reachable w Hr) as [H1 _].
  rewrite H1, Hcur. split.
  - apply newSpeed_mono. destruct (passed o); lia.
  - apply newSpeed_bounds. destruct (passed o); lia.
Qed.

(** The obstacle comes nearer while the player waits on the ground, until
    it is in the window of width 6 that begins at [a]. *)
Lemma approach_run (n : Z) (a : Q) (N : nat) :
  forall (w : World) (o : Obstacle),
  (0 <= n <= 9999)%Z -> 420 <= a -> (n < 9999)%Z \/ 382 <= a ->
  facing n o w -> isJumping (player (gameState (refs w))) = false ->
  a <= x o -> x o < a + 6 + 1.5 * inject_Z (Z.of_nat N) ->
  exists (w' : World) (o' : Obstacle),
    facing n o' w' /\ isJumping (player (gameState (refs w'))) = false /\
    a <= x o' < a + 6.
Proof.
  induction N as [|N IH]; intros w o Hn Ha Hmax Hf Hj Hlo Hhi.
  - exists w, o. change (inject_Z (Z.of_nat 0)) with 0 in Hhi.
    split; [exact Hf|]. split; [exact Hj|]. lra.
  - destruct (Qlt_le_dec (x o) (a + 6)) as [Hlt|Hge];
      [exists w, o; auto|].
    destruct (facing_speed n o w Hf) as [Hs1 Hs2]; [lia|].
    destruct (newSpeed_bounds (10 * n)) as [Hs0 _]; [lia|].
    destruct (facing_step n o w Hf) as (Hp & Hsh' & Hpa' & Hx' & Hr' & Hrun' & Hc' & Harr');
      [lia | destruct Hmax; [auto | right; lra] | lra |].
    cbn zeta in *.
    assert (Hoff : offScreen (moveObstacle (gameSpeed (gameState (refs w))) o)
                   = false).
    { apply NumFacts.ltb_ge. cbn [moveObstacle obstacle_rect x width].
      destruct (facing_facts n o w Hf) as ((_ & -> & _) & _). lra. }
    rewrite Hoff in Harr'.
    apply (IH (step (Frame 0.5) w)
               (advance (updatePlayer 0.3 (player (gameState (refs w)))) (gameSpeed (gameState (refs w))) o) Hn Ha Hmax).
    + split; [exact Hr'|]. split; [exact Hrun'|]. split; [exact Harr' | exact Hc'].
    + rewrite Hp, (grounded_stays _ Hj). exact Hj.
    + rewrite Hx'. lra.
    + rewrite Hx'. rewrite inject_nat_S in Hhi. lra.
Qed.

(** The jump command in a game with one obstacle. *)
Lemma facing_press (n : Z) (o : Obstacle) (w : World) :
  facing n o w -> isJumping (player (gameState (refs w))) = false ->
  facing n o (step Press w) /\
  isJumping (player (gameState (refs (step Press w)))) = true /\
  arcAt 0 (player (gameState (refs (step Press w)))).
Proof.
  intros (Hr & Hrun & Harr & Hcur) Hj.
  pose proof (press_jumps w Hr Hrun Hj) as Hg.
  destruct (scoreInv_reachable w Hr) as (Hs & _).
  destruct (physicsInv_reachable w Hr) as (_ & _ & Hgd).
  destruct (Hgd Hj) as [Hy _].
  pose proof Hrun as Hrun0.
  apply running_true in Hrun. destruct Hrun as (Hst & Hov & Hwn).
  assert (Hh : handle Press w =
               (mkRefs (set_player (mkPlayer (player (gameState (refs w)))
                                      (jumpPower (gameState (refs w))) true)
                          (gameState (refs w)))
                  (currentScoreRef (refs w)), [])).
  { unfold handle, jump. rewrite Hst, Hov, Hwn, Hj. reflexivity. }
  pose proof (step_refs Press w Hs) as Hrefs. rewrite Hh in Hrefs. cbn [fst] in Hrefs.
  pose proof (step_lifecycle Press w) as Hl. rewrite Hh in Hl.
  cbn [snd applyCalls fold_left] in Hl. unfold lifecycle in Hl.
  split; [|split].
  - split; [apply reach_step, Hr|]. split; [|split].
    + apply running_true.
      split; [|split]; [transitivity (gameStarted (react w)) |
                        transitivity (gameOver (react w)) |
                        transitivity (gameWon (react w))];
        solve [congruence | assumption].
    + rewrite Hg. exact Harr.
    + rewrite Hrefs. exact Hcur.
  - rewrite Hg. reflexivity.
  - rewrite Hg. cbn [player set_player]. unfold arcAt.
    cbn [velocityY player_rect]. change (y (mkPlayer ?r ?v ?b)) with (y r).
    split; [reflexivity|]. rewrite Hy. reflexivity.
Qed.

(** One frame of the rising or falling part of a jump, and the frame that
    ends it. *)
Lemma arc_step (k : Z) (p : PlayerObject) :
  isJumping p = true -> arcAt k p -> (0 <= k < 65)%Z ->
  isJumping (updatePlayer 0.3 p) = true /\ arcAt (k + 1) (updatePlayer 0.3 p).
Proof.
  intros Hj Ha Hk. destruct (arcAt_next _ _ Ha) as [Hv Hy].
  unfold updatePlayer. rewrite Hj.
  destruct (Num.geb _ _) eqn:Hg.
  - exfalso. apply NumFacts.geb_ge in Hg. rewrite Hy in Hg.
    assert (H : (3000 - 197 * (k + 1) + 3 * (k + 1) * (k + 1) < 3000)%Z) by nia.
    rewrite Zlt_Qlt in H. revert H Hg.
    generalize (inject_Z (3000 - 197 * (k + 1) + 3 * (k + 1) * (k + 1))).
    intros c H Hg. change (inject_Z 3000) with 3000 in H.
    unfold Qdiv in Hg. change (/ 20) with (1 # 20) in Hg. lra.
  - split; [reflexivity|]. split; [exact Hv | exact Hy].
Qed.

Lemma arc_land (p : PlayerObject) :
  isJumping p = true -> arcAt 65 p -> isJumping (updatePlayer 0.3 p) = false.
Proof.
  intros Hj Ha. destruct (arcAt_next _ _ Ha) as [_ Hy].
  unfold updatePlayer. rewrite Hj.
  destruct (Num.geb _ _) eqn:Hg; [reflexivity|]. exfalso.
  assert (Hge : Num.geb (y p + (velocityY p + 0.3)) 150 = true).
  { apply NumFacts.geb_ge. rewrite Hy. vm_compute. discriminate. }
  congruence.
Qed.

(** The first 64 frames of a jump over the obstacle, which was in the
    window that begins at [a] when the jump began; [sigma] is the least
    speed. *)
Lemma airborne_run (n : Z) (a sigma : Q) (k : nat) :
  forall (j : nat) (w : World) (o : Obstacle),
  (0 <= n <= 9999)%Z -> 426 <= a -> (n < 9999)%Z \/ 766 <= a ->
  sigma <= newSpeed (10 * n) ->
  facing n o w ->
  isJumping (player (gameState (refs w))) = true ->
  arcAt (Z.of_nat j) (player (gameState (refs w))) ->
  a - 6 * inject_Z (Z.of_nat j) <= x o < a + 6 - sigma * inject_Z (Z.of_nat j) ->
  (j + k <= 64)%nat ->
  exists (w' : World) (o' : Obstacle),
    facing n o' w' /\
    isJumping (player (gameState (refs w'))) = true /\
    arcAt (Z.of_nat (j + k)) (player (gameState (refs w'))) /\
    a - 6 * inject_Z (Z.of_nat (j + k)) <= x o'
      < a + 6 - sigma * inject_Z (Z.of_nat (j + k)).
Proof.
  induction k as [|k IH]; intros j w o Hn Ha Hmax Hsig Hf Hj Harc Hx Hjk.
  - exists w, o. rewrite Nat.add_0_r. auto.
  - destruct (facing_speed n o w Hf) as [Hs1 Hs2]; [lia|].
    destruct (arc_step (Z.of_nat j) _ Hj Harc) as [Hj' Harc']; [lia|].
    pose proof (inject_nat_le j 63 ltac:(lia)) as Hj63.
    pose proof (inject_nat_nonneg j) as Hj0.
    change (inject_Z (Z.of_nat 63)) with 63 in Hj63.
    destruct (facing_step n o w Hf)
      as (Hp & Hsh' & Hpa' & Hx' & Hr' & Hrun' & Hc' & Harr').
    + lia.
    + destruct Hmax as [Hlt | Hfar]; [auto|]. right. lra.
    + intros [Hzone Hhigh]. destruct j as [|j].
      * change (inject_Z (Z.of_nat 0)) with 0 in Hx. lra.
      * assert (Hlow : y (updatePlayer 0.3 (player (gameState (refs w)))) <= 135).
        { apply (arcAt_low (Z.of_nat (S j) + 1)); [lia | exact Harc']. }
        lra.
    + cbn zeta in *.
      assert (Hoff : offScreen (moveObstacle (gameSpeed (gameState (refs w))) o)
                     = false).
      { apply NumFacts.ltb_ge. cbn [moveObstacle obstacle_rect x width].
        destruct (facing_facts n o w Hf) as ((_ & -> & _) & _). lra. }
      rewrite Hoff in Harr'.
      replace (j + S k)%nat with (S j + k)%nat by lia.
      apply (IH (S j) (step (Frame 0.5) w)
               (advance (updatePlayer 0.3 (player (gameState (refs w)))) (gameSpeed (gameState (refs w))) o) Hn Ha Hmax Hsig).
      * split; [exact Hr'|]. split; [exact Hrun'|].
        split; [exact Harr' | exact Hc'].
      * rewrite Hp. exact Hj'.
      * rewrite Hp, Nat2Z.inj_succ. exact Harc'.
      * rewrite Hx', inject_nat_S.
        assert (Hmul : sigma * inject_Z (Z.of_nat j) + sigma <=
                       sigma * inject_Z (Z.of_nat j) +
                       gameSpeed (gameState (refs w))) by lra.
        split; lra.
      * lia.
Qed.

(** After these 64 frames the obstacle of an ordinary round is left of the
    player; the player lands two frames later. *)
Lemma airborne_land (n : Z) (w : World) (o : Obstacle) :
  (0 <= n < 9999)%Z ->
  facing n o w ->
  isJumping (player (gameState (refs w))) = true ->
  arcAt 64 (player (gameState (refs w))) ->
  46 <= x o < 340 ->
  exists (w' : World) (o' : Obstacle),
    facing n o' w' /\ isJumping (player (gameState (refs w'))) = false /\
    x o' <= 362.
Proof.
  intros Hn Hf Hj Harc Hx.
  destruct (facing_speed n o w Hf) as [Hs1 Hs2]; [lia|].
  destruct (newSpeed_bounds (10 * n)) as [Hs0 _]; [lia|].
  destruct (arc_step 64 _ Hj Harc) as [Hj1 Harc1]; [lia|].
  destruct (facing_step n o w Hf)
    as (Hp & Hsh' & Hpa' & Hx' & Hr' & Hrun' & Hc' & Harr');
    [lia | left; lia | lra |].
  cbn zeta in *.
  assert (Hoff : offScreen (moveObstacle (gameSpeed (gameState (refs w))) o)
                 = false).
  { apply NumFacts.ltb_ge. cbn [moveObstacle obstacle_rect x width].
    destruct (facing_facts n o w Hf) as ((_ & -> & _) & _). lra. }
  rewrite Hoff in Harr'.
  set (o1 := advance _ _ o) in *. set (w1 := step (Frame 0.5) w) in *.
  assert (Hf1 : facing n o1 w1) by (repeat split; assumption).
  rewrite <- Hp in Hj1, Harc1.
  destruct (facing_speed n o1 w1 Hf1) as [Hs3 Hs4]; [lia|].
  pose proof (arc_land _ Hj1 Harc1) as Hj2.
  destruct (facing_step n o1 w1 Hf1)
    as (Hp2 & Hsh2 & Hpa2 & Hx2 & Hr2 & Hrun2 & Hc2 & Harr2);
    [lia | left; lia | rewrite Hx'; lra |].
  cbn zeta in *.
  assert (Hoff2 : offScreen (moveObstacle (gameSpeed (gameState (refs w1))) o1)
                  = false).
  { apply NumFacts.ltb_ge. cbn [moveObstacle obstacle_rect x width].
    destruct Hsh' as (_ & -> & _). rewrite Hx'. lra. }
  rewrite Hoff2 in Harr2.
  exists (step (Frame 0.5) w1), (advance (updatePlayer 0.3 (player (gameState (refs w1))))
                                 (gameSpeed (gameState (refs w1))) o1).
  split; [repeat split; assumption|]. split; [rewrite Hp2; exact Hj2|].
  rewrite Hx2, Hx'. lra.
Qed.

(** The passed obstacle goes on to the left edge and leaves the array. *)
Lemma leaving_run (n : Z) (N : nat) :
  forall (w : World) (o : Obstacle),
  (0 <= n < 9999)%Z ->
  facing n o w -> isJumping (player (gameState (refs w))) = false ->
  x o <= 362 -> x o + 18 < 1.5 * inject_Z (Z.of_nat N) ->
  exists w' : World, idle (n + 1) w'.
Proof.
  induction N as [|N IH]; intros w o Hn Hf Hj Hx HN.
  - exfalso. destruct (facing_facts n o w Hf) as ((_ & Hw & _) & _ & Hon).
    unfold onScreen in Hon. rewrite Hw in Hon.
    change (inject_Z (Z.of_nat 0)) with 0 in HN. lra.
  - destruct (facing_speed n o w Hf) as [Hs1 Hs2]; [lia|].
    destruct (newSpeed_bounds (10 * n)) as [Hs0 _]; [lia|].
    destruct (facing_step n o w Hf)
      as (Hp & Hsh' & Hpa' & Hx' & Hr' & Hrun' & Hc' & Harr');
      [lia | left; lia | lra |].
    cbn zeta in *.
    assert (Hj' : isJumping (player (gameState (refs (step (Frame 0.5) w)))) = false)
      by (rewrite Hp, (grounded_stays _ Hj); exact Hj).
    destruct (offScreen _).
    + exists (step (Frame 0.5) w).
      split; [exact Hr'|]. split; [exact Hrun'|]. split; [|split; assumption].
      rewrite Hc'. unfold passedInv in Hpa'. rewrite Hpa'.
      assert (Hpassed : Num.ltb (x (advance (updatePlayer 0.3 (player (gameState (refs w))))
                                     (gameSpeed (gameState (refs w))) o) +
                                 width (advance (updatePlayer 0.3 (player (gameState (refs w))))
                                     (gameSpeed (gameState (refs w))) o)) 400 = true).
      { apply NumFacts.ltb_lt. destruct Hsh' as (_ & -> & _). rewrite Hx'. lra. }
      rewrite Hpassed. lia.
    + apply (IH (step (Frame 0.5) w)
               (advance (updatePlayer 0.3 (player (gameState (refs w)))) (gameSpeed (gameState (refs w))) o) Hn);
        [repeat split; assumption | exact Hj' | rewrite Hx'; lra |].
      rewrite Hx'. rewrite inject_nat_S in HN. lra.
Qed.

(** One round of the game: from [10 n] points to [10 n + 10]. *)
Lemma idle_next (n : Z) (w : World) :
  (0 <= n < 9999)%Z -> idle n w -> exists w' : World, idle (n + 1) w'.
Proof.
  intros Hn Hi.
  assert (Hmax : (0 <= 10 * n < MAX_SCORE)%Z) by (unfold MAX_SCORE; lia).
  destruct (idle_wait n 267 w Hi Hmax) as (w1 & Hi1 & HL1).
  { pose proof (lastObstacleX_reachable w (proj1 Hi)) as H800.
    change (inject_Z (Z.of_nat 267)) with 267. lra. }
  destruct (idle_spawn n w1 Hi1 Hmax HL1) as (w2 & o2 & Hf2 & Hj2 & Hx2).
  assert (Hs1 : 1.5 <= gameSpeed (gameState (refs w1)) <= 6)
    by apply (arrayInv_reachable w1 (proj1 Hi1)).
  destruct (approach_run n 430 243 w2 o2) as (w3 & o3 & Hf3 & Hj3 & Hx3);
    [lia | lra | left; lia | exact Hf2 | exact Hj2 | rewrite Hx2; lra | |].
  { rewrite Hx2. change (inject_Z (Z.of_nat 243)) with 243. lra. }
  destruct (facing_press n o3 w3 Hf3 Hj3) as (Hf4 & Hj4 & Harc4).
  destruct (newSpeed_bounds (10 * n)) as [Hs0 _]; [lia|].
  destruct (airborne_run n 430 1.5 64 0 (step Press w3) o3)
    as (w5 & o5 & Hf5 & Hj5 & Harc5 & Hx5);
    [lia | lra | left; lia | exact Hs0 | exact Hf4 | exact Hj4 | exact Harc4
    | change (inject_Z (Z.of_nat 0)) with 0; lra | lia |].
  change (Z.of_nat (0 + 64)) with 64%Z in Harc5, Hx5.
  change (inject_Z 64) with 64 in Hx5.
  destruct (airborne_land n w5 o5) as (w6 & o6 & Hf6 & Hj6 & Hx6);
    [lia | exact Hf5 | exact Hj5 | exact Harc5 | lra |].
  apply (leaving_run n 254 w6 o6); [lia | exact Hf6 | exact Hj6 | exact Hx6|].
  change (inject_Z (Z.of_nat 254)) with 254. lra.
Qed.

(** Every score up to 99990 is reached by a game that is still running. *)
Lemma idle_any (n : Z) : (0 <= n <= 9999)%Z -> exists w : World, idle n w.
Proof.
  intros [H0 Hn]. revert Hn. pattern n. apply natlike_ind; [| |exact H0].
  - intros _. exists (step Press (fst (mount None))). exact idle_start.
  - intros k Hk IH Hle. destruct IH as [w Hw]; [lia|].
    apply (idle_next k w); [lia | exact Hw].
Qed.

End Cycle.

(** ** The frame that wins the game *)

Section WonInGame.

(** A game can be played up to its last obstacle with the player 64 frames
    into a jump when the obstacle is about to pass the centre of the
    player. *)
Lemma last_obstacle :
  exists (w : World) (o : Obstacle),
    facing 9999 o w /\
    isJumping (player (gameState (refs w))) = true /\
    arcAt 64 (player (gameState (refs w))) /\
    382 <= x o < 388.
Proof.
  destruct (idle_any 9999) as [w0 Hi0]; [lia|].
  assert (Hmax : (0 <= 10 * 9999 < MAX_SCORE)%Z) by (unfold MAX_SCORE; lia).
  destruct (idle_wait 9999 267 w0 Hi0 Hmax) as (w1 & Hi1 & HL1).
  { pose proof (lastObstacleX_reachable w0 (proj1 Hi0)) as H800.
    change (inject_Z (Z.of_nat 267)) with 267. lra. }
  destruct (idle_spawn 9999 w1 Hi1 Hmax HL1) as (w2 & o2 & Hf2 & Hj2 & Hx2).
  assert (Hs1 : 1.5 <= gameSpeed (gameState (refs w1)) <= 6)
    by apply (arrayInv_reachable w1 (proj1 Hi1)).
  destruct (approach_run 9999 766 18 w2 o2) as (w3 & o3 & Hf3 & Hj3 & Hx3);
    [lia | lra | right; lra | exact Hf2 | exact Hj2 | rewrite Hx2; lra | |].
  { rewrite Hx2. change (inject_Z (Z.of_nat 18)) with 18. lra. }
  destruct (facing_press 9999 o3 w3 Hf3 Hj3) as (Hf4 & Hj4 & Harc4).
  destruct (airborne_run 9999 766 6 64 0 (step Press w3) o3)
    as (w5 & o5 & Hf5 & Hj5 & Harc5 & Hx5);
    [lia | lra | right; lra | vm_compute; discriminate | exact Hf4 | exact Hj4
    | exact Harc4 | change (inject_Z (Z.of_nat 0)) with 0; lra | lia |].
  change (Z.of_nat (0 + 64)) with 64%Z in Harc5, Hx5.
  change (inject_Z 64) with 64 in Hx5.
  exists w5, o5. split; [exact Hf5|]. split; [exact Hj5|].
  split; [exact Harc5 | lra].
Qed.

(** In the next frame of that game the obstacle is passed, which makes the
    score 100000 and wins the game, and in the same call of the callback it
    overlaps the player, who is coming down: the calls are [setScore],
    [setGameWon(true)] and then [setGameOver(true)], and the next render is
    won and over. *)
Lemma won_and_over :
  exists (w : World) (toggle : list Call),
    reachable w /\
    snd (updateGame (react w) 0.5 (refs w)) =
      (SetScore 100000 :: toggle) ++ SetGameWon true :: [SetGameOver true] /\
    gameWon (react (step (Frame 0.5) w)) = true /\
    gameOver (react (step (Frame 0.5) w)) = true.
Proof.
  destruct last_obstacle as (w & o & Hf & Hj & Harc & Hx).
  destruct (facing_facts 9999 o w Hf) as (Hsh & Hpa & _).
  destruct Hf as (Hr & Hrun & Harr & Hcur).
  destruct (loopStart_half w Hr) as [Harr0 _]. rewrite Harr in Harr0.
  destruct (visit_single w 0.5 o Hr Harr0 Hsh Hpa)
    as (_ & _ & Hsh' & Hpa' & Hx' & _ & _ & _ & Hnew & Hhit).
  cbn zeta in *.
  set (o' := advance (updatePlayer 0.3 (player (gameState (refs w))))
               (gameSpeed (gameState (refs w))) o) in *.
  assert (Hp0 : passed o = false).
  { unfold passedInv in Hpa. rewrite Hpa. apply NumFacts.ltb_ge.
    destruct Hsh as (_ & -> & _). lra. }
  rewrite Hp0 in Hcur. change (10 * 9999 + 0)%Z with 99990%Z in Hcur.
  assert (Hs6 : gameSpeed (gameState (refs w)) == 6).
  { destruct (difficultyInv_reachable w Hr) as [H1 _]. rewrite H1, Hcur.
    vm_compute. reflexivity. }
  assert (Hp1 : passed o' = true).
  { unfold passedInv in Hpa'. rewrite Hpa'. apply NumFacts.ltb_lt.
    destruct Hsh' as (_ & -> & _). rewrite Hx'. lra. }
  destruct (arc_step 64 _ Hj Harc) as [_ [_ Hy65]]; [lia|].
  assert (Hhigh : 135 < y (updatePlayer 0.3 (player (gameState (refs w))))).
  { rewrite Hy65. vm_compute. reflexivity. }
  assert (Hhits : hits (o, loopStart 0.5 (refs w)) = true).
  { apply Hhit. split; [lra | exact Hhigh]. }
  rewrite Hp0, Hp1 in Hnew. cbn [negb andb] in Hnew.
  assert (Hcalls : snd (updateGame (react w) 0.5 (refs w)) =
            (SetScore 100000 ::
             snd (checkThemeChange 100000 (gameState (loopStart 0.5 (refs w))))) ++
            SetGameWon true :: [SetGameOver true]).
  { rewrite (updateGame_single (react w) 0.5 (refs w) o Hrun Harr0). cbn [snd].
    unfold callbackCalls. cbn [fst snd]. rewrite visitObstacle_calls. cbn zeta.
    rewrite Hnew, Hhits.
    change (currentScoreRef (loopStart 0.5 (refs w))) with (currentScoreRef (refs w)).
    rewrite Hcur. change (99990 + 10)%Z with 100000%Z.
    change (MAX_SCORE <=? 100000)%Z with true.
    cbn [app]. rewrite <- app_assoc. reflexivity. }
  exists w, (snd (checkThemeChange 100000 (gameState (loopStart 0.5 (refs w))))).
  split; [exact Hr|]. split; [exact Hcalls|].
  pose proof (step_lifecycle (Frame 0.5) w) as Hl.
  rewrite handle_frame_calls in Hl.
  destruct (updateGame_facts (react w) 0.5 (refs w)) as (_ & Hfc & _).
  destruct (applyCalls_frame _ Hfc (react w) None) as (_ & _ & Hw & Ho & _).
  cbn zeta in *. unfold lifecycle in Hl.
  split.
  - replace (gameWon (react (step (Frame 0.5) w)))
      with (gameWon (applyCalls (snd (updateGame (react w) 0.5 (refs w))) (react w)))
      by congruence.
    apply Hw. right. rewrite Hcalls. apply in_or_app. right. left. reflexivity.
  - replace (gameOver (react (step (Frame 0.5) w)))
      with (gameOver (applyCalls (snd (updateGame (react w) 0.5 (refs w))) (react w)))
      by congruence.
    apply Ho. right. rewrite Hcalls. apply in_or_app. right. right. left.
    reflexivity.
Qed.

(** C2, counterexample: a game played up to 99990 points in which the
    player comes down on the last obstacle in the frame that passes it.  The
    update of that frame calls setScore(100000) and setGameWon(true) and
    then, in the collision test of the same call of the callback,
    setGameOver(true): a collision is processed after the transition to
    won. *)
Lemma won_then_game_over : ~ won_stops_frame.
Proof.
  intros H. destruct won_and_over as (w & toggle & Hr & Hcalls & _).
  specialize (H w 0.5 _ _ Hr Hcalls).
  inversion H as [|c l Hc _]. exact Hc.
Qed.

(** C2, amended: in every reachable state the game is won exactly if the
    score is 99999 or more.  When the score moves in an update and ends at
    99999 or more, setGameWon(true) is among the calls and the next render
    is won.  In the update of a reachable state all calls are made in one
    call of the callback: obstacles later in the iteration neither raise the
    score nor end the game, and after setGameWon(true) the only call that
    can follow is the setGameOver(true) of the collision test of the same
    obstacle.  From a won state on, won is terminal for the simulation:
    every later update returns at once, with no call, and over any number of
    frames the component state, the score, the store and the simulation
    state stay as they are. *)
Theorem won_ends_the_simulation (w : World) (random : Q) :
  let calls := snd (updateGame (react w) random (refs w)) in
  let m' := fst (updateGame (react w) random (refs w)) in
  let w' := step (Frame random) w in
  (reachable w -> gameWon (react w) = (MAX_SCORE <=? score (react w))%Z) /\
  (currentScoreRef m' <> currentScoreRef (refs w) ->
   (MAX_SCORE <= currentScoreRef m')%Z ->
   In (SetGameWon true) calls /\ gameWon (react w') = true) /\
  (reachable w ->
   (calls = [] \/
    exists v, In v (frameVisits random w) /\ calls = callbackCalls v) /\
   (length (scoresSet calls) <= 1)%nat /\
   (forall before after : list Call,
      calls = before ++ SetGameWon true :: after ->
      after = [] \/ after = [SetGameOver true])) /\
  (gameWon (react w') = true ->
   forall randoms : list Q,
     let w'' := run (map Frame randoms) w' in
     (forall random' : Q,
        updateGame (react w'') random' (refs w'') = (refs w'', [])) /\
     react w'' = react w' /\ storedItem w'' = storedItem w' /\
     currentScoreRef (refs w'') = currentScoreRef (refs w') /\
     simulation (gameState (refs w'')) = simulation (gameState (refs w'))).
Proof.
  cbn zeta. split; [apply wonInv_reachable|]. split; [|split].
  - intros Hne Hmax.
    destruct (updateGame_facts (react w) random (refs w)) as (_ & Hcalls & _ & Hw).
    cbn zeta in *. specialize (Hw Hne Hmax). split; [exact Hw|].
    unfold step, gameLoop.
    destruct (updateGame (react w) random (refs w)) as [m' calls].
    cbn [fst snd] in *.
    destruct (commit_facts calls (render (react w) m') w) as (Hl & _).
    cbn zeta in Hl. unfold lifecycle in Hl. injection Hl as _ _ _ Hl _.
    rewrite Hl. apply (applyCalls_frame _ Hcalls (react w) None). auto.
  - intros Hr.
    destruct (updateGame_one_callback w random Hr) as [Hnil | (v & Hv & Hone)].
    + cbn zeta in Hnil. rewrite Hnil. split; [auto|]. split; [cbn; lia|].
      intros before after H. destruct before; discriminate H.
    + cbn zeta in Hone. split; [right; exists v; auto|]. rewrite Hone. split.
      * destruct v as [o m]. unfold callbackCalls. cbn [fst snd].
        destruct (visitObstacle_facts o 0 m) as (_ & -> & _).
        destruct (newlyPassed o m); cbn; lia.
      * intros before after. apply callbackCalls_after_won.
  - intros Hwon randoms. cbn zeta.
    assert (Hstop : running (react (step (Frame random) w)) = false).
    { unfold running. rewrite Hwon, orb_true_r. reflexivity. }
    destruct (frames_stopped randoms _ Hstop) as (Hr & Hs & Hc & Hg).
    cbn zeta in *. split; [|auto].
    intros random'. apply updateGame_stopped. rewrite Hr. exact Hstop.
Qed.

(** The played game: its next update makes all its calls in one call of
    the callback.  And the jump over the last obstacle: the frame wins the
    game, and three frames later nothing has moved. *)
Lemma won_ends_the_simulation_witness :
  (let calls := snd (updateGame (react playedWorld) 0.5 (refs playedWorld)) in
   calls = [] \/
   exists v, In v (frameVisits 0.5 playedWorld) /\ calls = callbackCalls v) /\
  (let w' := step (Frame 0.5) overTheLast in
   let w'' := run (map Frame [0; 0; 0]) w' in
   gameWon (react w') = true /\
   updateGame (react w'') 0 (refs w'') = (refs w'', []) /\
   currentScoreRef (refs w'') = currentScoreRef (refs w')).
Proof.
  cbn zeta. split.
  - destruct (won_ends_the_simulation playedWorld 0.5) as (_ & _ & H & _).
    exact (proj1 (H playedWorld_reachable)).
  - destruct (won_ends_the_simulation overTheLast 0.5) as (_ & H1 & _ & H2).
    cbn zeta in *.
    destruct H1 as [_ Hwon]; [vm_compute; discriminate | vm_compute; discriminate |].
    destruct (H2 Hwon [0; 0; 0]) as (Hu & _ & _ & Hc & _).
    split; [exact Hwon|]. split; [apply Hu | exact Hc].
Defined.

End WonInGame.
